(** * learncpp-po-polsku: the translation drivers, embedded and verified

    A shallow embedding of the two translation drivers
    [translate_learncpp_pl.py] (prose and attributes of HTML pages) and
    [translate_code_comments_pl.py] (comments inside [<code>] blocks),
    followed by the properties of the extraction, classification, batching,
    caching and rewriting pipeline.

    Python [str] values are sequences of Unicode code points: a character is
    a code point in [N], a string a list of them.  The translation backend is
    an oracle threaded through explicit state. *)

From Stdlib Require Import NArith ZArith Lia List Ascii String Decimal DecimalNat.
From stdpp Require Import base option list gmap.

Local Open Scope nat_scope.
Local Open Scope list_scope.

(** ** Text: code points, literals, Python's string primitives *)

Abbreviation char := N (only parsing).
Abbreviation str := (list N) (only parsing).

(** An ASCII literal of the source, as a list of code points. *)
Definition lit (s : string) : str :=
  map N_of_ascii (list_ascii_of_string s).

Definition ch (a : ascii) : char := N_of_ascii a.
Arguments lit : simpl never.
Arguments ch : simpl never.

Definition char_eqb (a b : char) : bool := N.eqb a b.
Arguments char_eqb : simpl never.

Fixpoint str_eqb (a b : str) : bool :=
  match a, b with
  | [], [] => true
  | x :: a', y :: b' => char_eqb x y && str_eqb a' b'
  | _, _ => false
  end.

Definition in_range (lo hi c : char) : bool := (N.leb lo c && N.leb c hi)%bool.

(** [str.isspace] for one character, which is also what [\s] matches in a
    [str] pattern and what [str.strip()] removes (CPython's
    [_PyUnicode_IsWhitespace]). *)
Definition isspace (c : char) : bool :=
  (in_range 9 13 c || in_range 28 32 c || char_eqb c 133 || char_eqb c 160
   || char_eqb c 5760 || in_range 8192 8202 c || char_eqb c 8232
   || char_eqb c 8233 || char_eqb c 8239 || char_eqb c 8287
   || char_eqb c 12288)%bool.

(** [\[A-Za-z\]] without IGNORECASE. *)
Definition is_ascii_letter (c : char) : bool :=
  (in_range 65 90 c || in_range 97 122 c)%bool.

Definition is_ascii_digit (c : char) : bool := in_range 48 57 c.

(** [s.lower()] on the strings it is applied to in the sources: matches of
    [\[A-Za-z\]{2,}] and of [\[a-zA-Z0-9:_-\]+], where only A-Z change. *)
Definition ascii_lower_char (c : char) : char :=
  if in_range 65 90 c then (c + 32)%N else c.
Definition ascii_lower (s : str) : str := map ascii_lower_char s.

Fixpoint take_while (p : char -> bool) (s : str) : str :=
  match s with
  | c :: s' => if p c then c :: take_while p s' else []
  | [] => []
  end.

Fixpoint drop_while (p : char -> bool) (s : str) : str :=
  match s with
  | c :: s' => if p c then drop_while p s' else s
  | [] => []
  end.

(** [s\[a:b\]] for [0 <= a] and [0 <= b]: empty when [b <= a]. *)
Definition slice (a b : nat) (s : str) : str := take (b - a) (drop a s).

(** [s.startswith(p)] *)
Fixpoint startswith (p s : str) : bool :=
  match p, s with
  | [], _ => true
  | x :: p', y :: s' => char_eqb x y && startswith p' s'
  | _ :: _, [] => false
  end.

(** [s.endswith(p)] *)
Definition endswith (p s : str) : bool := startswith (rev p) (rev s).

(** [s.find(sub, start)]: the least index [i >= start] at which [sub] occurs,
    [None] for Python's [-1].  [find_from sub s i] searches [s], whose first
    character has index [i]. *)
Fixpoint find_from (sub s : str) (i : nat) : option nat :=
  if startswith sub s then Some i
  else match s with
       | [] => None
       | _ :: s' => find_from sub s' (S i)
       end.

Definition find (sub s : str) (start : nat) : option nat :=
  if start <=? length s then find_from sub (drop start s) start else None.

(** [sub in s] *)
Definition contains (sub s : str) : bool :=
  match find sub s 0 with Some _ => true | None => false end.

(** [s.lstrip()], [s.rstrip()], [s.strip()] *)
Definition lstrip (s : str) : str := drop_while isspace s.
Definition rstrip (s : str) : str := rev (drop_while isspace (rev s)).
Definition strip (s : str) : str := rstrip (lstrip s).

(** [str(n)] for a natural number. *)
Fixpoint uint_chars (d : uint) : str :=
  match d with
  | Nil => []
  | D0 d => 48%N :: uint_chars d
  | D1 d => 49%N :: uint_chars d
  | D2 d => 50%N :: uint_chars d
  | D3 d => 51%N :: uint_chars d
  | D4 d => 52%N :: uint_chars d
  | D5 d => 53%N :: uint_chars d
  | D6 d => 54%N :: uint_chars d
  | D7 d => 55%N :: uint_chars d
  | D8 d => 56%N :: uint_chars d
  | D9 d => 57%N :: uint_chars d
  end.

Definition str_of_nat (n : nat) : str := uint_chars (Nat.to_uint n).

(** ** Whitespace splitting ([split_ws], the same text in both drivers) *)

(** [LEAD_WS_RE = ^\s*], used with [match]: the longest run of whitespace at
    the start (greedy, and the empty match always succeeds). *)
Definition LEAD_WS_RE_match (text : str) : str := take_while isspace text.

(** [$] without MULTILINE holds at the end of the string and just before a
    newline that is the last character.  [rest] is the text from the position
    tested on. *)
Definition at_dollar (rest : str) : bool :=
  match rest with
  | [] => true
  | [c] => char_eqb c 10
  | _ => false
  end.

(** [\s*$] tried at one position: the greedy star takes [k] whitespace
    characters, the most it can, and gives them back one at a time until [$]
    holds.  [k] counts down from the length of the whitespace run. *)
Fixpoint trail_backtrack (rest : str) (k : nat) : option str :=
  if at_dollar (drop k rest) then Some (take k rest)
  else match k with
       | 0 => None
       | S k' => trail_backtrack rest k'
       end.

Definition trail_match_at (rest : str) : option str :=
  trail_backtrack rest (length (take_while isspace rest)).

(** [TRAIL_WS_RE = \s*$], used with [search]: the match at the leftmost
    position that has one.  The position after the last character always
    matches, so the search always succeeds. *)
Fixpoint TRAIL_WS_RE_search (text : str) : str :=
  match trail_match_at text with
  | Some m => m
  | None => match text with
            | [] => []
            | _ :: text' => TRAIL_WS_RE_search text'
            end
  end.

Definition split_ws (text : str) : str * str * str :=
  let lead := LEAD_WS_RE_match text in
  let trail := TRAIL_WS_RE_search text in
  let core :=
    slice (length lead)
          (if negb (length trail =? 0) then length text - length trail
           else length text) text in
  (lead, core, trail).

(** ** The batch marker protocol *)

(** [f"<<<M{i}>>>"] and ["<<<MEND>>>"] *)
Definition marker (i : nat) : str := lit "<<<M" ++ str_of_nat i ++ lit ">>>".
Definition MEND : str := lit "<<<MEND>>>".
Arguments marker : simpl never.
Arguments MEND : simpl never.

(** A pending fragment: its index in the list of texts, and the text. *)
Abbreviation item := (nat * list N)%type (only parsing).

(** The default [max_len] of [build_batches]; no caller passes another. *)
Definition MAX_LEN : nat := 3800.

Definition is_nil {A} (l : list A) : bool :=
  match l with [] => true | _ => false end.

(** ["".join(f"<<<M{i}>>>{t}" for i, t in enumerate(texts)) + "<<<MEND>>>"],
    the payload of [translate_group_payload]; [payload_from i] numbers the
    texts from [i]. *)
Fixpoint payload_from (i : nat) (texts : list str) : str :=
  match texts with
  | [] => []
  | t :: texts' => marker i ++ t ++ payload_from (S i) texts'
  end.

Definition build_payload (texts : list str) : str := payload_from 0 texts ++ MEND.

(** The [for i in range(len(texts))] loop of [translate_group_payload] on the
    backend's reply: [n] is [len(texts)], [i] the current index and [k] the
    number of iterations left.  [None] is the source's [return None]. *)
Fixpoint parse_from (translated : str) (n i k : nat) : option (list str) :=
  match k with
  | 0 => Some []
  | S k' =>
    let next_marker := if S i <? n then marker (S i) else MEND in
    match find (marker i) translated 0 with
    | None => None
    | Some start =>
      let start := start + length (marker i) in
      match find next_marker translated start with
      | None => None
      | Some end_ =>
        match parse_from translated n (S i) k' with
        | None => None
        | Some out => Some (slice start end_ translated :: out)
        end
      end
    end
  end.

(** Everything of [translate_group_payload] after the backend has replied. *)
Definition parse_group (n : nat) (translated : str) : option (list str) :=
  if negb (contains MEND translated) then None
  else parse_from translated n 0 n.

(** The encoded length of a batch: the length of the payload sent for it. *)
Definition encoded_length (batch : list item) : nat :=
  length (build_payload (map snd batch)).


(** ** Python's Unicode tables and case-insensitive matching *)

(** The parts of Python that rest on the Unicode database or on the table of
    HTML character references are parameters: what holds below holds for
    every choice of them, CPython's included.
    - [isalpha c]: [str.isalpha] on the character [c];
    - [isalnum c]: [str.isalnum]; [\w] in a [str] pattern is [isalnum] or [_];
    - [charref_sub s]: [_charref.sub(_replace_charref, s)] of the [html]
      module, the replacement of the character references of [s]. *)
Class PyTables := {
  isalpha : char -> bool;
  isalnum : char -> bool;
  charref_sub : str -> str;
}.

(** [\w] *)
Definition isword `{PyTables} (c : char) : bool := (isalnum c || char_eqb c 95)%bool.

(** The first two tables cut down to ASCII, where they are CPython's, to
    evaluate the definitions on ASCII texts; the replacement of character
    references, which is only used on a text with an [&] in it, is left
    open, or is the identity. *)
Definition ascii_tables_with (sub : str -> str) : PyTables := {|
  isalpha := is_ascii_letter;
  isalnum := fun c => (is_ascii_letter c || is_ascii_digit c)%bool;
  charref_sub := sub;
|}.

Definition ascii_tables : PyTables := ascii_tables_with (fun s => s).

(** The simple lower-case mapping, on the characters it sends to a letter of
    one of the sources' IGNORECASE patterns (an ASCII letter, or one of
    [U+015B], [U+017C], [U+0105]): A-Z, [U+0130] (to [i]), [U+212A] (to [k]),
    and the three capital Polish letters.  Other characters are left alone. *)
Definition simple_lower (c : char) : char :=
  if in_range 65 90 c then (c + 32)%N
  else if char_eqb c 304 then 105%N
  else if char_eqb c 8490 then 107%N
  else if char_eqb c 346 then 347%N
  else if char_eqb c 379 then 380%N
  else if char_eqb c 260 then 261%N
  else c.

(** Whether [c] matches the pattern character [p] under IGNORECASE, for [p]
    a character of one of the sources' patterns (letters there are lower
    case): the lower-case mapping of [c] is [p], or [c] is the other member of
    one of the pairs [i]/[U+0131] and [s]/[U+017F] that [re] treats as equal.
    A pattern character without case matches itself alone. *)
Definition ci_eqb (p c : char) : bool :=
  (char_eqb (simple_lower c) p
   || (char_eqb p 105 && char_eqb c 305)
   || (char_eqb p 115 && char_eqb c 383))%bool.

(** [s] starts with a match of the literal [p] under IGNORECASE. *)
Fixpoint startswith_ci (p s : str) : bool :=
  match p, s with
  | [], _ => true
  | x :: p', y :: s' => ci_eqb x y && startswith_ci p' s'
  | _ :: _, [] => false
  end.

(** The literal [p] matches somewhere in [s] under IGNORECASE. *)
Fixpoint contains_ci (p s : str) : bool :=
  startswith_ci p s ||
  match s with
  | [] => false
  | _ :: s' => contains_ci p s'
  end.


(** ** Words and letters of the comment classifier *)

(** [PL_CHARS_RE]: the eighteen letters of the Polish alphabet that are not
    in ASCII, lower case then upper case. *)
Definition PL_CHARS : list N :=
  [261; 263; 281; 322; 324; 243; 347; 378; 380;
   260; 262; 280; 321; 323; 211; 346; 377; 379]%N.

Definition is_pl_char (c : char) : bool := existsb (char_eqb c) PL_CHARS.

Definition PL_CHARS_RE_search (t : str) : bool := existsb is_pl_char t.

(** [WORD_RE = \[A-Za-z\]{2,}], used with [findall]: the maximal runs of
    ASCII letters that have two letters or more, left to right.  [cur] is the
    run being read, last letter first. *)
Definition emit_word (cur : str) : list str :=
  if 2 <=? length cur then [rev cur] else [].

Fixpoint WORD_RE_findall_go (s : str) (cur : str) : list str :=
  match s with
  | [] => emit_word cur
  | c :: s' =>
    if is_ascii_letter c then WORD_RE_findall_go s' (c :: cur)
    else emit_word cur ++ WORD_RE_findall_go s' []
  end.

Definition WORD_RE_findall (s : str) : list str := WORD_RE_findall_go s [].

Definition EN_HINT_WORDS : list str :=
  map lit
    ["a"; "an"; "and"; "are"; "as"; "be"; "because"; "before"; "both"; "but";
     "call"; "called"; "can"; "class"; "copy"; "create"; "created";
     "creating"; "destroyed"; "directly"; "does"; "each"; "else"; "example";
     "for"; "from"; "function"; "get"; "here"; "if"; "in"; "is"; "it";
     "later"; "legal"; "line"; "loop"; "make"; "name"; "new"; "not"; "now";
     "object"; "objects"; "only"; "or"; "over"; "pointer"; "prevent"; "print";
     "reference"; "references"; "set"; "step"; "still"; "string"; "that";
     "the"; "these"; "this"; "those"; "through"; "to"; "true"; "use"; "used";
     "using"; "value"; "values"; "we"; "when"; "where"; "which"; "while";
     "with"; "you"; "your"]%string.

Definition is_hint_word (w : str) : bool := existsb (str_eqb w) EN_HINT_WORDS.


(** ** The comment finder of [translate_code_comments_pl.py] *)

Inductive scan_state : Type := normal | dquote | squote.
Inductive span_kind : Type := line | block.

(** A span [(start, end, kind)]. *)
Abbreviation span := (nat * nat * span_kind)%type (only parsing).

Definition span_start (sp : span) : nat := sp.1.1.
Definition span_end (sp : span) : nat := sp.1.2.
Definition span_kind_of (sp : span) : span_kind := sp.2.

(** [c in "\r\n"] for a character [c] *)
Definition is_newline (c : char) : bool := (char_eqb c 13 || char_eqb c 10)%bool.

Definition option_list {A} (o : option A) : list A :=
  match o with Some x => [x] | None => [] end.

(** One iteration of the [while i < n] loop of [find_comment_spans], entered
    with [i < n]: the next index, the next state, and the span appended to
    [spans], if any. *)
Definition scan_step (code : str) (i : nat) (state : scan_state)
    : nat * scan_state * option span :=
  let n := length code in
  match code !! i with
  | None => (i, state, None)
  | Some ch =>
    match state with
    | normal =>
      if (i + 1 <? n) && str_eqb (slice i (i + 2) code) (lit "//") then
        let start := i + 2 in
        let j := start + length (take_while (fun c => negb (is_newline c))
                                            (drop start code)) in
        (j, normal, Some (start, j, line))
      else if (i + 1 <? n) && str_eqb (slice i (i + 2) code) (lit "/*") then
        let start := i + 2 in
        match find (lit "*/") code start with
        | None => (n, normal, Some (start, n, block))
        | Some j => (j + 2, normal, Some (start, j, block))
        end
      else if char_eqb ch 34 then (i + 1, dquote, None)
      else if char_eqb ch 39 then (i + 1, squote, None)
      else if char_eqb ch 82 && (i + 1 <? n)
              && match code !! (i + 1) with
                 | Some d => char_eqb d 34
                 | None => false
                 end then
        let dstart := i + 2 in
        match find (lit "(") code dstart with
        | Some open_paren =>
          let delim := slice dstart open_paren code in
          let close_pat := lit ")" ++ delim ++ [34%N] in
          match find close_pat code (open_paren + 1) with
          | Some close_idx => (close_idx + length close_pat, normal, None)
          | None => (i + 1, normal, None)
          end
        | None => (i + 1, normal, None)
        end
      else (i + 1, normal, None)
    | dquote =>
      if char_eqb ch 92 && (i + 1 <? n) then (i + 2, dquote, None)
      else if char_eqb ch 34 then (i + 1, normal, None)
      else (i + 1, dquote, None)
    | squote =>
      if char_eqb ch 92 && (i + 1 <? n) then (i + 2, squote, None)
      else if char_eqb ch 39 then (i + 1, normal, None)
      else (i + 1, squote, None)
    end
  end.

(** The [while i < n] loop; [None] when the fuel runs out before the loop
    ends (with [length code] of fuel it never does, see
    [find_comment_spans_total]). *)
Fixpoint scan_loop (fuel : nat) (code : str) (i : nat) (state : scan_state)
    (spans : list span) : option (list span) :=
  if i <? length code then
    match fuel with
    | 0 => None
    | S fuel' =>
      let '(i', state', sp) := scan_step code i state in
      scan_loop fuel' code i' state' (spans ++ option_list sp)
    end
  else Some spans.

Definition find_comment_spans (code : str) : list span :=
  match scan_loop (length code) code 0 normal [] with
  | Some spans => spans
  | None => []
  end.


(** ** The translation backend *)

(** What a call of [translator.translate] is asked: one payload that packs a
    group of fragments, or a single fragment. *)
Inductive request : Type :=
| Group (vals : list str)
| Single (t : str).

(** The text passed to [translate]. *)
Definition request_text (r : request) : str :=
  match r with
  | Group vals => build_payload vals
  | Single t => t
  end.

(** The fragments a request asks to translate. *)
Definition request_fragments (r : request) : list str :=
  match r with
  | Group vals => vals
  | Single t => [t]
  end.

Section Backend.

(** The backend is an oracle: a call may fail ([None] is a raised exception),
    and it may depend on, and change, the state of the world outside.  The
    state threaded through the drivers is that world and the log of the
    requests made so far.  [time.sleep] has no effect on either. *)
Context {World : Type}.

Definition translator : Type := World -> str -> World * option str.

Record io : Type := { world : World; calls : list request }.

Definition call (tr : translator) (r : request) (s : io) : io * option str :=
  let '(w, reply) := tr (world s) (request_text r) in
  ({| world := w; calls := calls s ++ [r] |}, reply).

(** [translate_group_payload], the same text in both drivers: [Raised] when
    the call raises, [Unparsed] for [return None]. *)
Inductive group_result : Type :=
| Raised
| Unparsed
| Parsed (out : list str).

Definition translate_group_payload (tr : translator) (texts : list str) (s : io)
    : io * group_result :=
  match call tr (Group texts) s with
  | (s', None) => (s', Raised)
  | (s', Some translated) =>
    (s', match parse_group (length texts) translated with
         | None => Unparsed
         | Some out => Parsed out
         end)
  end.

(** The [for attempt in range(5)] loop around [translate_group_payload]:
    [n] attempts are left; the result is the last value of
    [translated_vals]. *)
Fixpoint group_attempts (n : nat) (tr : translator) (vals : list str) (s : io)
    : io * option (list str) :=
  match n with
  | 0 => (s, None)
  | S n' =>
    match translate_group_payload tr vals s with
    | (s', Parsed out) => (s', Some out)
    | (s', _) => group_attempts n' tr vals s'
    end
  end.

(** [enumerate(texts)], counting from [i] *)
Fixpoint enumerate_from (i : nat) (texts : list str) : list item :=
  match texts with
  | [] => []
  | t :: texts' => (i, t) :: enumerate_from (S i) texts'
  end.

(** [\[(i, t) for i, t in enumerate(texts) if t not in cache\]] *)
Definition missing_items (texts : list str) (cache : gmap str str) : list item :=
  filter (fun it => cache !! it.2 = None) (enumerate_from 0 texts).

(** [for i, tr in zip(idxs, translated_vals): cache\[texts\[i\]\] = tr];
    [None] when [texts\[i\]] raises IndexError. *)
Fixpoint store (texts : list str) (pairs : list (nat * str)) (cache : gmap str str)
    : option (gmap str str) :=
  match pairs with
  | [] => Some cache
  | (i, tr) :: pairs' =>
    match texts !! i with
    | None => None
    | Some key => store texts pairs' (<[key := tr]> cache)
    end
  end.

(** The [for attempt in range(n)] loops around a call for one fragment: the
    reply of the first call that does not raise. *)
Fixpoint single_attempts (n : nat) (tr : translator) (t : str) (s : io)
    : io * option str :=
  match n with
  | 0 => (s, None)
  | S n' =>
    match call tr (Single t) s with
    | (s', Some reply) => (s', Some reply)
    | (s', None) => single_attempts n' tr t s'
    end
  end.

End Backend.

Arguments translator : clear implicits.
Arguments io : clear implicits.

(** ** The [html] module *)

(** [html.unescape]: a text without [&] is returned as it is; the rest is the
    table-driven replacement. *)
Definition html_unescape `{PyTables} (s : str) : str :=
  if negb (contains (lit "&") s) then s else charref_sub s.

(** [html.escape(s, quote)]: [&], [<] and [>] are replaced, and the two
    quotes as well when [quote] is true. *)
Definition html_escape_char (quote : bool) (c : char) : str :=
  if char_eqb c 38 then lit "&amp;"
  else if char_eqb c 60 then lit "&lt;"
  else if char_eqb c 62 then lit "&gt;"
  else if quote && char_eqb c 34 then lit "&quot;"
  else if quote && char_eqb c 39 then lit "&#x27;"
  else [c].

Definition html_escape (s : str) (quote : bool) : str :=
  concat (map (html_escape_char quote) s).

(** [\b] between two characters; [None] stands for the start or the end of
    the text. *)
Definition is_word_opt `{PyTables} (c : option char) : bool :=
  match c with Some c => isword c | None => false end.
Definition word_boundary `{PyTables} (prev next : option char) : bool :=
  xorb (is_word_opt prev) (is_word_opt next).


(** ** Text files *)

(** The content of a file is given as the characters its bytes decode to
    as UTF-8; [errors="ignore"] drops the bytes that do not decode. *)

(** [os.linesep], which a text stream writes for every [\n]: [\r\n] on
    Windows, [\n] elsewhere. *)
Class Platform := { windows : bool }.

Definition linesep `{Platform} : str := if windows then [13; 10]%N else [10%N].

(** Reading with universal newlines, as a stream opened with [newline=None]
    does: [\r\n] and a [\r] alone are read as [\n].  [after_cr] tells
    that the character before was a [\r]. *)
Fixpoint universal_newlines (content : str) (after_cr : bool) : str :=
  match content with
  | [] => []
  | c :: content' =>
    if char_eqb c 13 then 10%N :: universal_newlines content' true
    else if char_eqb c 10 && after_cr then universal_newlines content' false
    else c :: universal_newlines content' false
  end.

(** [path.read_text(encoding="utf-8", errors="ignore")] on a file whose
    content is [content]. *)
Definition read_text (content : str) : str := universal_newlines content false.

(** The code points UTF-8 does not encode. *)
Definition is_surrogate (c : char) : bool := in_range 55296 57343 c.

(** [path.write_text(data, encoding="utf-8")]: the content of the file after
    the call, where every [\n] is written as [os.linesep], or [None] for the
    [UnicodeEncodeError] that a surrogate in [data] raises. *)
Definition write_text `{Platform} (data : str) : option str :=
  if existsb is_surrogate data then None
  else Some (flat_map (fun c => if char_eqb c 10 then linesep else [c]) data).

(** * [translate_learncpp_pl.py] *)

Module Learncpp.

(** [URL_RE = ^(https?:|mailto:|tel:|www\.)] with IGNORECASE, used with
    [search]: without MULTILINE [^] holds at the start only. *)
Definition URL_RE_search (t : str) : bool :=
  (startswith_ci (lit "http:") t || startswith_ci (lit "https:") t
   || startswith_ci (lit "mailto:") t || startswith_ci (lit "tel:") t
   || startswith_ci (lit "www.") t)%bool.

(** [HAS_LETTER_RE = \[A-Za-zÀ-ž\]], used with [search]; the last range is
    [U+00C0] to [U+017E]. *)
Definition HAS_LETTER_RE_search (t : str) : bool :=
  existsb (fun c => (in_range 65 90 c || in_range 97 122 c || in_range 192 382 c)%bool) t.

Definition should_translate (text : str) : bool :=
  let t := strip text in
  if is_nil t then false
  else if URL_RE_search t then false
  else if startswith (lit "{{") t && endswith (lit "}}") t then false
  else if negb (HAS_LETTER_RE_search t) then false
  else true.

(** One iteration of the [for item in items] loop of [build_batches]; the
    state is [(batches, current, current_len)]. *)
Definition build_batches_step (max_len : nat)
    (st : list (list item) * list item * nat) (it : item)
    : list (list item) * list item * nat :=
  let '(batches, current, current_len) := st in
  let '(idx, txt) := it in
  let extra := length (marker (length current)) + length txt in
  if negb (is_nil current) && (max_len <? current_len + extra) then
    let extra := length (marker 0) + length txt in
    (batches ++ [current], [(idx, txt)], length MEND + extra)
  else
    (batches, current ++ [(idx, txt)], current_len + extra).

Definition build_batches (items : list item) (max_len : nat) : list (list item) :=
  let '(batches, current, _) :=
    fold_left (build_batches_step max_len) items ([], [], length MEND) in
  if negb (is_nil current) then batches ++ [current] else batches.

Section WithBackend.
Context {World : Type}.

(** The fallback [for t in vals] loop. *)
Fixpoint translate_each (tr : translator World) (vals : list str) (s : io World)
    : io World * list str :=
  match vals with
  | [] => (s, [])
  | t :: vals' =>
    let '(s1, reply) := single_attempts 5 tr t s in
    let x := match reply with Some x => x | None => t end in
    let '(s2, xs) := translate_each tr vals' s1 in
    (s2, x :: xs)
  end.

(** The [for batch in batches] loop. *)
Fixpoint translate_batches (tr : translator World) (texts : list str)
    (batches : list (list item)) (cache : gmap str str) (s : io World)
    : io World * option (gmap str str) :=
  match batches with
  | [] => (s, Some cache)
  | batch :: batches' =>
    let idxs := map fst batch in
    let vals := map snd batch in
    let '(s1, translated_vals) := group_attempts 5 tr vals s in
    let '(s2, translated_vals) :=
      match translated_vals with
      | Some out => (s1, out)
      | None => translate_each tr vals s1
      end in
    match store texts (zip idxs translated_vals) cache with
    | None => (s2, None)
    | Some cache' => translate_batches tr texts batches' cache' s2
    end
  end.

(** The cache after the call, or [None] for an exception. *)
Definition translate_missing (texts : list str) (cache : gmap str str)
    (tr : translator World) (s : io World) : io World * option (gmap str str) :=
  let missing := missing_items texts cache in
  if is_nil missing then (s, Some cache)
  else translate_batches tr texts (build_batches missing MAX_LEN) cache s.

End WithBackend.

Definition SKIP_TAGS : list str :=
  map lit ["script"; "style"; "pre"; "code"; "textarea"; "svg"; "math"]%string.
Definition ATTRS_TO_TRANSLATE : list str :=
  map lit ["title"; "alt"; "placeholder"]%string.

(** [x in l] *)
Definition str_in (x : str) (l : list str) : bool := existsb (str_eqb x) l.

(** [<\[^>\]+>] at a [<], where [rest] is the text after it: the class takes
    every character up to the next [>] ([<] and newlines too), at least one,
    and a [>] must follow.  The result is what stands between the two. *)
Definition tag_match (rest : str) : option str :=
  let body := take_while (fun c => negb (char_eqb c 62)) rest in
  if is_nil body then None
  else match drop (length body) rest with
       | _ :: _ => Some body
       | [] => None
       end.

(** [TAG_SPLIT_RE.split(original)]: with the capturing group the result
    alternates text and tag and starts and ends with a text.  [cur] is the
    text being read, last character first; [skip] counts the characters of
    the tag just matched still to pass over. *)
Fixpoint TAG_SPLIT_RE_split_go (s : str) (skip : nat) (cur : str) : list str :=
  match s with
  | [] => [rev cur]
  | c :: s' =>
    match skip with
    | S k => TAG_SPLIT_RE_split_go s' k cur
    | 0 =>
      if char_eqb c 60 then
        match tag_match s' with
        | Some body =>
          rev cur :: ([60%N] ++ body ++ [62%N])
            :: TAG_SPLIT_RE_split_go s' (length body + 1) []
        | None => TAG_SPLIT_RE_split_go s' 0 (c :: cur)
        end
      else TAG_SPLIT_RE_split_go s' 0 (c :: cur)
    end
  end.

Definition TAG_SPLIT_RE_split (original : str) : list str :=
  TAG_SPLIT_RE_split_go original 0 [].

Inductive tag_type : Type := tag_start | tag_end.

Section WithTables.
Context `{PyTables}.

(** [(\[a-zA-Z0-9:_-\]+)\b]: the plus takes the whole run of name characters
    and gives them back one at a time until [\b] holds after the name. *)
Definition is_name_char (c : char) : bool :=
  (is_ascii_letter c || is_ascii_digit c || char_eqb c 58 || char_eqb c 95
   || char_eqb c 45)%bool.

Fixpoint name_backtrack (rest : str) (k : nat) : option str :=
  match k with
  | 0 => None
  | S k' =>
    if word_boundary (rest !! k') (rest !! k) then Some (take k rest)
    else name_backtrack rest k'
  end.

Definition tag_name_match (rest : str) : option str :=
  name_backtrack rest (length (take_while is_name_char rest)).

(** [START_TAG_RE = ^<\s*(\[a-zA-Z0-9:_-\]+)\b] and
    [END_TAG_RE = ^<\s*/\s*(\[a-zA-Z0-9:_-\]+)\b], used with [match]: group 1. *)
Definition START_TAG_RE_match (token : str) : option str :=
  match token with
  | c :: rest =>
    if char_eqb c 60 then tag_name_match (drop_while isspace rest) else None
  | [] => None
  end.

Definition END_TAG_RE_match (token : str) : option str :=
  match token with
  | c :: rest =>
    if char_eqb c 60 then
      match drop_while isspace rest with
      | d :: rest' =>
        if char_eqb d 47 then tag_name_match (drop_while isspace rest') else None
      | [] => None
      end
    else None
  | [] => None
  end.

(** [None] is the source's [(None, None)]. *)
Definition parse_tag_name (token : str) : option (tag_type * str) :=
  if startswith (lit "<!--") token || startswith (lit "<!") token
     || startswith (lit "<?") token then None
  else
    match END_TAG_RE_match token with
    | Some name => Some (tag_end, ascii_lower name)
    | None =>
      match START_TAG_RE_match token with
      | Some name => Some (tag_start, ascii_lower name)
      | None => None
      end
    end.

(** [ATTR_RE] tried where [rest] starts, [prev] being the character before:
    the prefix, the value, and the length of the whole match.  The value is
    lazy: it ends at the first character equal to the opening quote. *)
Definition attr_name_match (rest : str) : option nat :=
  if startswith_ci (lit "title") rest then Some 5
  else if startswith_ci (lit "alt") rest then Some 3
  else if startswith_ci (lit "placeholder") rest then Some 11
  else None.

Definition ATTR_RE_match_at (prev : option char) (rest : str)
    : option (str * str * nat) :=
  if negb (word_boundary prev (head rest)) then None
  else
    match attr_name_match rest with
    | None => None
    | Some n =>
      let r1 := drop n rest in
      let ws1 := take_while isspace r1 in
      match drop (length ws1) r1 with
      | [] => None
      | c :: r2 =>
        if negb (char_eqb c 61) then None
        else
          let ws2 := take_while isspace r2 in
          match drop (length ws2) r2 with
          | [] => None
          | q :: r3 =>
            if negb (char_eqb q 39 || char_eqb q 34) then None
            else
              let value := take_while (fun c => negb (char_eqb c q)) r3 in
              match drop (length value) r3 with
              | [] => None
              | _ :: _ =>
                let plen := n + length ws1 + 1 + length ws2 in
                Some (take plen rest, value, plen + 1 + length value + 1)
              end
          end
      end
    end.

(** [ATTR_RE.finditer(token)]: for each match its prefix, [m.start("value")],
    [m.end("value")] and the value.  [pos] is the offset of [s] in the
    token. *)
Fixpoint ATTR_RE_finditer_go (pos : nat) (prev : option char) (skip : nat)
    (s : str) : list (str * nat * nat * str) :=
  match s with
  | [] => []
  | c :: s' =>
    match skip with
    | S k => ATTR_RE_finditer_go (S pos) (Some c) k s'
    | 0 =>
      match ATTR_RE_match_at prev s with
      | Some (prefix, value, len) =>
        (prefix, pos + length prefix + 1,
         pos + length prefix + 1 + length value, value)
          :: ATTR_RE_finditer_go (S pos) (Some c) (len - 1) s'
      | None => ATTR_RE_finditer_go (S pos) (Some c) 0 s'
      end
    end
  end.

Definition ATTR_RE_finditer (token : str) : list (str * nat * nat * str) :=
  ATTR_RE_finditer_go 0 None 0 token.

(** The entries [(idx, lead, core, trail)] and
    [(idx, start, end, raw_val, val)]. *)
Definition text_entry : Type := nat * list N * list N * list N.
Definition attr_entry : Type := nat * nat * nat * list N * list N.

(** The body of [for m in ATTR_RE.finditer(token)] for one match.  The name
    is a match of [title], [alt] or [placeholder] under IGNORECASE; its
    [lower()] is in the set exactly when it is written in ASCII letters,
    where [lower] is [ascii_lower]. *)
Definition attr_entry_of (idx : nat) (m : str * nat * nat * str) : list attr_entry :=
  let '(prefix, vstart, vend, raw_val) := m in
  let attr_name :=
    ascii_lower (strip (take_while (fun c => negb (char_eqb c 61)) prefix)) in
  if negb (str_in attr_name ATTRS_TO_TRANSLATE) then []
  else
    let val := html_unescape raw_val in
    if should_translate val then [(idx, vstart, vend, raw_val, val)] else [].

(** What the attribute scan adds for the tag token [token] at [idx]. *)
Definition scan_attrs (idx : nat) (token : str) : list attr_entry :=
  flat_map (attr_entry_of idx) (ATTR_RE_finditer token).

(** What the text branch adds for the text token [token] at [idx]. *)
Definition scan_text (idx : nat) (token : str) : list text_entry :=
  if negb (should_translate (html_unescape token)) then []
  else
    let decoded := html_unescape token in
    let '(lead, core, trail) := split_ws decoded in
    if negb (should_translate core) then [] else [(idx, lead, core, trail)].

(** The effect of a tag token on [skip_stack]. *)
Definition update_stack (skip_stack : list str) (token : str) : list str :=
  match parse_tag_name token with
  | Some (tag_start, tag_name) =>
    if str_in tag_name SKIP_TAGS && negb (endswith (lit "/>") (rstrip token))
    then skip_stack ++ [tag_name]
    else skip_stack
  | Some (tag_end, tag_name) =>
    match last skip_stack with
    | Some top => if str_eqb tag_name top then removelast skip_stack else skip_stack
    | None => skip_stack
    end
  | None => skip_stack
  end.

(** One iteration of [for idx, token in enumerate(parts)]; the state is
    [(skip_stack, text_entries, attr_entries)]. *)
Definition scan_token (st : list str * list text_entry * list attr_entry)
    (it : nat * str) : list str * list text_entry * list attr_entry :=
  let '(skip_stack, text_entries, attr_entries) := st in
  let '(idx, token) := it in
  if idx mod 2 =? 1 then
    let skip_stack := update_stack skip_stack token in
    if is_nil skip_stack
    then (skip_stack, text_entries, attr_entries ++ scan_attrs idx token)
    else (skip_stack, text_entries, attr_entries)
  else if negb (is_nil skip_stack) then st
  else (skip_stack, text_entries ++ scan_text idx token, attr_entries).

(** The first loop of [process_file]. *)
Definition scan_parts (parts : list str)
    : list str * list text_entry * list attr_entry :=
  fold_left scan_token (enumerate_from 0 parts) ([], [], []).

(** [cache.get(key, key)] *)
Definition cache_get (cache : gmap str str) (key : str) : str :=
  match cache !! key with Some v => v | None => key end.

Definition escape_html_text (text : str) : str := html_escape text false.
Definition escape_attr_value (text : str) : str := html_escape text true.

(** "Apply text replacements"; [None] when [parts\[idx\]] raises. *)
Fixpoint apply_text (text_entries : list text_entry) (cache : gmap str str)
    (parts : list str) (changed : bool) : option (list str * bool) :=
  match text_entries with
  | [] => Some (parts, changed)
  | (idx, lead, core, trail) :: rest =>
    let tr := cache_get cache core in
    let new_text := lead ++ escape_html_text tr ++ trail in
    match parts !! idx with
    | None => None
    | Some old =>
      if negb (str_eqb old new_text)
      then apply_text rest cache (<[idx := new_text]> parts) true
      else apply_text rest cache parts changed
    end
  end.

(** [attrs_by_token.setdefault(idx, \[\]).append(e)] on a dictionary kept in
    insertion order. *)
Fixpoint setdefault_append (groups : list (nat * list (nat * nat * str)))
    (idx : nat) (e : nat * nat * str) : list (nat * list (nat * nat * str)) :=
  match groups with
  | [] => [(idx, [e])]
  | (j, es) :: groups' =>
    if j =? idx then (j, es ++ [e]) :: groups'
    else (j, es) :: setdefault_append groups' idx e
  end.

Definition group_edits (attr_entries : list attr_entry) (cache : gmap str str)
    : list (nat * list (nat * nat * str)) :=
  fold_left
    (fun groups (entry : attr_entry) =>
       let '(idx, start, end_, raw_val, val) := entry in
       let tr := cache_get cache val in
       setdefault_append groups idx (start, end_, escape_attr_value tr))
    attr_entries [].

(** [edits.sort(key=lambda x: x\[0\], reverse=True)]: the sort is stable,
    also when reversed. *)
Fixpoint insert_desc (e : nat * nat * str) (sorted : list (nat * nat * str))
    : list (nat * nat * str) :=
  match sorted with
  | [] => [e]
  | x :: sorted' =>
    if e.1.1 <=? x.1.1 then x :: insert_desc e sorted' else e :: x :: sorted'
  end.

Definition sort_desc (edits : list (nat * nat * str)) : list (nat * nat * str) :=
  fold_left (fun sorted e => insert_desc e sorted) edits [].

Definition apply_edit (token : str) (e : nat * nat * str) : str :=
  let '(start, end_, rep) := e in take start token ++ rep ++ drop end_ token.

(** "Apply attribute replacements" *)
Fixpoint apply_attrs (groups : list (nat * list (nat * nat * str)))
    (parts : list str) (changed : bool) : option (list str * bool) :=
  match groups with
  | [] => Some (parts, changed)
  | (idx, edits) :: rest =>
    match parts !! idx with
    | None => None
    | Some token =>
      let new_token := fold_left apply_edit (sort_desc edits) token in
      if negb (str_eqb new_token token)
      then apply_attrs rest (<[idx := new_token]> parts) true
      else apply_attrs rest parts changed
    end
  end.

Context {World : Type}.

(** [process_file] from [parts = TAG_SPLIT_RE.split(original)] to the test
    [if changed], on the text [original] that [read_text] returned: the
    backend state, and then the cache, the text [parts] are joined to
    ([original] when nothing changed) and [changed], or [None] for an
    exception. *)
Definition process_text (original : str) (cache : gmap str str)
    (tr : translator World) (s : io World)
    : io World * option (gmap str str * str * bool) :=
  let parts := TAG_SPLIT_RE_split original in
  let '(_, text_entries, attr_entries) := scan_parts parts in
  if is_nil text_entries && is_nil attr_entries
  then (s, Some (cache, original, false))
  else
    let to_translate :=
      map (fun e : text_entry => e.1.2) text_entries
      ++ map (fun e : attr_entry => e.2) attr_entries in
    match translate_missing to_translate cache tr s with
    | (s', None) => (s', None)
    | (s', Some cache') =>
      match apply_text text_entries cache' parts false with
      | None => (s', None)
      | Some (parts1, changed1) =>
        match apply_attrs (group_edits attr_entries cache') parts1 changed1 with
        | None => (s', None)
        | Some (parts2, changed) =>
          (s', Some (cache', if changed then concat parts2 else original, changed))
        end
      end
    end.

Context `{Platform}.

(** [process_file] on a file whose content is [content]: the backend state,
    and then the cache, the content of the file and [changed] after the
    call, or [None] for an exception.  The file is written only when
    [changed]. *)
Definition process_file (content : str) (cache : gmap str str)
    (tr : translator World) (s : io World)
    : io World * option (gmap str str * str * bool) :=
  match process_text (read_text content) cache tr s with
  | (s', None) => (s', None)
  | (s', Some (cache', joined, changed)) =>
    if changed then
      match write_text joined with
      | Some written => (s', Some (cache', written, true))
      | None => (s', None)
      end
    else (s', Some (cache', content, false))
  end.

End WithTables.


End Learncpp.

(** * [translate_code_comments_pl.py] *)

Module CodeComments.

(** [URL_RE = (https?://|www\.)] with IGNORECASE, used with [search]. *)
Definition URL_RE_search (t : str) : bool :=
  (contains_ci (lit "http://") t || contains_ci (lit "https://") t
   || contains_ci (lit "www.") t)%bool.

Definition english_score (text : str) : nat * nat :=
  let words := WORD_RE_findall text in
  if is_nil words then (0, 0)
  else
    let lower_words := map ascii_lower words in
    let hits := length (filter (fun w => is_hint_word w = true) lower_words) in
    (hits, length words).

Section WithTables.
Context `{PyTables}.

(** [\b\[A-Za-z_\]\[A-Za-z0-9_\]*\s*\(], used with [search].  A match starts
    at a letter or underscore with a word boundary before it; the two stars
    then take every identifier character and every whitespace character (an
    opening parenthesis is neither, so giving characters back never helps),
    and [(] must follow.  [prev] tells whether the character before is a word
    character. *)
Definition is_ident_start (c : char) : bool :=
  (is_ascii_letter c || char_eqb c 95)%bool.
Definition is_ident_char (c : char) : bool :=
  (is_ascii_letter c || is_ascii_digit c || char_eqb c 95)%bool.

Fixpoint call_like_search (prev : bool) (s : str) : bool :=
  match s with
  | [] => false
  | c :: s' =>
    (xorb prev (isword c) && is_ident_start c
     && match drop_while isspace (drop_while is_ident_char s') with
        | d :: _ => char_eqb d 40
        | [] => false
        end)
    || call_like_search (isword c) s'
  end.

Definition is_mostly_code_like (text : str) : bool :=
  if contains (lit "::") text then true
  else if contains (lit "<") text || contains (lit ">") text
          || contains (lit "{") text || contains (lit "}") text then true
  else if contains (lit ";") text || contains (lit "->") text then true
  else if call_like_search false text then true
  else false.

(** [sum(ch.isalpha() for ch in t)] *)
Definition count_alpha (t : str) : nat := length (filter (fun c => isalpha c = true) t).

(** [letters / max(len(t), 1) > p / 20] for the thresholds 0.55 and 0.65
    ([p] is 11 or 13), decided on the integers.  The float quotient is the
    rounding of the exact one and rounding is monotone, so the comparisons
    agree as long as the exact quotient, when above the threshold, is above
    it by more than a rounding error: it is by at least [1 / (20 * len(t))],
    which is so for every text shorter than [2^48] characters. *)
Definition ratio_above (letters len p : nat) : bool :=
  p * Nat.max len 1 <? 20 * letters.

Definition looks_english (text : str) : bool :=
  let t := strip text in
  if is_nil t || PL_CHARS_RE_search t then false
  else
    let '(hits, total) := english_score t in
    if 2 <=? hits then true
    else if (6 <=? total) && (1 <=? hits) then true
    else
      let letters := count_alpha t in
      (8 <=? total) && (1 <=? hits) && ratio_above letters (length t) 11.

Definition should_translate_comment (core : str) : bool :=
  let t := strip core in
  if is_nil t then false
  else if (length t <? 3) || (500 <? length t) then false
  else if URL_RE_search t then false
  else if PL_CHARS_RE_search t then false
  else
    let words := WORD_RE_findall t in
    if is_nil words then false
    else
      let '(english_hits, _) := english_score t in
      let letters := count_alpha t in
      if is_mostly_code_like t && (english_hits =? 0) && (length words <=? 8)
      then false
      else if 1 <=? english_hits then true
      else if negb (is_mostly_code_like t) && (3 <=? length words)
              && ratio_above letters (length t) 13 then true
      else if (5 <=? length words) && ratio_above letters (length t) 11 then true
      else false.

(** [MOJIBAKE_RE], used with [search]: [U+00C3] or [U+00C2] followed by any
    character but a newline, or [U+00E2 U+20AC] (four of the alternatives
    start with it and one is it), or [U+00E2 U+201E U+00A2]. *)
Fixpoint MOJIBAKE_RE_search (t : str) : bool :=
  match t with
  | [] => false
  | c :: t' =>
    (match t' with
     | d :: _ => (char_eqb c 195 || char_eqb c 194) && negb (char_eqb d 10)
     | [] => false
     end)
    || startswith [226; 8364; 8482]%N t || startswith [226; 8364; 339]%N t
    || startswith [226; 8364]%N t || startswith [226; 8364; 8220]%N t
    || startswith [226; 8364; 8221]%N t || startswith [226; 8222; 162]%N t
    || MOJIBAKE_RE_search t'
  end.

Definition is_bad_translation (source translated : str) : bool :=
  let src := strip source in
  let tr := strip translated in
  if is_nil tr then true
  else if MOJIBAKE_RE_search tr then true
  else if str_eqb src tr && should_translate_comment src then true
  else if looks_english src && looks_english tr then true
  else false.

End WithTables.

(** As in the other driver, except that after a flush neither the marker nor
    [extra] is computed again: the first item of the new batch is charged the
    marker of the position it would have had in the flushed one. *)
Definition build_batches_step (max_len : nat)
    (st : list (list item) * list item * nat) (it : item)
    : list (list item) * list item * nat :=
  let '(batches, current, current_len) := st in
  let '(_, txt) := it in
  let extra := length (marker (length current)) + length txt in
  if negb (is_nil current) && (max_len <? current_len + extra) then
    (batches ++ [current], [it], length MEND + extra)
  else
    (batches, current ++ [it], current_len + extra).

Definition build_batches (items : list item) (max_len : nat) : list (list item) :=
  let '(batches, current, _) :=
    fold_left (build_batches_step max_len) items ([], [], length MEND) in
  if negb (is_nil current) then batches ++ [current] else batches.

Section WithTables.
Context `{PyTables}.

(** [re.sub(pattern, repl, t)] for a pattern that matches no empty string.
    [match_at prev rest] is the length of the match that starts where [rest]
    does, [prev] being the character before; matches are replaced left to
    right and the search goes on after each.  [skip] counts the characters of
    the current match still to pass over. *)
Fixpoint re_sub_go (match_at : option char -> str -> option nat) (repl : str)
    (prev : option char) (skip : nat) (s : str) : str :=
  match s with
  | [] => []
  | c :: s' =>
    match skip with
    | S k => re_sub_go match_at repl (Some c) k s'
    | 0 =>
      match match_at prev s with
      | Some (S len) => repl ++ re_sub_go match_at repl (Some c) len s'
      | _ => c :: re_sub_go match_at repl (Some c) 0 s'
      end
    end
  end.

Definition re_sub (match_at : option char -> str -> option nat) (repl t : str) : str :=
  re_sub_go match_at repl None 0 t.

(** [\s+kw\b] after an alternative of [len] characters: the plus takes the
    whole run of whitespace (a shorter one would leave whitespace where [kw]
    starts with a letter). *)
Definition after_alt (kw : str) (len : nat) (rest : str) : option nat :=
  let ws := take_while isspace rest in
  if is_nil ws then None
  else
    let rest' := drop (length ws) rest in
    if startswith_ci kw rest'
       && word_boundary (rest' !! (length kw - 1)) (rest' !! length kw)
    then Some (len + length ws + length kw)
    else None.

(** [(?:a|b)\s+kw\b]: the alternatives in order. *)
Fixpoint alt_match (alts : list str) (kw : str) (rest : str) : option nat :=
  match alts with
  | [] => None
  | a :: alts' =>
    if startswith_ci a rest then
      match after_alt kw (length a) (drop (length a) rest) with
      | Some n => Some n
      | None => alt_match alts' kw rest
      end
    else alt_match alts' kw rest
  end.

(** [\b(?:a|b)\s+kw\b] with IGNORECASE *)
Definition phrase_match (alts : list str) (kw : str)
    (prev : option char) (rest : str) : option nat :=
  if word_boundary prev (head rest) then alt_match alts kw rest else None.

(** [\bliteral\b] with IGNORECASE *)
Definition literal_match (p : str) (prev : option char) (rest : str) : option nat :=
  if word_boundary prev (head rest) && startswith_ci p rest
     && word_boundary (rest !! (length p - 1)) (rest !! length p)
  then Some (length p) else None.

(** [\s{2,}] *)
Definition spaces_match (prev : option char) (rest : str) : option nat :=
  let ws := take_while isspace rest in
  if 2 <=? length ws then Some (length ws) else None.

(** The words of the patterns; [U+015B], [U+017C] and [U+0105] are the
    Polish letters in them. *)
Definition stwierdzenie : str := lit "stwierdzenie".
Definition oswiadczenie : str := lit "o" ++ [347%N] ++ lit "wiadczenie".
Definition stwierdzenia : str := lit "stwierdzenia".
Definition oswiadczenia : str := lit "o" ++ [347%N] ++ lit "wiadczenia".
Definition nie_zyje : str := lit "nie " ++ [380%N] ++ lit "yje".
Definition nie_zyja : str := lit "nie " ++ [380%N] ++ lit "yj" ++ [261%N].
Definition sa_martwe : str := lit "s" ++ [261%N] ++ lit " martwe".

(** The body of [for kw in ("if", "else", "switch", "while", "for")] *)
Definition fix_keyword (t : str) (kw : str) : str :=
  let t := re_sub (phrase_match [stwierdzenie; oswiadczenie] kw)
                  (lit "instrukcja " ++ kw) t in
  re_sub (phrase_match [stwierdzenia; oswiadczenia] kw)
         (lit "instrukcje " ++ kw) t.

Definition postprocess_translation (text : str) : str :=
  let t := strip text in
  if is_nil t then t
  else
    let t := fold_left fix_keyword
               [lit "if"; lit "else"; lit "switch"; lit "while"; lit "for"] t in
    let t := re_sub (literal_match nie_zyje) (lit "jest martwy") t in
    let t := re_sub (literal_match nie_zyja) sa_martwe t in
    let t := re_sub spaces_match (lit " ") t in
    strip t.

Context {World : Type}.

(** The loop [for translator in (translator_en, translator_auto)] of
    [translate_one], with the current value of [last]. *)
Fixpoint translate_one_loop (trs : list (translator World)) (text last : str)
    (s : io World) : io World * str :=
  match trs with
  | [] => (s, postprocess_translation last)
  | tr :: trs' =>
    match single_attempts 4 tr text s with
    | (s', Some reply) =>
      let cand := postprocess_translation reply in
      if negb (is_bad_translation text cand) then (s', cand)
      else translate_one_loop trs' text cand s'
    | (s', None) => translate_one_loop trs' text last s'
    end
  end.

Definition translate_one (text : str) (translator_en translator_auto : translator World)
    (s : io World) : io World * str :=
  translate_one_loop [translator_en; translator_auto] text text s.

(** [\[translate_one(t, translator_en, translator_auto) for t in vals\]] *)
Fixpoint translate_each (translator_en translator_auto : translator World)
    (vals : list str) (s : io World) : io World * list str :=
  match vals with
  | [] => (s, [])
  | t :: vals' =>
    let '(s1, x) := translate_one t translator_en translator_auto s in
    let '(s2, xs) := translate_each translator_en translator_auto vals' s1 in
    (s2, x :: xs)
  end.

(** The [for src, tr in zip(vals, translated_vals)] loop that builds
    [fixed_vals]. *)
Fixpoint fix_vals (translator_en translator_auto : translator World)
    (pairs : list (str * str)) (s : io World) : io World * list str :=
  match pairs with
  | [] => (s, [])
  | (src, tr) :: pairs' =>
    let tr := postprocess_translation tr in
    let '(s1, tr) :=
      if is_bad_translation src tr
      then translate_one src translator_en translator_auto s
      else (s, tr) in
    let '(s2, xs) := fix_vals translator_en translator_auto pairs' s1 in
    (s2, tr :: xs)
  end.

(** The [for batch in batches] loop. *)
Fixpoint translate_batches (translator_auto translator_en : translator World)
    (texts : list str) (batches : list (list item)) (cache : gmap str str)
    (s : io World) : io World * option (gmap str str) :=
  match batches with
  | [] => (s, Some cache)
  | batch :: batches' =>
    let idxs := map fst batch in
    let vals := map snd batch in
    let '(s1, translated_vals) := group_attempts 5 translator_auto vals s in
    let '(s2, translated_vals) :=
      match translated_vals with
      | None => translate_each translator_en translator_auto vals s1
      | Some out => fix_vals translator_en translator_auto (zip vals out) s1
      end in
    match store texts (zip idxs translated_vals) cache with
    | None => (s2, None)
    | Some cache' =>
      translate_batches translator_auto translator_en texts batches' cache' s2
    end
  end.

(** The cache after the call, or [None] for an exception. *)
Definition translate_missing (texts : list str) (cache : gmap str str)
    (translator_auto translator_en : translator World) (s : io World)
    : io World * option (gmap str str) :=
  let missing := missing_items texts cache in
  if is_nil missing then (s, Some cache)
  else translate_batches translator_auto translator_en texts
         (build_batches missing MAX_LEN) cache s.

End WithTables.


Section Rewriter.
Context `{PyTables}.

(** [cache.get(key, key)] *)
Definition cache_get (cache : gmap str str) (key : str) : str :=
  match cache !! key with Some v => v | None => key end.

(** [translate_body], local to [translate_comment_content] *)
Definition translate_body (cache : gmap str str) (body : str) : str :=
  let '(lead, core, trail) := split_ws body in
  if negb (should_translate_comment core) then body
  else lead ++ cache_get cache core ++ trail.

(** The characters at which [str.splitlines] ends a line, besides the pair
    [\r\n]. *)
Definition is_linebreak (c : char) : bool :=
  (in_range 10 13 c || in_range 28 30 c || char_eqb c 133
   || char_eqb c 8232 || char_eqb c 8233)%bool.

(** [s.splitlines(keepends=True)]; [cur] is the line being read, last
    character first. *)
Fixpoint splitlines_keepends (s : str) (cur : str) : list str :=
  match s with
  | [] => if is_nil cur then [] else [rev cur]
  | c :: s' =>
    if char_eqb c 13 then
      match s' with
      | d :: s'' =>
        if char_eqb d 10
        then rev (d :: c :: cur) :: splitlines_keepends s'' []
        else rev (c :: cur) :: splitlines_keepends s' []
      | [] => [rev (c :: cur)]
      end
    else if is_linebreak c then rev (c :: cur) :: splitlines_keepends s' []
    else splitlines_keepends s' (c :: cur)
  end.

(** The split of a line into [raw] and [end]. *)
Definition split_line_end (line : str) : str * str :=
  if endswith [13; 10]%N line then (take (length line - 2) line, [13; 10]%N)
  else if endswith [10%N] line then (take (length line - 1) line, [10%N])
  else if endswith [13%N] line then (take (length line - 1) line, [13%N])
  else (line, []).

(** [BLOCK_DECOR_RE], used with [match] on a line without its line end, which
    has no newline in it: group 1 is [\s*\*+\s?] and group 2 is the rest of
    the line, any characters up to [$].  After the leading whitespace a star
    is needed; the rest always matches. *)
Definition BLOCK_DECOR_RE_match (raw : str) : option (str * str) :=
  let ws := take_while isspace raw in
  let r1 := drop (length ws) raw in
  let stars := take_while (fun c => char_eqb c 42) r1 in
  if is_nil stars then None
  else
    match drop (length stars) r1 with
    | c :: r3 =>
      if isspace c then Some (ws ++ stars ++ [c], r3)
      else Some (ws ++ stars, c :: r3)
    | [] => Some (ws ++ stars, [])
    end.

Definition translate_line (cache : gmap str str) (line : str) : str :=
  let '(raw, end_) := split_line_end line in
  match BLOCK_DECOR_RE_match raw with
  | Some (prefix, body) => prefix ++ translate_body cache body ++ end_
  | None => translate_body cache raw ++ end_
  end.

Definition translate_comment_content (content : str) (kind : span_kind)
    (cache : gmap str str) : str :=
  match kind with
  | block =>
    if contains [10%N] content || contains [13%N] content
    then concat (map (translate_line cache) (splitlines_keepends content []))
    else translate_body cache content
  | line => translate_body cache content
  end.

(** One iteration of [for start, end, kind in reversed(spans)]; the state is
    [(updated, changed)]. *)
Definition rewrite_span (cache : gmap str str) (st : str * bool) (sp : span)
    : str * bool :=
  let '(updated, changed) := st in
  let '(start, end_, kind) := sp in
  let old := slice start end_ updated in
  let new := translate_comment_content old kind cache in
  if negb (str_eqb new old)
  then (take start updated ++ new ++ drop end_ updated, true)
  else (updated, changed).

Definition rewrite_code_comments (code : str) (cache : gmap str str) : str * bool :=
  let spans := find_comment_spans code in
  if is_nil spans then (code, false)
  else fold_left (rewrite_span cache) (rev spans) (code, false).

(** The first index at which the literal [p] matches [s] under IGNORECASE. *)
Fixpoint find_ci (p s : str) (i : nat) : option nat :=
  if startswith_ci p s then Some i
  else match s with
       | [] => None
       | _ :: s' => find_ci p s' (S i)
       end.

(** [CODE_RE = (<code\b\[^>\]*>)(.*?)(</code>)] with IGNORECASE and DOTALL,
    tried where [rest] starts: groups 1, 2 and 3.  The class takes every
    character up to the next [>], which must exist; the lazy group ends at
    the first [</code>]. *)
Definition CODE_RE_match_at (rest : str) : option (str * str * str) :=
  if negb (startswith_ci (lit "<code") rest) then None
  else
    let r1 := drop 5 rest in
    if negb (word_boundary (rest !! 4) (head r1)) then None
    else
      let attrs := take_while (fun c => negb (char_eqb c 62)) r1 in
      match drop (length attrs) r1 with
      | [] => None
      | gt :: r2 =>
        match find_ci (lit "</code>") r2 0 with
        | None => None
        | Some n =>
          Some (take (5 + length attrs + 1) rest, take n r2, take 7 (drop n r2))
        end
      end.

(** [CODE_RE.finditer(text)]: for each match [m.start()], [m.end()] and the
    three groups. *)
Fixpoint CODE_RE_finditer_go (pos : nat) (skip : nat) (s : str)
    : list (nat * nat * str * str * str) :=
  match s with
  | [] => []
  | c :: s' =>
    match skip with
    | S k => CODE_RE_finditer_go (S pos) k s'
    | 0 =>
      match CODE_RE_match_at s with
      | Some (g1, g2, g3) =>
        let len := length g1 + length g2 + length g3 in
        (pos, pos + len, g1, g2, g3) :: CODE_RE_finditer_go (S pos) (len - 1) s'
      | None => CODE_RE_finditer_go (S pos) 0 s'
      end
    end
  end.

Definition CODE_RE_finditer (text : str) : list (nat * nat * str * str * str) :=
  CODE_RE_finditer_go 0 0 text.

(** One iteration of [for match in CODE_RE.finditer(text)]; the state is
    [(out, last, changed)]. *)
Definition process_match (text : str) (cache : gmap str str)
    (st : list str * nat * bool) (m : nat * nat * str * str * str)
    : list str * nat * bool :=
  let '(out, last, changed) := st in
  let '(mstart, mend, prefix, code_escaped, suffix) := m in
  let out := out ++ [slice last mstart text] in
  let code_decoded := html_unescape code_escaped in
  let '(code_new, code_changed) := rewrite_code_comments code_decoded cache in
  let changed := changed || code_changed in
  let code_escaped :=
    if code_changed then html_escape code_new false else code_escaped in
  (out ++ [prefix ++ code_escaped ++ suffix], mend, changed).

(** [process_file] from [changed = False] to the test [if changed], on the
    text [text] that [read_text] returned: the text [out] is joined to
    ([text] when nothing changed) and [changed]. *)
Definition process_text (text : str) (cache : gmap str str) : str * bool :=
  let '(out, last, changed) :=
    fold_left (process_match text cache) (CODE_RE_finditer text) ([], 0, false) in
  let out := out ++ [drop last text] in
  (if changed then concat out else text, changed).

(** [process_file] on a file whose content is [content]: the content of the
    file after the call and [changed], or [None] for an exception.  The file
    is written only when [changed]. *)
Definition process_file `{Platform} (content : str) (cache : gmap str str)
    : option (str * bool) :=
  let '(joined, changed) := process_text (read_text content) cache in
  if changed then
    match write_text joined with
    | Some written => Some (written, true)
    | None => None
    end
  else Some (content, false).

(** [s.splitlines()]: the lines without their line ends; [cur] is the line
    being read, last character first. *)
Fixpoint splitlines (s : str) (cur : str) : list str :=
  match s with
  | [] => if is_nil cur then [] else [rev cur]
  | c :: s' =>
    if char_eqb c 13 then
      match s' with
      | d :: s'' =>
        if char_eqb d 10
        then rev cur :: splitlines s'' []
        else rev cur :: splitlines s' []
      | [] => [rev cur]
      end
    else if is_linebreak c then rev cur :: splitlines s' []
    else splitlines s' (c :: cur)
  end.

(** The test and the [missing_set.add(core)] that [collect_comment_units]
    makes for one body; the set after it. *)
Definition collect_body (cache : gmap str str) (missing_set : gset str)
    (body : str) : gset str :=
  let '(_, core, _) := split_ws body in
  if should_translate_comment core && bool_decide (cache !! core = None)
  then missing_set ∪ {[ core ]}
  else missing_set.

(** The body of [for line in content.splitlines()] *)
Definition collect_line (cache : gmap str str) (missing_set : gset str)
    (line : str) : gset str :=
  let body :=
    match BLOCK_DECOR_RE_match line with
    | Some (_, body) => body
    | None => line
    end in
  collect_body cache missing_set body.

(** One iteration of [for start, end, kind in find_comment_spans(code)] *)
Definition collect_span (code : str) (cache : gmap str str)
    (missing_set : gset str) (sp : span) : gset str :=
  let '(start, end_, kind) := sp in
  let content := slice start end_ code in
  match kind with
  | block =>
    if contains [10%N] content || contains [13%N] content
    then fold_left (collect_line cache) (splitlines content []) missing_set
    else collect_body cache missing_set content
  | line => collect_body cache missing_set content
  end.

(** [collect_comment_units]: the set [missing_set] after the call. *)
Definition collect_comment_units (code : str) (missing_set : gset str)
    (cache : gmap str str) : gset str :=
  fold_left (collect_span code cache) (find_comment_spans code) missing_set.

(** The loop of [collect_missing_from_file] on the text [text] that
    [read_text] returned: the set [missing_set] after it. *)
Definition collect_missing_from_text (text : str) (cache : gmap str str)
    (missing_set : gset str) : gset str :=
  fold_left
    (fun missing_set (m : nat * nat * str * str * str) =>
       let '(_, _, _, code_escaped, _) := m in
       collect_comment_units (html_unescape code_escaped) missing_set cache)
    (CODE_RE_finditer text) missing_set.

(** [collect_missing_from_file] on a file whose content is [content]: the
    set [missing_set] after the call. *)
Definition collect_missing_from_file (content : str) (cache : gmap str str)
    (missing_set : gset str) : gset str :=
  collect_missing_from_text (read_text content) cache missing_set.


End Rewriter.


End CodeComments.

(** * Specification

    The predicates, invariants and sample inputs that the properties below
    are stated with. *)

(** What a finished batch satisfies: it is not empty, and it is within the
    budget unless it holds a single fragment. *)
Definition batch_ok (max_len : nat) (b : list item) : Prop :=
  b <> [] /\ (1 < length b -> encoded_length b <= max_len).

(** The loop invariant: the finished batches are fine, [current_len] is at
    least the encoded length of [current], and it is within the budget as
    soon as [current] holds two fragments. *)
Definition batches_inv (max_len : nat)
    (st : list (list item) * list item * nat) : Prop :=
  let '(batches, current, current_len) := st in
  Forall (batch_ok max_len) batches
  /\ encoded_length current <= current_len
  /\ (1 < length current -> current_len <= max_len).

(** The items handled so far, in order. *)
Definition batches_flat (st : list (list item) * list item * nat) : list item :=
  let '(batches, current, _) := st in concat batches ++ current.

(** A fragment of 3783 characters: with its marker and the end marker it
    makes a payload of 3801. *)
Definition oversized_fragment : list N := repeat 97%N 3783.

(** [sub] occurs nowhere in [a ++ b] at an offset inside [a]. *)
Definition absent (sub a b : list N) : Prop :=
  forall k, k < length a -> startswith sub (drop k a ++ b) = false.

(** The four characters every marker starts with. *)
Definition OPENER : list N := lit "<<<M".

(** What the proofs below use of a Polish letter, checked on the eighteen. *)
Definition pl_char_facts (a : N) : bool :=
  (negb (isspace a) && negb (ci_eqb 104 a) && negb (ci_eqb 109 a)
   && negb (ci_eqb 116 a) && negb (ci_eqb 119 a) && negb (char_eqb 123 a)
   && in_range 192 382 a)%bool.

(** What a span records: the opening delimiter sits just before [start]; a
    line comment runs up to the end of its line, a block comment up to the
    first closing delimiter from [start] on, which sits at [end], or to the
    end of the code when there is none. *)
Definition span_ok (code : list N) (sp : nat * nat * span_kind) : Prop :=
  let '(s, e, k) := sp in
  2 <= s /\ s <= e /\ e <= length code /\
  match k with
  | line =>
    slice (s - 2) s code = lit "//"
    /\ forallb (fun c => negb (is_newline c)) (slice s e code) = true
    /\ (e = length code \/ exists c, code !! e = Some c /\ is_newline c = true)
  | block =>
    slice (s - 2) s code = lit "/*"
    /\ (find (lit "*/") code s = Some e
        \/ (find (lit "*/") code s = None /\ e = length code))
  end.

(** The loop as a relation: [scan_run code i st spans r] when the loop, at
    index [i] in state [st] with [spans] collected, ends with [r]. *)
Inductive scan_run (code : list N) :
    nat -> scan_state -> list (nat * nat * span_kind)
    -> list (nat * nat * span_kind) -> Prop :=
| scan_run_done i st spans :
    length code <= i -> scan_run code i st spans spans
| scan_run_step i st spans i' st' sp r :
    i < length code ->
    scan_step code i st = (i', st', sp) ->
    scan_run code i' st' (spans ++ option_list sp) r ->
    scan_run code i st spans r.

(** The configurations [(i, state)] the loop goes through on [code]. *)
Inductive reach (code : list N) : nat -> scan_state -> Prop :=
| reach_init : reach code 0 normal
| reach_step i st i' st' sp :
    reach code i st -> i < length code ->
    scan_step code i st = (i', st', sp) ->
    reach code i' st'.

(** Spans in the order they were appended: each ends before the next one's
    opening delimiter. *)
Definition separated (spans : list (nat * nat * span_kind)) : Prop :=
  forall a b x y, a < b -> spans !! a = Some x -> spans !! b = Some y ->
    span_end x + 2 <= span_start y.

(** The invariant of the loop at index [i]. *)
Definition scan_inv (code : list N) (i : nat)
    (spans : list (nat * nat * span_kind)) : Prop :=
  Forall (span_ok code) spans
  /\ Forall (fun x => span_end x <= i) spans
  /\ separated spans.

(** The inside of a literal quoted by [q]: characters other than [q] and the
    backslash, and pairs of a backslash and any character. *)
Inductive lit_body (q : N) : list N -> Prop :=
| lit_body_nil : lit_body q []
| lit_body_plain c body :
    c <> q -> c <> 92%N -> lit_body q body -> lit_body q (c :: body)
| lit_body_escape c body :
    lit_body q body -> lit_body q (92%N :: c :: body).

(** The state the scanner is in inside a literal quoted by [q]. *)
Definition quote_state (q : N) : scan_state :=
  if char_eqb q 34 then dquote else squote.

(** A statement with [//] inside a string literal, and a comment after. *)
Definition literal_example : list N :=
  lit "s = " ++ [34%N] ++ lit "a//b" ++ [34%N] ++ lit "; // c".

(** A literal after a character literal that holds a slash. *)
Definition second_literal_example : list N :=
  lit "c = '/'; s = " ++ [34%N] ++ lit "a/*b" ++ [34%N] ++ lit "; /* c */".

(** The requests made between two logs, all for allowed fragments. *)
Definition asks_only (allowed : list N -> Prop) (before after : list request) : Prop :=
  exists new, after = before ++ new
    /\ Forall (fun r => Forall allowed (request_fragments r)) new.

(** What the fragments of a batch satisfy: each is the text at its index, and
    is not a key of the cache [translate_missing] was called with. *)
Definition batch_missing (texts : list (list N)) (cache0 : gmap (list N) (list N))
    (batch : list (nat * list N)) : Prop :=
  Forall (fun it => texts !! it.1 = Some it.2 /\ cache0 !! it.2 = None) batch.

(** What a run of [translate_missing] on [texts] does to the cache and the
    backend: it ends without an exception, asks the backend only for texts of
    the list that are not keys, keeps every entry, leaves every text a key,
    and run again on the resulting cache does nothing. *)
Definition respects_cache {World : Type} (texts : list (list N))
    (cache : gmap (list N) (list N)) (s : io World)
    (run : gmap (list N) (list N) -> io World
           -> io World * option (gmap (list N) (list N))) : Prop :=
  exists s' cache',
    run cache s = (s', Some cache')
    /\ asks_only (fun t => t ∈ texts /\ cache !! t = None) (calls s) (calls s')
    /\ (forall k v, cache !! k = Some v -> cache' !! k = Some v)
    /\ (forall t, t ∈ texts -> is_Some (cache' !! t))
    /\ (forall s2, run cache' s2 = (s2, Some cache')).

(** [skip_stack] after the first [k] tokens. *)
Definition stack_after `{PyTables} (parts : list (list N)) (k : nat) : list (list N) :=
  (Learncpp.scan_parts (take k parts)).1.1.

(** Where the attribute entries of a list of tokens come from: a tag token
    after which the stack is empty. *)
Definition attr_entries_from `{PyTables} (parts : list (list N)) (e : Learncpp.attr_entry) : Prop :=
  exists idx token, parts !! idx = Some token /\ idx mod 2 = 1
    /\ stack_after parts (S idx) = [] /\ e ∈ Learncpp.scan_attrs idx token.

(** The same for the text entries. *)
Definition text_entries_from `{PyTables} (parts : list (list N)) (e : Learncpp.text_entry) : Prop :=
  exists idx token, parts !! idx = Some token /\ idx mod 2 = 0
    /\ stack_after parts idx = [] /\ e ∈ Learncpp.scan_text idx token.

(** A tag that opens an opaque element and has a [title]. *)
Definition opaque_tag_example : list N :=
  lit "<pre title=" ++ [34%N] ++ lit "Hello" ++ [34%N] ++ lit ">".

(** The two values of [os.linesep]. *)
Definition posix : Platform := {| windows := false |}.
Definition nt : Platform := {| windows := true |}.

(** A backend that is down: every call raises. *)
Definition backend_down : translator unit := fun w _ => (w, None).

(** The backend before any request. *)
Definition no_calls : io unit := {| world := tt; calls := [] |}.

(** A page with a paragraph and a code block that has a line comment. *)
Definition hello_page : list N := lit "<p>Hello there</p><code>// return value</code>".

(** The Polish for "return the value". *)
Definition zwroc_wartosc : list N :=
  lit "zwr" ++ [243; 263]%N ++ lit " warto" ++ [347; 263]%N.

(** A cache whose translation has Polish letters in it. *)
Definition polish_cache : gmap (list N) (list N) :=
  {[ lit "return value" := zwroc_wartosc ]}.




(** The characters [html.escape] leaves none of: [<] and [>], and the two
    quotes as well when [quote] is true. *)
Definition is_markup (quote : bool) (c : N) : bool :=
  (char_eqb c 60 || char_eqb c 62
   || (quote && (char_eqb c 34 || char_eqb c 39)))%bool.

(** Consecutive batches are packed tightly: each batch after the first
    starts with a fragment that, added to the batch before, would have taken
    its payload over the budget. *)
Fixpoint tight (max_len : nat) (l : list (list (nat * list N))) : Prop :=
  match l with
  | b1 :: l' =>
    match l' with
    | b2 :: _ =>
      (exists it rest, b2 = it :: rest /\ max_len < encoded_length (b1 ++ [it]))
      /\ tight max_len l'
    | [] => True
    end
  | [] => True
  end.

(** The loop invariant of the greedy packing: [current_len] is the encoded
    length of [current], no batch was closed while [current] is empty, and
    the batches with [current] after them are packed tightly. *)
Definition greedy_inv (max_len : nat)
    (st : list (list (nat * list N)) * list (nat * list N) * nat) : Prop :=
  let '(batches, current, current_len) := st in
  current_len = encoded_length current
  /\ (current = [] -> batches = [])
  /\ tight max_len (batches ++ [current]).

(** A backend whose every call raises. *)
Definition always_raises {World : Type} (tr : translator World) : Prop :=
  forall w t, (tr w t).2 = None.

(** The cache [cache] with [f t] stored for every text [t] of [texts] that
    was no key of it. *)
Definition filled_with (f : list N -> list N) (texts : list (list N))
    (cache cache' : gmap (list N) (list N)) : Prop :=
  forall k, cache' !! k
    = match cache !! k with
      | Some v => Some v
      | None => if bool_decide (k ∈ texts) then Some (f k) else None
      end.

(** A backend that answers the payload of each of the batches with the
    payload of the translations, markers kept: [g] is the translation of a
    fragment. *)
Definition answers_batches {World : Type} (g : list N -> list N)
    (tr : translator World) (batches : list (list (nat * list N))) : Prop :=
  Forall (fun b => forall w,
            (tr w (build_payload (map snd b))).2
            = Some (build_payload (map g (map snd b)))) batches.

(** A backend that answers the payload of the one fragment ["return value"]
    with the payload of its translation, and raises on anything else. *)
Definition backend_one_phrase : translator unit :=
  fun w p =>
    if str_eqb p (build_payload [lit "return value"])
    then (w, Some (build_payload [zwroc_wartosc]))
    else (w, None).

(** Two whitespace characters in a row somewhere in [s]. *)
Fixpoint double_space (s : list N) : bool :=
  match s with
  | a :: s' =>
    match s' with
    | b :: _ => (isspace a && isspace b) || double_space s'
    | [] => false
    end
  | [] => false
  end.

(** A text as [postprocess_translation] leaves it: trimmed, and with no two
    whitespace characters in a row. *)
Definition tidy (v : list N) : Prop := strip v = v /\ double_space v = false.

(** The text [s] from [pos] on with the parts [(start, end, new)], given in
    order, each replaced by its [new]; what stands between them is kept. *)
Fixpoint splice (s : list N) (pos : nat) (edits : list (nat * nat * list N))
    : list N :=
  match edits with
  | [] => drop pos s
  | (start, end_, new) :: edits' =>
    slice pos start s ++ new ++ splice s end_ edits'
  end.

(** The replacement of one comment: its span in [code], and what
    [translate_comment_content] makes of the content. *)
Definition comment_edit `{PyTables} (code : list N) (cache : gmap (list N) (list N))
    (sp : nat * nat * span_kind) : nat * nat * list N :=
  (span_start sp, span_end sp,
   CodeComments.translate_comment_content
     (slice (span_start sp) (span_end sp) code) (span_kind_of sp) cache).

(** Whether the replacement of a comment differs from the comment. *)
Definition comment_differs `{PyTables} (code : list N)
    (cache : gmap (list N) (list N)) (sp : nat * nat * span_kind) : bool :=
  negb (str_eqb (comment_edit code cache sp).2
                (slice (span_start sp) (span_end sp) code)).

(** Spans that follow one another from [pos] on in a text of length [len]. *)
Fixpoint in_order (pos len : nat) (spans : list (nat * nat * span_kind)) : Prop :=
  match spans with
  | [] => pos <= len
  | sp :: spans' =>
    pos <= span_start sp /\ span_start sp <= span_end sp
    /\ in_order (span_end sp) len spans'
  end.

(** A cache that changes nothing: every key is its own translation. *)
Definition identity_cache (cache : gmap (list N) (list N)) : Prop :=
  forall k v, cache !! k = Some v -> v = k.

(** The body of a line of a block comment: group 2 of [BLOCK_DECOR_RE] when
    it matches, the line when it does not. *)
Definition body_of (raw : list N) : list N :=
  match CodeComments.BLOCK_DECOR_RE_match raw with
  | Some (_, body) => body
  | None => raw
  end.

(** What a line of [splitlines(keepends=True)] has to do with the same line
    of [splitlines()]: cut off its line end by the rewrite, it is that line,
    or that line and the one line-break character after it that the rewrite
    does not take for a line end. *)
Definition same_line (l lk : list N) : Prop :=
  (CodeComments.split_line_end lk).1 = l
  \/ exists c, (CodeComments.split_line_end lk).1 = l ++ [c]
       /\ CodeComments.is_linebreak c = true.

(** The token index of a text entry and of an attribute entry. *)
Definition text_entry_idx (e : Learncpp.text_entry) : nat := e.1.1.1.

(** What "Apply text replacements" puts in place of the token of a text
    entry. *)
Definition text_replacement (cache : gmap (list N) (list N))
    (e : Learncpp.text_entry) : list N :=
  e.1.1.2 ++ Learncpp.escape_html_text (Learncpp.cache_get cache e.1.2) ++ e.2.

(** Parts [(start, end)] of a text that follow one another: each starts
    after [lo] and after the end of the one before, and ends before [hi]. *)
Fixpoint parts_in_order (lo hi : nat) (l : list (nat * nat)) : Prop :=
  match l with
  | [] => True
  | (start, end_) :: l' =>
    lo < start /\ start <= end_ /\ end_ < hi /\ parts_in_order end_ hi l'
  end.

(** The edits that [process_file] makes in a tag token: for each attribute
    entry of the token, in order, the place of its value and the escaped
    translation. *)
Definition attr_edits `{PyTables} (cache : gmap (list N) (list N)) (idx : nat)
    (token : list N) : list (nat * nat * list N) :=
  map (fun e : Learncpp.attr_entry =>
         (e.1.1.1.2, e.1.1.2,
          Learncpp.escape_attr_value (Learncpp.cache_get cache e.2)))
      (Learncpp.scan_attrs idx token).



(** The replacement of the inside of one [<code>] element: the place of
    group 2 of the match, and the code that [process_file] writes there. *)
Definition code_edit `{PyTables} (cache : gmap (list N) (list N))
    (m : nat * nat * list N * list N * list N) : nat * nat * list N :=
  let '(mstart, mend, prefix, code_escaped, suffix) := m in
  let '(code_new, code_changed) :=
    CodeComments.rewrite_code_comments (html_unescape code_escaped) cache in
  (mstart + length prefix, mend - length suffix,
   if code_changed then html_escape code_new false else code_escaped).

(** Whether the comments of the code of a match change. *)
Definition code_differs `{PyTables} (cache : gmap (list N) (list N))
    (m : nat * nat * list N * list N * list N) : bool :=
  (CodeComments.rewrite_code_comments (html_unescape m.1.2) cache).2.

(** Matches of [CODE_RE] that follow one another in [text] from [pos] on,
    each with its three groups where it says. *)
Fixpoint code_matches_in_order (text : list N) (pos : nat)
    (ms : list (nat * nat * list N * list N * list N)) : Prop :=
  match ms with
  | [] => pos <= length text
  | (mstart, mend, g1, g2, g3) :: ms' =>
    pos <= mstart /\ mend <= length text
    /\ mend = mstart + length g1 + length g2 + length g3
    /\ slice mstart mend text = g1 ++ g2 ++ g3
    /\ code_matches_in_order text mend ms'
  end.

(** What a match of [ATTR_RE] in [token] records: the value stands in the
    token from [vstart] to [vend], between two quotes of the same kind that
    does not occur in it. *)
Definition value_in_quotes (token : list N) (m : list N * nat * nat * list N) : Prop :=
  let '(_, vstart, vend, value) := m in
  1 <= vstart /\ slice vstart vend token = value
  /\ exists q, (q = 34%N \/ q = 39%N)
       /\ token !! (vstart - 1) = Some q /\ token !! vend = Some q
       /\ forallb (fun c => negb (char_eqb c q)) value = true.

(** A raw string literal with [//] inside, and a comment after. *)
Definition raw_example : list N :=
  lit "R" ++ [34%N] ++ lit "x(//)x" ++ [34%N] ++ lit "; // c".

(** A number with a digit separator, then a string literal with an
    apostrophe and [//] in it. *)
Definition digit_separator_example : list N :=
  lit "n = 1'000; s = " ++ [34%N] ++ lit "don't // x" ++ [34%N] ++ lit ";".















(** * Properties *)

(** ** The text primitives *)

Lemma char_eqb_eq (a b : char) : char_eqb a b = true <-> a = b.
Proof. apply N.eqb_eq. Qed.

Lemma char_eqb_refl (a : char) : char_eqb a a = true.
Proof. apply N.eqb_refl. Qed.

Lemma take_drop_while (p : char -> bool) (s : str) :
  take_while p s ++ drop_while p s = s.
Proof. induction s as [|c s IH]; simpl; [done|]. destruct (p c); simpl; by rewrite ?IH. Qed.

Lemma take_while_all (p : char -> bool) (s : str) :
  forallb p (take_while p s) = true.
Proof. induction s as [|c s IH]; simpl; [done|]. destruct (p c) eqn:E; simpl; by rewrite ?E. Qed.

Lemma take_while_id (p : char -> bool) (s : str) :
  forallb p s = true -> take_while p s = s.
Proof.
  induction s as [|c s IH]; simpl; [done|].
  intros [-> Hs]%andb_true_iff. by rewrite IH.
Qed.

Lemma drop_while_head (p : char -> bool) (s : str) (c : char) (r : str) :
  drop_while p s = c :: r -> p c = false.
Proof.
  induction s as [|d s IH]; simpl; [done|].
  destruct (p d) eqn:E; [done|]. by intros [= <- _].
Qed.

Lemma drop_while_nil (p : char -> bool) (s : str) :
  drop_while p s = [] -> forallb p s = true.
Proof.
  induction s as [|d s IH]; simpl; [done|].
  destruct (p d) eqn:E; [done|]. discriminate.
Qed.

Lemma forallb_app_true (p : char -> bool) (a b : str) :
  forallb p (a ++ b) = true <-> forallb p a = true /\ forallb p b = true.
Proof. rewrite forallb_app. apply andb_true_iff. Qed.

(** *** What [\s*$] finds *)

Lemma at_dollar_has_nonspace (rest : str) :
  forallb isspace rest = false -> at_dollar rest = false.
Proof.
  destruct rest as [|c [|d r]]; simpl; try done.
  rewrite andb_true_r. intros Hc.
  destruct (char_eqb c 10) eqn:E; [|done].
  apply char_eqb_eq in E. subst c. discriminate Hc.
Qed.

Lemma drop_keeps_nonspace (k : nat) (rest : str) :
  k <= length (take_while isspace rest) ->
  forallb isspace rest = false ->
  forallb isspace (drop k rest) = false.
Proof.
  revert k. induction rest as [|c r IH]; intros k Hk Hr; [done|].
  destruct k as [|k]; [done|]. simpl in *.
  destruct (isspace c); simpl in *; [|lia].
  apply IH; [lia|done].
Qed.

Lemma trail_backtrack_none (rest : str) (k : nat) :
  k <= length (take_while isspace rest) ->
  forallb isspace rest = false ->
  trail_backtrack rest k = None.
Proof.
  intros Hk Hr. induction k as [|k IH]; simpl.
  - by rewrite at_dollar_has_nonspace.
  - rewrite at_dollar_has_nonspace by (by apply drop_keeps_nonspace).
    apply IH. lia.
Qed.

Lemma trail_match_at_blank (rest : str) :
  forallb isspace rest = true -> trail_match_at rest = Some rest.
Proof.
  intros Hr. unfold trail_match_at. rewrite take_while_id by done.
  assert (forall k, at_dollar (drop k rest) = true ->
            trail_backtrack rest k = Some (take k rest)) as Hk.
  { intros k Hk. destruct k; simpl in *; by rewrite Hk. }
  rewrite Hk; [by rewrite firstn_all | by rewrite drop_all].
Qed.

Lemma TRAIL_WS_RE_search_blank (text : str) :
  forallb isspace text = true -> TRAIL_WS_RE_search text = text.
Proof. intros H. destruct text; cbn [TRAIL_WS_RE_search]; by rewrite trail_match_at_blank. Qed.

Lemma TRAIL_WS_RE_search_cons (c : char) (text : str) :
  forallb isspace (c :: text) = false ->
  TRAIL_WS_RE_search (c :: text) = TRAIL_WS_RE_search text.
Proof.
  intros H. cbn [TRAIL_WS_RE_search]. unfold trail_match_at.
  by rewrite trail_backtrack_none.
Qed.

(** The search returns the whole run of whitespace that ends the text: what
    precedes it is empty or ends with a character that is not whitespace. *)
Lemma TRAIL_WS_RE_search_spec (text : str) :
  exists pre, text = pre ++ TRAIL_WS_RE_search text
    /\ forallb isspace (TRAIL_WS_RE_search text) = true
    /\ forall c, last pre = Some c -> isspace c = false.
Proof.
  induction text as [|c t (pre & Ht & Hws & Hlast)].
  - exists []. by rewrite TRAIL_WS_RE_search_blank.
  - destruct (forallb isspace (c :: t)) eqn:Hall.
    + exists []. by rewrite TRAIL_WS_RE_search_blank.
    + rewrite TRAIL_WS_RE_search_cons by done.
      exists (c :: pre). split; [by rewrite Ht at 1|]. split; [done|].
      intros d. destruct pre as [|e pre].
      * simpl. intros [= <-]. simpl in Ht. rewrite <- Ht in Hws.
        simpl in Hall. rewrite Hws, andb_true_r in Hall. done.
      * intros Hd. apply Hlast. by rewrite last_cons_cons in Hd.
Qed.

Lemma strip_blank (s : str) : forallb isspace s = true -> strip s = [].
Proof.
  intros H. unfold strip, rstrip, lstrip.
  assert (drop_while isspace s = []) as ->; [|done].
  induction s as [|c s IH]; simpl in *; [done|].
  apply andb_true_iff in H as [-> H]. auto.
Qed.

(** ** [split_ws] *)

Lemma slice_middle (a b c : str) :
  slice (length a) (length a + length b) (a ++ b ++ c) = b.
Proof.
  unfold slice. rewrite drop_app_length.
  replace (length a + length b - length a) with (length b) by lia.
  by rewrite take_app_length.
Qed.

Lemma last_nonspace_not_blank (pre : str) (c : char) :
  last pre = Some c -> isspace c = false -> forallb isspace pre = false.
Proof.
  intros Hl Hc. apply last_Some in Hl as [pre' ->].
  rewrite forallb_app. simpl. rewrite Hc. by rewrite andb_false_r.
Qed.

(** The three parts on a text with a character that is not whitespace: the
    text is [lead ++ core ++ trail] with [core] between two such characters. *)
Lemma split_ws_nonblank (text : str) :
  forallb isspace text = false ->
  exists a b mid,
    split_ws text = (take_while isspace text, mid, TRAIL_WS_RE_search text)
    /\ take_while isspace text ++ mid ++ TRAIL_WS_RE_search text = text
    /\ head mid = Some a /\ last mid = Some b
    /\ isspace a = false /\ isspace b = false.
Proof.
  intros Hnb.
  destruct (TRAIL_WS_RE_search_spec text) as (pre & Hpre & Hws & Hlast).
  set (lead := take_while isspace text). set (trail := TRAIL_WS_RE_search text) in *.
  pose proof (take_drop_while isspace text) as Hld. fold lead in Hld.
  pose proof (take_while_all isspace text) as Hlead. fold lead in Hlead.
  destruct (drop_while isspace text) as [|a rest] eqn:Hrest.
  { apply drop_while_nil in Hrest. congruence. }
  pose proof (drop_while_head _ _ _ _ Hrest) as Ha.
  destruct (last pre) as [b|] eqn:Hb; cycle 1.
  { apply last_None in Hb. subst pre. simpl in Hpre. congruence. }
  specialize (Hlast b eq_refl).
  (* [lead] is a strict prefix of [pre] *)
  assert (exists mid, pre = lead ++ mid /\ mid <> []) as (mid & -> & Hmid).
  { assert (lead ++ a :: rest = pre ++ trail) as Heq by congruence.
    apply app_eq_inv in Heq as [(k & Hk1 & Hk2)|(k & Hk1 & Hk2)].
    - rewrite Hk1 in Hlead. apply forallb_app_true in Hlead as [Hp _].
      apply last_nonspace_not_blank in Hb; [congruence|done].
    - destruct k as [|x k].
      + rewrite app_nil_r in Hk1. subst pre.
        apply last_nonspace_not_blank in Hb; [congruence|done].
      + exists (x :: k). split; [done|discriminate]. }
  exists a, b, mid.
  assert (mid ++ trail = a :: rest) as Hmr.
  { assert (lead ++ a :: rest = lead ++ mid ++ trail) as Heq
      by (rewrite app_assoc; congruence).
    by apply app_inv_head in Heq. }
  split; [|split; [by rewrite app_assoc|]].
  - unfold split_ws, LEAD_WS_RE_match. fold lead trail. f_equal. f_equal.
    assert ((if negb (length trail =? 0) then length text - length trail
             else length text) = length lead + length mid) as ->.
    { pose proof (f_equal length Hpre) as Hlen. rewrite !length_app in Hlen.
      destruct (length trail =? 0) eqn:E; simpl; [apply Nat.eqb_eq in E|]; lia. }
    transitivity (slice (length lead) (length lead + length mid)
                        (lead ++ mid ++ trail)).
    + f_equal. by rewrite app_assoc.
    + apply slice_middle.
  - repeat split; try done.
    + destruct mid as [|x mid]; [done|]. simpl in *. congruence.
    + rewrite last_app in Hb. destruct (last mid) eqn:E; [done|].
      apply last_None in E. done.
Qed.

(** On whitespace alone both expressions match the whole text, the slice
    bounds cross, and the core is empty. *)
Lemma split_ws_blank (text : str) :
  forallb isspace text = true -> split_ws text = (text, [], text).
Proof.
  intros Hb. unfold split_ws, LEAD_WS_RE_match.
  rewrite take_while_id, TRAIL_WS_RE_search_blank by done.
  f_equal. f_equal. unfold slice.
  destruct (length text =? 0) eqn:E; simpl.
  - apply Nat.eqb_eq in E. apply nil_length_inv in E. by subst.
  - rewrite Nat.sub_diag. by rewrite drop_all.
Qed.

(** C10 (as amended): on a text with a non-whitespace character [split_ws]
    gives [lead ++ core ++ trail = text], with [lead] and [trail] whitespace
    and [core] starting and ending with a non-whitespace character; on a text
    of whitespace alone [lead] and [trail] are each the whole text and [core]
    is empty, so the parts rebuild the text exactly when the text is empty. *)
Theorem split_ws_spec (text : str) :
  let '(lead, core, trail) := split_ws text in
  forallb isspace lead = true /\ forallb isspace trail = true /\
  if forallb isspace text
  then lead = text /\ trail = text /\ core = []
       /\ (lead ++ core ++ trail = text <-> text = [])
  else lead ++ core ++ trail = text
       /\ exists a b, head core = Some a /\ last core = Some b
                      /\ isspace a = false /\ isspace b = false.
Proof.
  destruct (forallb isspace text) eqn:Hb.
  - rewrite split_ws_blank by done. repeat split; try done.
    + rewrite app_nil_l. intros H.
      apply (f_equal length) in H. rewrite length_app in H.
      apply nil_length_inv. lia.
    + by intros ->.
  - destruct (split_ws_nonblank text Hb) as (a & b & mid & -> & Heq & Hh & Hl & Ha & Hb').
    split; [apply take_while_all|].
    split; [by destruct (TRAIL_WS_RE_search_spec text) as (? & ? & ? & ?)|].
    split; [done|]. by exists a, b.
Qed.

(** C10, the claim as stated fails on the empty text: it is whitespace-only
    (vacuously), yet its three parts, all empty, do rebuild it. *)
Lemma split_ws_empty_rebuilds :
  split_ws [] = ([], [], []) /\ forallb isspace [] = true
  /\ ([] : str) ++ [] ++ [] = [].
Proof. done. Qed.

Example split_ws_ex1 :
  split_ws (lit "  ab c ") = (lit "  ", lit "ab c", lit " ").
Proof. reflexivity. Qed.

Example split_ws_ex2 :
  split_ws (lit "  ") = (lit "  ", [], lit "  ").
Proof. reflexivity. Qed.

(** ** Markers and payloads *)

Lemma length_lit_open : length (lit "<<<M") = 4.
Proof. reflexivity. Qed.

Lemma uint_chars_nil (d : uint) : uint_chars d = [] -> d = Nil.
Proof. by destruct d. Qed.

Lemma str_of_nat_length (n : nat) : 1 <= length (str_of_nat n).
Proof.
  unfold str_of_nat. destruct (uint_chars (Nat.to_uint n)) eqn:E; simpl; [|lia].
  apply uint_chars_nil in E. pose proof (Unsigned.of_to n) as H.
  rewrite E in H. simpl in H. subst n. discriminate E.
Qed.

Lemma marker_length (i : nat) : length (marker i) = 7 + length (str_of_nat i).
Proof. unfold marker. rewrite !length_app. simpl. lia. Qed.

Lemma marker_length_ge (i : nat) : 8 <= length (marker i).
Proof. rewrite marker_length. pose proof (str_of_nat_length i). lia. Qed.

Lemma marker_0_length : length (marker 0) = 8.
Proof. reflexivity. Qed.

Lemma MEND_length : length MEND = 10.
Proof. reflexivity. Qed.

Lemma payload_from_snoc (i : nat) (texts : list str) (t : str) :
  payload_from i (texts ++ [t])
  = payload_from i texts ++ marker (i + length texts) ++ t.
Proof.
  revert i. induction texts as [|u texts IH]; intros i; cbn [payload_from app length].
  - by rewrite Nat.add_0_r, ?app_nil_r.
  - rewrite IH, <- !app_assoc.
    by replace (S i + length texts) with (i + S (length texts)) by lia.
Qed.

Lemma encoded_length_nil : encoded_length [] = 10.
Proof. reflexivity. Qed.

Lemma encoded_length_snoc (b : list item) (it : item) :
  encoded_length (b ++ [it])
  = encoded_length b + length (marker (length b)) + length it.2.
Proof.
  unfold encoded_length, build_payload.
  rewrite map_app. cbn [map]. rewrite payload_from_snoc.
  cbn [Nat.add]. rewrite length_map.
  rewrite !(length_app _ MEND), (length_app (payload_from _ _)),
    (length_app (marker _) it.2). lia.
Qed.

Lemma encoded_length_single (it : item) :
  encoded_length [it] = 18 + length it.2.
Proof.
  change [it] with ([] ++ [it]). rewrite encoded_length_snoc.
  rewrite encoded_length_nil. cbn [length]. rewrite marker_0_length. lia.
Qed.

(** ** [build_batches] *)

Ltac solve_flat :=
  simpl; rewrite ?concat_app; simpl; rewrite ?app_nil_r, <- ?app_assoc; done.

Lemma is_nil_false {A} (l : list A) : is_nil l = false <-> l <> [].
Proof. by destruct l. Qed.

Lemma batches_inv_init (max_len : nat) : batches_inv max_len ([], [], length MEND).
Proof. split; [constructor|]. split; [by rewrite encoded_length_nil|]. simpl. lia. Qed.

Lemma batches_finish (max_len : nat) (items : list item)
    (st : list (list item) * list item * nat) :
  batches_inv max_len st -> batches_flat st = items ->
  let '(batches, current, _) := st in
  let out := if negb (is_nil current) then batches ++ [current] else batches in
  concat out = items /\ Forall (batch_ok max_len) out.
Proof.
  destruct st as [[batches current] current_len]. intros (Hb & Hlen & Hmax) Hflat.
  simpl in Hflat. destruct current as [|it current]; simpl.
  - by rewrite app_nil_r in Hflat.
  - split.
    + by rewrite concat_app; simpl; rewrite app_nil_r.
    + apply Forall_app. split; [done|]. constructor; [|done].
      split; [done|]. intros H. specialize (Hmax H). lia.
Qed.

Lemma learncpp_step_inv (max_len : nat)
    (st : list (list item) * list item * nat) (it : item) :
  batches_inv max_len st ->
  batches_inv max_len (Learncpp.build_batches_step max_len st it)
  /\ batches_flat (Learncpp.build_batches_step max_len st it)
     = batches_flat st ++ [it].
Proof.
  destruct st as [[batches current] current_len], it as [idx txt].
  intros (Hb & Hlen & Hmax). unfold Learncpp.build_batches_step.
  destruct (is_nil current) eqn:Hnil; cbn [negb andb].
  - destruct current; [|done]. split; [|solve_flat].
    split; [done|]. split; [|simpl; lia].
    rewrite encoded_length_snoc. cbn [length snd]. lia.
  - apply is_nil_false in Hnil.
    destruct (max_len <? _) eqn:Hover.
    + split; [|solve_flat].
      split.
      { apply Forall_app. split; [done|]. constructor; [|done].
        split; [done|]. intros H. specialize (Hmax H). lia. }
      split; [|simpl; lia].
      rewrite encoded_length_single, MEND_length, marker_0_length. cbn [snd]. lia.
    + apply Nat.ltb_ge in Hover.
      split; [|solve_flat].
      split; [done|]. split; [|lia].
      rewrite encoded_length_snoc. cbn [length snd]. lia.
Qed.

Lemma code_comments_step_inv (max_len : nat)
    (st : list (list item) * list item * nat) (it : item) :
  batches_inv max_len st ->
  batches_inv max_len (CodeComments.build_batches_step max_len st it)
  /\ batches_flat (CodeComments.build_batches_step max_len st it)
     = batches_flat st ++ [it].
Proof.
  destruct st as [[batches current] current_len], it as [idx txt].
  intros (Hb & Hlen & Hmax). unfold CodeComments.build_batches_step.
  destruct (is_nil current) eqn:Hnil; cbn [negb andb].
  - destruct current; [|done]. split; [|solve_flat].
    split; [done|]. split; [|simpl; lia].
    rewrite encoded_length_snoc. cbn [length snd]. lia.
  - apply is_nil_false in Hnil.
    destruct (max_len <? _) eqn:Hover.
    + split; [|solve_flat].
      split.
      { apply Forall_app. split; [done|]. constructor; [|done].
        split; [done|]. intros H. specialize (Hmax H). lia. }
      split; [|simpl; lia].
      rewrite encoded_length_single, MEND_length.
      pose proof (marker_length_ge (length current)). cbn [snd]. lia.
    + apply Nat.ltb_ge in Hover.
      split; [|solve_flat].
      split; [done|]. split; [|lia].
      rewrite encoded_length_snoc. cbn [length snd]. lia.
Qed.

Lemma fold_step_inv (max_len : nat)
    (step : list (list item) * list item * nat -> item
            -> list (list item) * list item * nat)
    (Hstep : forall st it, batches_inv max_len st ->
       batches_inv max_len (step st it)
       /\ batches_flat (step st it) = batches_flat st ++ [it])
    (items : list item) (st : list (list item) * list item * nat) :
  batches_inv max_len st ->
  batches_inv max_len (fold_left step items st)
  /\ batches_flat (fold_left step items st) = batches_flat st ++ items.
Proof.
  revert st. induction items as [|it items IH]; intros st Hst; simpl.
  - by rewrite app_nil_r.
  - destruct (Hstep st it Hst) as [Hinv Hflat].
    destruct (IH _ Hinv) as [Hinv' Hflat'].
    split; [done|]. rewrite Hflat', Hflat. by rewrite <- app_assoc.
Qed.

Lemma learncpp_build_batches_ok (items : list item) (max_len : nat) :
  concat (Learncpp.build_batches items max_len) = items
  /\ Forall (batch_ok max_len) (Learncpp.build_batches items max_len).
Proof.
  unfold Learncpp.build_batches.
  destruct (fold_step_inv max_len _ (learncpp_step_inv max_len) items _
              (batches_inv_init max_len)) as [Hinv Hflat].
  pose proof (batches_finish max_len items _ Hinv Hflat) as H.
  by destruct (fold_left _ _ _) as [[batches current] current_len].
Qed.

Lemma code_comments_build_batches_ok (items : list item) (max_len : nat) :
  concat (CodeComments.build_batches items max_len) = items
  /\ Forall (batch_ok max_len) (CodeComments.build_batches items max_len).
Proof.
  unfold CodeComments.build_batches.
  destruct (fold_step_inv max_len _ (code_comments_step_inv max_len) items _
              (batches_inv_init max_len)) as [Hinv Hflat].
  pose proof (batches_finish max_len items _ Hinv Hflat) as H.
  by destruct (fold_left _ _ _) as [[batches current] current_len].
Qed.

Lemma batches_fit (max_len : nat) (items : list item) (batches : list (list item)) :
  concat batches = items -> Forall (batch_ok max_len) batches ->
  Forall (fun it => encoded_length [it] <= max_len) items ->
  Forall (fun b => encoded_length b <= max_len) batches.
Proof.
  intros <- Hok Hfit. rewrite Forall_concat in Hfit.
  induction Hok as [|b bs [Hne Hb] Hok IH]; [constructor|].
  apply Forall_cons in Hfit as [Hfb Hfit].
  constructor; [|by apply IH].
  destruct b as [|it [|it' b]]; [done| |apply Hb; simpl; lia].
  by apply Forall_cons in Hfb as [? _].
Qed.

(** C9 (as amended): in both drivers [build_batches] cuts the list of
    [(index, fragment)] pairs into non-empty batches whose concatenation is the
    list itself (the order is kept and no fragment is split), and every batch
    of two or more fragments has an encoded length of at most 3800.  A batch
    of one fragment is not checked against the budget; so all batches are
    within it when every fragment, sent alone, is. *)
Theorem build_batches_spec (items : list item) :
  (concat (Learncpp.build_batches items MAX_LEN) = items
   /\ Forall (fun b => b <> [] /\ (1 < length b -> encoded_length b <= MAX_LEN))
             (Learncpp.build_batches items MAX_LEN)
   /\ (Forall (fun it => encoded_length [it] <= MAX_LEN) items ->
       Forall (fun b => encoded_length b <= MAX_LEN)
              (Learncpp.build_batches items MAX_LEN)))
  /\
  (concat (CodeComments.build_batches items MAX_LEN) = items
   /\ Forall (fun b => b <> [] /\ (1 < length b -> encoded_length b <= MAX_LEN))
             (CodeComments.build_batches items MAX_LEN)
   /\ (Forall (fun it => encoded_length [it] <= MAX_LEN) items ->
       Forall (fun b => encoded_length b <= MAX_LEN)
              (CodeComments.build_batches items MAX_LEN))).
Proof.
  destruct (learncpp_build_batches_ok items MAX_LEN) as [Hc Hok].
  destruct (code_comments_build_batches_ok items MAX_LEN) as [Hc' Hok'].
  split; (split; [done|]; split; [done|]); by eapply batches_fit.
Qed.

(** C9, the claim as stated fails: a fragment of 3783 characters makes a batch
    of its own whose payload has 3801 characters. *)
Lemma build_batches_over_budget :
  Learncpp.build_batches [(0, oversized_fragment)] MAX_LEN
    = [[(0, oversized_fragment)]]
  /\ CodeComments.build_batches [(0, oversized_fragment)] MAX_LEN
    = [[(0, oversized_fragment)]]
  /\ encoded_length [(0, oversized_fragment)] = 3801
  /\ MAX_LEN = 3800.
Proof. vm_compute. done. Qed.

Lemma build_batches_spec_witness :
  Forall (fun b => encoded_length b <= MAX_LEN)
         (Learncpp.build_batches [(0, lit "ab"); (1, lit "c")] MAX_LEN)
  /\ Forall (fun b => encoded_length b <= MAX_LEN)
         (CodeComments.build_batches [(0, lit "ab"); (1, lit "c")] MAX_LEN).
Proof.
  assert (Forall (fun it : item => encoded_length [it] <= MAX_LEN)
                 [(0, lit "ab"); (1, lit "c")]) as Hfit.
  { repeat constructor; vm_compute; lia. }
  split.
  - exact (proj2 (proj2 (proj1 (build_batches_spec [(0, lit "ab"); (1, lit "c")]))) Hfit).
  - exact (proj2 (proj2 (proj2 (build_batches_spec [(0, lit "ab"); (1, lit "c")]))) Hfit).
Defined.

Example build_batches_ex :
  Learncpp.build_batches [(0, lit "ab"); (3, lit "c")] 28
  = [[(0, lit "ab")]; [(3, lit "c")]].
Proof. reflexivity. Qed.

(** ** Searching: [startswith] and [find] *)

Lemma startswith_app (p r : list N) : startswith p (p ++ r) = true.
Proof. induction p as [|c p IH]; simpl; [done|]. by rewrite char_eqb_refl. Qed.

Lemma startswith_refl (p : list N) : startswith p p = true.
Proof. induction p as [|c p IH]; simpl; [done|]. by rewrite char_eqb_refl. Qed.

Lemma startswith_inv (p s : list N) :
  startswith p s = true -> exists r, s = p ++ r.
Proof.
  revert s. induction p as [|c p IH]; intros s; simpl.
  - by exists s.
  - destruct s as [|d s]; [done|].
    intros [Hc Hp]%andb_true_iff. apply char_eqb_eq in Hc as ->.
    destruct (IH _ Hp) as [r ->]. by exists r.
Qed.

Lemma startswith_app_l (p q s : list N) :
  startswith (p ++ q) s = true -> startswith p s = true.
Proof.
  intros [r ->]%startswith_inv. rewrite <- app_assoc. apply startswith_app.
Qed.

Lemma startswith_cancel (p q s : list N) :
  startswith (p ++ q) (p ++ s) = startswith q s.
Proof. induction p as [|c p IH]; simpl; [done|]. by rewrite char_eqb_refl. Qed.

Lemma startswith_long (p u r : list N) :
  length p <= length u -> startswith p (u ++ r) = startswith p u.
Proof.
  revert u. induction p as [|c p IH]; intros u Hlen; simpl; [done|].
  destruct u as [|d u]; simpl in *; [lia|].
  rewrite IH by lia. done.
Qed.

Lemma find_from_here (sub s : list N) (i : nat) :
  startswith sub s = true -> find_from sub s i = Some i.
Proof. intros H. destruct s; simpl in *; by rewrite H. Qed.

Lemma find_from_skip (sub a b : list N) (i : nat) :
  absent sub a b -> find_from sub (a ++ b) i = find_from sub b (i + length a).
Proof.
  revert i. induction a as [|c a IH]; intros i Habs.
  - simpl. by rewrite Nat.add_0_r.
  - pose proof (Habs 0 ltac:(simpl; lia)) as H0. simpl in H0.
    cbn [app find_from]. rewrite H0. rewrite IH.
    + f_equal. simpl. lia.
    + intros k Hk. apply (Habs (S k)). simpl. lia.
Qed.

Lemma absent_app (sub a b c : list N) :
  absent sub a (b ++ c) -> absent sub b c -> absent sub (a ++ b) c.
Proof.
  intros Ha Hb k Hk. rewrite length_app in Hk.
  destruct (decide (k < length a)) as [Hlt|Hge].
  - rewrite drop_app_le by lia. rewrite <- app_assoc. by apply Ha.
  - rewrite drop_app_ge by lia. apply Hb. lia.
Qed.

Lemma absent_nil (sub b : list N) : absent sub [] b.
Proof. intros k Hk. simpl in Hk. lia. Qed.

Lemma find_from_none (sub s : list N) (i k : nat) :
  find_from sub s i = None -> startswith sub (drop k s) = false.
Proof.
  revert i k. induction s as [|c s IH]; intros i k.
  - simpl. destruct k; simpl; by destruct (startswith sub []).
  - cbn [find_from]. destruct (startswith sub (c :: s)) eqn:E; [done|].
    intros H. destruct k; [done|]. simpl. by eapply IH.
Qed.

Lemma contains_false (sub s : list N) (k : nat) :
  contains sub s = false -> startswith sub (drop k s) = false.
Proof.
  unfold contains, find. cbn [Nat.leb]. rewrite drop_0. intros H.
  destruct (find_from sub s 0) eqn:E; [done|]. by eapply find_from_none.
Qed.

(** ** The marker protocol: where markers can occur in a payload *)

Lemma marker_shape (i : nat) : marker i = OPENER ++ (str_of_nat i ++ lit ">>>").
Proof. reflexivity. Qed.

Lemma MEND_shape : MEND = OPENER ++ lit "END>>>".
Proof. reflexivity. Qed.

Lemma OPENER_chars : OPENER = [60; 60; 60; 77]%N.
Proof. reflexivity. Qed.

Lemma digit_range (c : N) : is_ascii_digit c = true -> (48 <= c <= 57)%N.
Proof.
  unfold is_ascii_digit, in_range. intros [H1 H2]%andb_true_iff.
  apply N.leb_le in H1, H2. lia.
Qed.

Lemma uint_chars_digits (d : uint) :
  Forall (fun c => is_ascii_digit c = true) (uint_chars d).
Proof. induction d; simpl; constructor; done. Qed.

Lemma uint_chars_inj (d d' : uint) : uint_chars d = uint_chars d' -> d = d'.
Proof.
  revert d'. induction d; intros d'; destruct d'; simpl; intros H;
    try discriminate; try done; injection H as H; f_equal; auto.
Qed.

Lemma str_of_nat_inj (i j : nat) : str_of_nat i = str_of_nat j -> i = j.
Proof. intros H. by apply Unsigned.to_uint_inj, uint_chars_inj. Qed.

Lemma str_of_nat_digits (i : nat) :
  Forall (fun c => is_ascii_digit c = true) (str_of_nat i).
Proof. apply uint_chars_digits. Qed.

(** Two runs of digits, each closed by [>>>], that agree are the same run. *)
Lemma digits_close_eq (d1 d2 rest : list N) :
  Forall (fun c => is_ascii_digit c = true) d1 ->
  Forall (fun c => is_ascii_digit c = true) d2 ->
  startswith (d1 ++ lit ">>>") (d2 ++ lit ">>>" ++ rest) = true -> d1 = d2.
Proof.
  change (lit ">>>") with [62; 62; 62]%N.
  intros H1. revert d2. induction H1 as [|a d1 Ha H1 IH]; intros d2 H2.
  - destruct H2 as [|b d2 Hb H2]; [done|].
    simpl. intros [Hc _]%andb_true_iff. apply char_eqb_eq in Hc. subst b.
    discriminate Hb.
  - destruct H2 as [|b d2 Hb H2]; simpl.
    + intros [Hc _]%andb_true_iff. apply char_eqb_eq in Hc. subst a.
      discriminate Ha.
    + intros [Hc Hs]%andb_true_iff. apply char_eqb_eq in Hc. subst b.
      f_equal. by apply IH.
Qed.

Lemma marker_at_marker (i j : nat) (rest : list N) :
  startswith (marker i) (marker j ++ rest) = true -> i = j.
Proof.
  rewrite !marker_shape, <- !app_assoc, startswith_cancel. intros H.
  apply str_of_nat_inj.
  by apply digits_close_eq in H; auto using str_of_nat_digits.
Qed.

Lemma MEND_at_marker (j : nat) (rest : list N) :
  startswith MEND (marker j ++ rest) = false.
Proof.
  rewrite MEND_shape, marker_shape, <- !app_assoc, startswith_cancel.
  pose proof (str_of_nat_length j) as Hlen.
  pose proof (str_of_nat_digits j) as Hd.
  destruct (str_of_nat j) as [|c d]; simpl in Hlen; [lia|].
  apply Forall_cons in Hd as [Hc%digit_range _].
  change (lit "END>>>") with [69; 78; 68; 62; 62; 62]%N. simpl.
  destruct (char_eqb 69 c) eqn:E; [|done].
  apply char_eqb_eq in E. lia.
Qed.

Lemma no_opener_inside (l rest : list N) (k : nat) :
  Forall (fun c => c <> 60%N) l -> k < length l ->
  startswith OPENER (drop k l ++ rest) = false.
Proof.
  intros Hl Hk. destruct (drop k l) as [|c u] eqn:E.
  - apply (f_equal length) in E. rewrite length_drop in E. simpl in E. lia.
  - assert (c <> 60%N) as Hc.
    { apply (Forall_drop _ k) in Hl. rewrite E in Hl.
      by apply Forall_cons in Hl as [? _]. }
    rewrite OPENER_chars. simpl.
    destruct (char_eqb 60 c) eqn:Ec; [|done].
    apply char_eqb_eq in Ec. congruence.
Qed.

Lemma marker_tail_no_opener (j : nat) :
  Forall (fun c => c <> 60%N) (str_of_nat j ++ lit ">>>").
Proof.
  apply Forall_app. split.
  - eapply Forall_impl; [apply str_of_nat_digits|].
    intros c Hc%digit_range. simpl. lia.
  - change (lit ">>>") with [62; 62; 62]%N. by repeat constructor.
Qed.

(** A marker occurs in a marker only at its start, and only if it is the same
    marker. *)
Lemma absent_in_marker (m : list N) (j : nat) (rest : list N) :
  startswith OPENER m = true ->
  startswith m (marker j ++ rest) = false ->
  absent m (marker j) rest.
Proof.
  intros Hm H0 k Hk.
  destruct k as [|k]; [by rewrite drop_0|].
  destruct (startswith m (drop (S k) (marker j) ++ rest)) eqn:E; [|done].
  apply startswith_inv in Hm as [m' ->]. apply startswith_app_l in E.
  rewrite marker_shape in E, Hk. rewrite OPENER_chars in E, Hk.
  destruct k as [|[|[|k]]];
    try (simpl in E; change (char_eqb 60 77) with false in E;
         rewrite ?char_eqb_refl in E; discriminate E).
  change (drop (S (S (S (S k)))) ([60; 60; 60; 77]%N ++ str_of_nat j ++ lit ">>>"))
    with (drop k (str_of_nat j ++ lit ">>>")) in E.
  rewrite <- OPENER_chars in E. rewrite no_opener_inside in E; [done| |].
  - apply marker_tail_no_opener.
  - simpl in Hk. lia.
Qed.

(** A marker does not occur at an offset inside a fragment that is free of
    the opener, when the fragment is followed by a marker. *)
Lemma absent_in_text (m t rest : list N) :
  startswith OPENER m = true ->
  contains OPENER t = false ->
  startswith OPENER rest = true ->
  absent m t rest.
Proof.
  intros Hm Ht Hrest k Hk.
  destruct (startswith m (drop k t ++ rest)) eqn:E; [|done].
  apply startswith_inv in Hm as [m' ->]. apply startswith_app_l in E.
  pose proof (contains_false _ _ k Ht) as Hu.
  apply startswith_inv in Hrest as [r' ->].
  assert (0 < length (drop k t)) as Hlen by (rewrite length_drop; lia).
  rewrite OPENER_chars in *.
  destruct (drop k t) as [|c1 [|c2 [|c3 [|c4 u]]]]; simpl in Hlen; [lia|..].
  - simpl in E. change (char_eqb 77 60) with false in E.
    by rewrite !andb_false_r in E.
  - simpl in E. change (char_eqb 77 60) with false in E.
    by rewrite !andb_false_r in E.
  - simpl in E. change (char_eqb 77 60) with false in E.
    by rewrite !andb_false_r in E.
  - rewrite startswith_long in E by (simpl; lia). congruence.
Qed.

Lemma payload_from_app (i : nat) (pre post : list (list N)) :
  payload_from i (pre ++ post)
  = payload_from i pre ++ payload_from (i + length pre) post.
Proof.
  revert i. induction pre as [|u pre IH]; intros i; cbn [payload_from app length].
  - by rewrite Nat.add_0_r.
  - rewrite IH, <- !app_assoc.
    by replace (S i + length pre) with (i + S (length pre)) by lia.
Qed.

Lemma payload_opens (j : nat) (ts : list (list N)) (rest : list N) :
  startswith OPENER rest = true ->
  startswith OPENER (payload_from j ts ++ rest) = true.
Proof.
  destruct ts as [|t ts]; [done|]. intros _. cbn [payload_from].
  rewrite marker_shape, <- !app_assoc. apply startswith_app.
Qed.

Lemma absent_in_payload (m : list N) (j : nat) (ts : list (list N)) (rest : list N) :
  startswith OPENER m = true ->
  (forall k r, j <= k < j + length ts -> startswith m (marker k ++ r) = false) ->
  Forall (fun t => contains OPENER t = false) ts ->
  startswith OPENER rest = true ->
  absent m (payload_from j ts) rest.
Proof.
  intros Hm Hk Hts Hrest. revert j Hk.
  induction Hts as [|t ts Ht Hts IH]; intros j Hk; cbn [payload_from].
  - apply absent_nil.
  - apply absent_app; [|apply absent_app].
    + apply absent_in_marker; [done|]. apply Hk. simpl. lia.
    + apply absent_in_text; [done..|]. by apply payload_opens.
    + apply IH. intros k r Hkr. apply Hk. simpl. lia.
Qed.

Lemma find_zero (sub s : list N) : find sub s 0 = find_from sub s 0.
Proof. unfold find. by rewrite drop_0. Qed.

Lemma find_app_length (sub a b : list N) :
  find sub (a ++ b) (length a) = find_from sub b (length a).
Proof.
  unfold find. rewrite length_app, drop_app_length.
  by destruct (Nat.leb_spec (length a) (length a + length b)); [|lia].
Qed.

(** The loop of [translate_group_payload], started at fragment [length pre]
    of an untranslated payload, recovers the remaining fragments. *)
Lemma parse_from_payload (pre post : list (list N)) :
  Forall (fun t => contains OPENER t = false) (pre ++ post) ->
  parse_from (build_payload (pre ++ post)) (length (pre ++ post))
             (length pre) (length post) = Some post.
Proof.
  revert pre. induction post as [|t post IH]; intros pre Hclean; [done|].
  pose proof Hclean as Hall.
  apply Forall_app in Hclean as [Hpre Hpost].
  apply Forall_cons in Hpost as [Ht Hpost].
  set (i := length pre).
  set (rest := payload_from (S i) post ++ MEND).
  assert (build_payload (pre ++ t :: post)
          = payload_from 0 pre ++ marker i ++ t ++ rest) as HP.
  { unfold build_payload, rest. rewrite payload_from_app. cbn [payload_from].
    by rewrite <- !app_assoc. }
  assert (startswith OPENER (marker i) = true) as Hmo
    by (rewrite marker_shape; apply startswith_app).
  assert (startswith OPENER MEND = true) as Heo by done.
  (* the marker of fragment [i] is first found where it was written *)
  assert (find (marker i) (build_payload (pre ++ t :: post)) 0
          = Some (length (payload_from 0 pre))) as Hfind.
  { rewrite HP, find_zero, find_from_skip.
    - apply find_from_here. apply startswith_app.
    - apply absent_in_payload; [done| |done|].
      + intros k r Hk.
        destruct (startswith (marker i) (marker k ++ r)) eqn:E; [|done].
        apply marker_at_marker in E. lia.
      + rewrite marker_shape, <- !app_assoc. apply startswith_app. }
  (* the next marker is what follows the fragment *)
  set (next := if S i <? length (pre ++ t :: post) then marker (S i) else MEND).
  assert (startswith OPENER next = true /\ startswith next rest = true) as [Hno Hnr].
  { unfold next, rest. rewrite length_app. cbn [length]. fold i.
    destruct post as [|u post]; cbn [length payload_from].
    - destruct (Nat.ltb_spec (S i) (i + 1)); [lia|]. split; [done|].
      apply startswith_refl.
    - destruct (Nat.ltb_spec (S i) (i + S (S (length post)))); [|lia].
      split; [rewrite marker_shape; apply startswith_app|].
      rewrite <- !app_assoc. apply startswith_app. }
  assert (find next (build_payload (pre ++ t :: post))
            (length (payload_from 0 pre) + length (marker i))
          = Some (length (payload_from 0 pre) + length (marker i) + length t))
    as Hnext.
  { rewrite HP. rewrite (app_assoc (payload_from 0 pre)).
    rewrite <- (length_app (payload_from 0 pre)).
    rewrite find_app_length, find_from_skip.
    - by apply find_from_here.
    - apply absent_in_text; [done..|].
      apply startswith_inv in Hnr as [r ->].
      apply startswith_inv in Hno as [n' ->].
      rewrite <- app_assoc. apply startswith_app. }
  cbn [parse_from length]. fold i next. rewrite Hfind, Hnext.
  specialize (IH (pre ++ [t])).
  rewrite <- app_assoc in IH. cbn [app] in IH.
  rewrite (length_app pre [t]) in IH. cbn [length] in IH. fold i in IH.
  replace (i + 1) with (S i) in IH by lia.
  rewrite IH by done. f_equal. f_equal.
  rewrite HP, (app_assoc (payload_from 0 pre)), <- (length_app (payload_from 0 pre)).
  apply slice_middle.
Qed.

Lemma MEND_in_payload (texts : list (list N)) :
  Forall (fun t => contains OPENER t = false) texts ->
  contains MEND (build_payload texts) = true.
Proof.
  intros Hclean. unfold contains, build_payload.
  rewrite find_zero, find_from_skip.
  - by rewrite find_from_here by apply startswith_refl.
  - apply absent_in_payload; try done.
    intros k r _. apply MEND_at_marker.
Qed.

(** C2 (as amended): when no fragment contains the opener [<<<M] of the
    markers, the parse of [translate_group_payload], applied to the payload
    itself, returns the fragments, in order; their combined length plays no
    part. *)
Theorem payload_round_trip (texts : list (list N)) :
  Forall (fun t => contains (lit "<<<M") t = false) texts ->
  parse_group (length texts) (build_payload texts) = Some texts.
Proof.
  intros Hclean. unfold parse_group. rewrite MEND_in_payload by done.
  cbn [negb]. apply (parse_from_payload [] texts Hclean).
Qed.

Lemma payload_round_trip_witness :
  parse_group 2 (build_payload [lit "Hello there"; lit "a << b"])
  = Some [lit "Hello there"; lit "a << b"].
Proof.
  apply (payload_round_trip [lit "Hello there"; lit "a << b"]).
  repeat constructor.
Defined.

(** C2, the claim as stated fails: a fragment that is itself the end marker
    gives a payload of 28 characters, far under the budget, from which the
    parse returns the empty string. *)
Lemma payload_round_trip_fails :
  encoded_length [(0, lit "<<<MEND>>>")] = 28
  /\ parse_group 1 (build_payload [lit "<<<MEND>>>"]) = Some [[]]
  /\ parse_group 1 (build_payload [lit "<<<MEND>>>"]) <> Some [lit "<<<MEND>>>"].
Proof. vm_compute. repeat split; discriminate. Qed.

(** ** [strip] *)

Lemma drop_while_snoc (p : N -> bool) (x : list N) (a : N) :
  p a = false -> drop_while p (x ++ [a]) = drop_while p x ++ [a].
Proof.
  intros Ha. induction x as [|c x IH]; simpl; [by rewrite Ha|].
  by destruct (p c).
Qed.

Lemma rstrip_cons (a : N) (u : list N) :
  isspace a = false -> rstrip (a :: u) = a :: rstrip u.
Proof.
  intros Ha. unfold rstrip. simpl. rewrite drop_while_snoc by done.
  by rewrite rev_app_distr.
Qed.

Lemma rstrip_fix (u : list N) :
  (forall b, last u = Some b -> isspace b = false) -> rstrip u = u.
Proof.
  intros Hl. destruct (last u) as [b|] eqn:E.
  - apply last_Some in E as [u' ->]. unfold rstrip.
    rewrite rev_app_distr. simpl. rewrite (Hl b) by done.
    simpl. by rewrite rev_involutive.
  - apply last_None in E. by subst.
Qed.

Lemma rstrip_last (u : list N) (b : N) :
  last (rstrip u) = Some b -> isspace b = false.
Proof.
  unfold rstrip. destruct (drop_while isspace (rev u)) as [|c w] eqn:E; [done|].
  apply drop_while_head in E. simpl. rewrite last_snoc. by intros [= <-].
Qed.

(** The text is its stripped form between two runs of whitespace. *)
Lemma strip_decomp (s : list N) :
  exists l w, s = l ++ strip s ++ w
    /\ forallb isspace l = true /\ forallb isspace w = true.
Proof.
  exists (take_while isspace s), (rev (take_while isspace (rev (lstrip s)))).
  split; [|split].
  - unfold strip, rstrip.
    rewrite <- rev_app_distr, take_drop_while, rev_involutive.
    unfold lstrip. by rewrite take_drop_while.
  - apply take_while_all.
  - rewrite forallb_forall. intros c Hc%in_rev.
    pose proof (take_while_all isspace (rev (lstrip s))) as H.
    rewrite forallb_forall in H. by apply H.
Qed.

Lemma strip_head (s : list N) (a : N) (r : list N) :
  strip s = a :: r -> isspace a = false.
Proof.
  unfold strip, lstrip. destruct (drop_while isspace s) as [|c u] eqn:E; [done|].
  apply drop_while_head in E. rewrite rstrip_cons by done. by intros [= <- _].
Qed.

Lemma strip_idem (s : list N) : strip (strip s) = strip s.
Proof.
  destruct (strip s) as [|a r] eqn:E; [done|].
  pose proof (strip_head _ _ _ E) as Ha.
  unfold strip at 1. unfold lstrip. simpl. rewrite Ha.
  rewrite <- E. apply rstrip_fix. intros b. apply rstrip_last.
Qed.

Lemma strip_nonblank (s : list N) :
  forallb isspace s = false -> strip s <> [].
Proof.
  intros Hs E. destruct (strip_decomp s) as (l & w & Hd & Hl & Hw).
  rewrite E in Hd. simpl in Hd. rewrite Hd, forallb_app, Hl, Hw in Hs. done.
Qed.

Lemma strip_elem (s : list N) (c : N) : In c (strip s) -> In c s.
Proof.
  destruct (strip_decomp s) as (l & w & Hd & _). intros Hc.
  rewrite Hd. apply in_or_app. right. apply in_or_app. by left.
Qed.

Lemma strip_length (s : list N) : length (strip s) <= length s.
Proof.
  destruct (strip_decomp s) as (l & w & Hd & _).
  rewrite Hd at 2. rewrite !length_app. lia.
Qed.

(** ** The quality gate *)

Lemma str_eqb_refl (s : list N) : str_eqb s s = true.
Proof. induction s as [|c s IH]; simpl; [done|]. by rewrite char_eqb_refl. Qed.

Lemma should_translate_comment_strip `{PyTables} (s : list N) :
  CodeComments.should_translate_comment (strip s)
  = CodeComments.should_translate_comment s.
Proof. unfold CodeComments.should_translate_comment. by rewrite strip_idem. Qed.

(** C7: [is_bad_translation] returns true for every candidate that is empty
    once stripped, and for every candidate equal to its source when the
    source satisfies [should_translate_comment]. *)
Theorem is_bad_translation_rejects `{PyTables} (source translated : list N) :
  (strip translated = [] ->
   CodeComments.is_bad_translation source translated = true)
  /\ (translated = source ->
      CodeComments.should_translate_comment source = true ->
      CodeComments.is_bad_translation source translated = true).
Proof.
  split.
  - intros E. unfold CodeComments.is_bad_translation. by rewrite E.
  - intros -> Hs. unfold CodeComments.is_bad_translation.
    rewrite str_eqb_refl, should_translate_comment_strip, Hs. cbn [andb].
    by repeat case_match.
Qed.

Lemma is_bad_translation_rejects_witness :
  @CodeComments.is_bad_translation ascii_tables
     (lit "return the value") (lit "  ") = true
  /\ @CodeComments.is_bad_translation ascii_tables
       (lit "return the value") (lit "return the value") = true.
Proof.
  split.
  - apply (proj1 (@is_bad_translation_rejects ascii_tables
                    (lit "return the value") (lit "  "))).
    reflexivity.
  - apply (proj2 (@is_bad_translation_rejects ascii_tables
                    (lit "return the value") (lit "return the value"))).
    + reflexivity.
    + vm_compute. reflexivity.
Defined.

(** ** The classifiers on text already in Polish *)

Lemma pl_char_In (a : N) : is_pl_char a = true -> In a PL_CHARS.
Proof.
  unfold is_pl_char. rewrite existsb_exists.
  intros (x & Hx & ->%char_eqb_eq). done.
Qed.

Lemma pl_char_facts_hold (a : N) : is_pl_char a = true -> pl_char_facts a = true.
Proof.
  intros Ha%pl_char_In.
  assert (forallb pl_char_facts PL_CHARS = true) as H by (vm_compute; reflexivity).
  rewrite forallb_forall in H. by apply H.
Qed.

Lemma polish_head (fragment : list N) (a : N) (r : list N) :
  Forall (fun c => isspace c = true \/ is_pl_char c = true) fragment ->
  strip fragment = a :: r -> is_pl_char a = true.
Proof.
  intros Hall E. pose proof (strip_head _ _ _ E) as Hns.
  assert (In a fragment) as Hin by (apply strip_elem; rewrite E; by left).
  rewrite Forall_forall in Hall. apply list_elem_of_In in Hin.
  destruct (Hall a Hin) as [Hs|Hp]; [congruence|done].
Qed.

(** C4 (as amended): on a fragment whose non-whitespace characters are all
    Polish letters, the comment classifier answers no; the prose classifier
    has no test for the target language and answers yes, unless the fragment
    is blank. *)
Theorem polish_only_classified `{PyTables} (fragment : list N) :
  Forall (fun c => isspace c = true \/ is_pl_char c = true) fragment ->
  CodeComments.should_translate_comment fragment = false
  /\ Learncpp.should_translate fragment
     = negb (forallb isspace fragment).
Proof.
  intros Hall.
  destruct (forallb isspace fragment) eqn:Hblank.
  - unfold CodeComments.should_translate_comment,
      Learncpp.should_translate.
    by rewrite strip_blank.
  - pose proof (strip_nonblank _ Hblank) as Hne.
    destruct (strip fragment) as [|a r] eqn:E; [done|].
    pose proof (polish_head _ _ _ Hall E) as Hpl.
    pose proof (pl_char_facts_hold _ Hpl) as Hf.
    unfold pl_char_facts in Hf.
    repeat (apply andb_true_iff in Hf as [Hf ?]).
    repeat match goal with
           | H : negb _ = true |- _ => apply negb_true_iff in H
           end.
    split.
    + unfold CodeComments.should_translate_comment. rewrite E.
      cbn [is_nil]. unfold PL_CHARS_RE_search. cbn [existsb]. rewrite Hpl.
      cbn [orb]. by repeat case_match.
    + unfold Learncpp.should_translate. rewrite E. cbn [is_nil].
      unfold Learncpp.URL_RE_search, Learncpp.HAS_LETTER_RE_search.
      change (lit "http:") with [104; 116; 116; 112; 58]%N.
      change (lit "https:") with [104; 116; 116; 112; 115; 58]%N.
      change (lit "mailto:") with [109; 97; 105; 108; 116; 111; 58]%N.
      change (lit "tel:") with [116; 101; 108; 58]%N.
      change (lit "www.") with [119; 119; 119; 46]%N.
      change (lit "{{") with [123; 123]%N.
      cbn [startswith_ci startswith existsb].
      repeat match goal with
             | H : _ = false |- _ => rewrite H
             | H : _ = true |- _ => rewrite H
             end.
      cbn [andb orb negb]. by rewrite !orb_true_r.
Qed.

Lemma polish_only_classified_witness :
  @CodeComments.should_translate_comment ascii_tables [322; 243; 380; 32]%N
    = false
  /\ Learncpp.should_translate [322; 243; 380; 32]%N
     = negb (forallb isspace [322; 243; 380; 32]%N).
Proof.
  apply (@polish_only_classified ascii_tables [322; 243; 380; 32]%N).
  repeat constructor; (by left) || (by right).
Defined.

(** C4, the claim as stated fails for the prose classifier: the fragment
    made of the three Polish letters of the word for bed is accepted. *)
Lemma should_translate_accepts_polish :
  forallb is_pl_char [322; 243; 380]%N = true
  /\ Learncpp.should_translate [322; 243; 380]%N = true.
Proof. vm_compute. done. Qed.

(** ** Words and hint words *)

Lemma letter_not_space (c : N) : is_ascii_letter c = true -> isspace c = false.
Proof.
  intros Hc.
  assert (c <= 122)%N as Hle.
  { unfold is_ascii_letter, in_range in Hc.
    apply orb_true_iff in Hc as [H|H]; apply andb_true_iff in H as [_ H];
      apply N.leb_le in H; lia. }
  assert (forallb (fun n => implb (is_ascii_letter (N.of_nat n))
                                 (negb (isspace (N.of_nat n))))
                  (seq 0 123) = true) as Hall by (vm_compute; reflexivity).
  rewrite forallb_forall in Hall.
  specialize (Hall (N.to_nat c)). rewrite N2Nat.id, Hc in Hall.
  apply negb_true_iff, Hall, in_seq. lia.
Qed.

Lemma space_not_letter (w : list N) :
  forallb isspace w = true -> forallb (fun c => negb (is_ascii_letter c)) w = true.
Proof.
  rewrite !forallb_forall. intros Hw c Hc. specialize (Hw c Hc).
  destruct (is_ascii_letter c) eqn:E; [|done].
  apply letter_not_space in E. congruence.
Qed.

Lemma findall_go_tail (w cur : list N) :
  forallb (fun c => negb (is_ascii_letter c)) w = true ->
  WORD_RE_findall_go w cur = emit_word cur.
Proof.
  revert cur. induction w as [|c w IH]; intros cur; simpl; [done|].
  intros [Hc Hw]%andb_true_iff. apply negb_true_iff in Hc. rewrite Hc.
  rewrite IH by done. unfold emit_word at 2. simpl. by rewrite app_nil_r.
Qed.

Lemma findall_go_app_tail (x w cur : list N) :
  forallb (fun c => negb (is_ascii_letter c)) w = true ->
  WORD_RE_findall_go (x ++ w) cur = WORD_RE_findall_go x cur.
Proof.
  intros Hw. revert cur. induction x as [|c x IH]; intros cur; simpl.
  - by apply findall_go_tail.
  - destruct (is_ascii_letter c); by rewrite IH.
Qed.

Lemma findall_go_app_head (l x : list N) :
  forallb (fun c => negb (is_ascii_letter c)) l = true ->
  WORD_RE_findall_go (l ++ x) [] = WORD_RE_findall_go x [].
Proof.
  induction l as [|c l IH]; simpl; [done|].
  intros [Hc Hl]%andb_true_iff. apply negb_true_iff in Hc. rewrite Hc.
  by rewrite IH.
Qed.

(** Stripping removes no word. *)
Lemma WORD_RE_findall_strip (s : list N) :
  WORD_RE_findall (strip s) = WORD_RE_findall s.
Proof.
  destruct (strip_decomp s) as (l & w & Hd & Hl & Hw).
  unfold WORD_RE_findall. rewrite Hd at 2.
  rewrite findall_go_app_head by by apply space_not_letter.
  by rewrite findall_go_app_tail by by apply space_not_letter.
Qed.

Lemma english_score_strip (s : list N) :
  CodeComments.english_score (strip s) = CodeComments.english_score s.
Proof. unfold CodeComments.english_score. by rewrite WORD_RE_findall_strip. Qed.

(** Every word has two letters or more, all taken from the text. *)
Lemma findall_go_length (s cur : list N) :
  2 * length (WORD_RE_findall_go s cur) <= length s + length cur.
Proof.
  revert cur. induction s as [|c s IH]; intros cur; simpl.
  - unfold emit_word. destruct (Nat.leb_spec 2 (length cur)); simpl; lia.
  - destruct (is_ascii_letter c).
    + specialize (IH (c :: cur)). simpl in IH. lia.
    + rewrite length_app. specialize (IH []). simpl in IH.
      unfold emit_word. destruct (Nat.leb_spec 2 (length cur)); simpl; lia.
Qed.

Lemma english_score_bounds (s : list N) :
  (CodeComments.english_score s).1 <= length (WORD_RE_findall s)
  /\ 2 * length (WORD_RE_findall s) <= length s.
Proof.
  split.
  - unfold CodeComments.english_score.
    destruct (WORD_RE_findall s) as [|w ws]; [simpl; lia|].
    cbn [is_nil fst]. etrans; [apply length_filter|]. by rewrite length_map.
  - pose proof (findall_go_length s []) as H. unfold WORD_RE_findall.
    simpl in H. lia.
Qed.

(** C5 (as amended): a comment fragment with two hint words or more is
    accepted by [should_translate_comment] when its stripped text has at most
    500 characters, no URL marker and no Polish letter. *)
Theorem hint_words_accepted `{PyTables} (core : list N) :
  2 <= (CodeComments.english_score core).1 ->
  length (strip core) <= 500 ->
  CodeComments.URL_RE_search (strip core) = false ->
  PL_CHARS_RE_search (strip core) = false ->
  CodeComments.should_translate_comment core = true.
Proof.
  intros Hhits Hlen Hurl Hpl.
  rewrite <- english_score_strip in Hhits.
  destruct (english_score_bounds (strip core)) as [Hw Hl].
  unfold CodeComments.should_translate_comment.
  rewrite Hurl, Hpl.
  destruct (CodeComments.english_score (strip core)) as [hits total] eqn:Hs.
  cbn [fst] in *.
  assert (4 <= length (strip core)) as Hl4 by lia.
  assert (1 <= length (WORD_RE_findall (strip core))) as Hw1 by lia.
  destruct (strip core) as [|a r] eqn:E; [simpl in Hl4; lia|]. cbn [is_nil].
  destruct (Nat.ltb_spec (length (a :: r)) 3); [lia|].
  destruct (Nat.ltb_spec 500 (length (a :: r))); [lia|]. cbn [orb].
  destruct (WORD_RE_findall (a :: r)) as [|w ws]; [simpl in Hw1; lia|]. cbn [is_nil].
  destruct (Nat.eqb_spec hits 0); [lia|].
  rewrite andb_false_r. cbn [andb].
  by destruct (Nat.leb_spec 1 hits); [|lia].
Qed.

Lemma hint_words_accepted_witness :
  @CodeComments.should_translate_comment ascii_tables
     (lit " create the object ") = true.
Proof.
  apply (@hint_words_accepted ascii_tables (lit " create the object "));
    vm_compute; (reflexivity || lia).
Defined.

(** C5, the claim as stated fails: each of these fragments has two hint
    words or more and is rejected, whatever the tables, because it has a
    Polish letter, names a URL, or is longer than 500 characters. *)
Lemma hint_words_rejected :
  (CodeComments.english_score (lit "this is " ++ [243]%N)).1 = 2
  /\ (forall T : PyTables,
        CodeComments.should_translate_comment (lit "this is " ++ [243]%N)
        = false)
  /\ (CodeComments.english_score (lit "use the docs from www.x.org")).1 = 3
  /\ (forall T : PyTables,
        CodeComments.should_translate_comment
          (lit "use the docs from www.x.org") = false)
  /\ (CodeComments.english_score
        (lit "this is " ++ repeat 120%N 500)).1 = 2
  /\ (forall T : PyTables,
        CodeComments.should_translate_comment
          (lit "this is " ++ repeat 120%N 500) = false).
Proof. repeat split; intros; vm_compute; reflexivity. Qed.

(** ** The comment finder *)

Lemma str_eqb_eq (a b : list N) : str_eqb a b = true <-> a = b.
Proof.
  revert b. induction a as [|x a IH]; intros [|y b]; simpl; try done.
  rewrite andb_true_iff, char_eqb_eq, IH. split; [by intros [-> ->]|].
  by intros [= -> ->].
Qed.

Lemma startswith_length (p s : list N) :
  startswith p s = true -> length p <= length s.
Proof. intros [r ->]%startswith_inv. rewrite length_app. lia. Qed.

Lemma find_from_some (sub s : list N) (i e : nat) :
  find_from sub s i = Some e ->
  i <= e /\ e - i <= length s /\ startswith sub (drop (e - i) s) = true.
Proof.
  revert i. induction s as [|c s IH]; intros i; cbn [find_from].
  - destruct (startswith sub []) eqn:E; [|done]. intros [= <-].
    rewrite Nat.sub_diag. simpl. by repeat split; try lia.
  - destruct (startswith sub (c :: s)) eqn:E.
    + intros [= <-]. rewrite Nat.sub_diag. simpl. repeat split; try lia. done.
    + intros (Hle & Hlen & Hs)%IH.
      replace (e - i) with (S (e - S i)) by lia. simpl. repeat split; try lia. done.
Qed.

Lemma find_some (sub s : list N) (start e : nat) :
  find sub s start = Some e ->
  start <= e /\ e + length sub <= length s /\ startswith sub (drop e s) = true.
Proof.
  unfold find. destruct (Nat.leb_spec start (length s)); [|done].
  intros (Hle & Hlen & Hs)%find_from_some. rewrite length_drop in Hlen.
  rewrite drop_drop in Hs. replace (start + (e - start)) with e in Hs by lia.
  pose proof (startswith_length _ _ Hs) as Hl. rewrite length_drop in Hl.
  repeat split; try lia. done.
Qed.

Lemma take_while_stop (p : N -> bool) (s : list N) :
  length (take_while p s) = length s
  \/ exists c, s !! length (take_while p s) = Some c /\ p c = false.
Proof.
  induction s as [|c s IH]; simpl; [by left|].
  destruct (p c) eqn:E; simpl.
  - destruct IH as [->|IH]; [by left|by right].
  - right. by exists c.
Qed.

Lemma take_while_length (p : N -> bool) (s : list N) :
  length (take_while p s) <= length s.
Proof. induction s as [|c s IH]; simpl; [done|]. destruct (p c); simpl; lia. Qed.

Lemma take_while_prefix (p : N -> bool) (s : list N) :
  take (length (take_while p s)) s = take_while p s.
Proof.
  induction s as [|c s IH]; simpl; [done|]. destruct (p c); simpl; by rewrite ?IH.
Qed.

(** One iteration moves forward, and a span is only appended in the normal
    state, starting two characters after the current index. *)
Lemma scan_step_spec (code : list N) (i : nat) (st : scan_state)
    (i' : nat) (st' : scan_state) (sp : option (nat * nat * span_kind)) :
  i < length code ->
  scan_step code i st = (i', st', sp) ->
  i < i'
  /\ forall x, sp = Some x ->
       st = normal /\ span_start x = i + 2 /\ span_end x <= i'
       /\ span_ok code x.
Proof.
  intros Hi. unfold scan_step.
  destruct (code !! i) as [c|] eqn:Hc; cycle 1.
  { apply lookup_ge_None in Hc. lia. }
  destruct st.
  - destruct ((i + 1 <? length code) && str_eqb _ (lit "//")) eqn:Hline.
    { intros [= <- <- <-].
      apply andb_true_iff in Hline as [Hn%Nat.ltb_lt Hs%str_eqb_eq].
      split; [lia|]. intros x [= <-]. cbn.
      pose proof (take_while_length (fun c => negb (is_newline c))
                    (drop (i + 2) code)) as Hrun.
      pose proof (take_while_stop (fun c => negb (is_newline c))
                    (drop (i + 2) code)) as Hstop.
      pose proof (take_while_prefix (fun c => negb (is_newline c))
                    (drop (i + 2) code)) as Hpre.
      pose proof (take_while_all (fun c => negb (is_newline c))
                    (drop (i + 2) code)) as Hall.
      rewrite length_drop in Hrun, Hstop.
      set (run := take_while _ _) in *.
      repeat split; try lia.
      - by replace (i + 2 - 2) with i by lia.
      - unfold slice. replace (i + 2 + length run - (i + 2)) with (length run) by lia.
        by rewrite Hpre.
      - destruct Hstop as [Hstop|(d & Hd & Hnl)].
        + left. lia.
        + right. exists d. rewrite lookup_drop in Hd. split; [done|].
          by apply negb_false_iff in Hnl. }
    destruct ((i + 1 <? length code) && str_eqb _ (lit "/*")) eqn:Hblock.
    { apply andb_true_iff in Hblock as [Hn%Nat.ltb_lt Hs%str_eqb_eq].
      destruct (find (lit "*/") code (i + 2)) as [j|] eqn:Hf.
      - intros [= <- <- <-]. apply find_some in Hf as Hj.
        destruct Hj as (Hj1 & Hj2 & _). simpl in Hj2.
        split; [lia|]. intros x [= <-]. cbn. repeat split; try lia.
        + by replace (i + 2 - 2) with i by lia.
        + by left.
      - intros [= <- <- <-]. split; [lia|]. intros x [= <-]. cbn.
        repeat split; try lia.
        + by replace (i + 2 - 2) with i by lia.
        + by right. }
    destruct (char_eqb c 34); [intros [= <- <- <-]; split; [lia|done]|].
    destruct (char_eqb c 39); [intros [= <- <- <-]; split; [lia|done]|].
    destruct (_ && _ && _).
    + destruct (find (lit "(") code (i + 2)) as [open_paren|] eqn:Ho;
        [|intros [= <- <- <-]; split; [lia|done]].
      destruct (find _ code (open_paren + 1)) as [close_idx|] eqn:Hcl;
        [|intros [= <- <- <-]; split; [lia|done]].
      intros [= <- <- <-]. apply find_some in Ho as (Ho & _).
      apply find_some in Hcl as (Hcl & _). split; [lia|done].
    + intros [= <- <- <-]; split; [lia|done].
  - destruct (_ && _); [intros [= <- <- <-]; split; [lia|done]|].
    destruct (char_eqb c 34); intros [= <- <- <-]; split; (lia || done).
  - destruct (_ && _); [intros [= <- <- <-]; split; [lia|done]|].
    destruct (char_eqb c 39); intros [= <- <- <-]; split; (lia || done).
Qed.

Lemma scan_loop_run (code : list N) (fuel i : nat) (st : scan_state)
    (spans r : list (nat * nat * span_kind)) :
  scan_loop fuel code i st spans = Some r -> scan_run code i st spans r.
Proof.
  revert i st spans. induction fuel as [|fuel IH]; intros i st spans; simpl.
  - destruct (Nat.ltb_spec i (length code)); [done|].
    intros [= <-]. by constructor.
  - destruct (Nat.ltb_spec i (length code)); [|intros [= <-]; by constructor].
    destruct (scan_step code i st) as [[i' st'] sp] eqn:E.
    intros Hr%IH. by econstructor.
Qed.

(** The loop ends within [length code - i] iterations. *)
Lemma scan_loop_total (code : list N) (fuel i : nat) (st : scan_state)
    (spans : list (nat * nat * span_kind)) :
  length code <= i + fuel ->
  exists r, scan_loop fuel code i st spans = Some r.
Proof.
  revert i st spans. induction fuel as [|fuel IH]; intros i st spans Hf; simpl.
  - destruct (Nat.ltb_spec i (length code)); [lia|]. by eexists.
  - destruct (Nat.ltb_spec i (length code)); [|by eexists].
    destruct (scan_step code i st) as [[i' st'] sp] eqn:E.
    apply scan_step_spec in E as [Hlt _]; [|done]. apply IH. lia.
Qed.

Lemma find_comment_spans_total (code : list N) :
  scan_loop (length code) code 0 normal [] = Some (find_comment_spans code).
Proof.
  unfold find_comment_spans.
  destruct (scan_loop_total code (length code) 0 normal []) as [r ->]; [lia|done].
Qed.

Lemma find_comment_spans_run (code : list N) :
  scan_run code 0 normal [] (find_comment_spans code).
Proof. eapply scan_loop_run, find_comment_spans_total. Qed.

Lemma scan_run_det (code : list N) (i : nat) (st : scan_state)
    (spans r1 r2 : list (nat * nat * span_kind)) :
  scan_run code i st spans r1 -> scan_run code i st spans r2 -> r1 = r2.
Proof.
  intros H1. revert r2. induction H1 as [i st spans Hi|i st spans i' st' sp r Hi E H1 IH];
    intros r2 H2; inversion H2; subst; try lia; [done|].
  apply IH. congruence.
Qed.

Lemma separated_snoc (spans : list (nat * nat * span_kind))
    (y : nat * nat * span_kind) :
  separated spans ->
  Forall (fun x => span_end x + 2 <= span_start y) spans ->
  separated (spans ++ [y]).
Proof.
  intros Hsep Hall a b x z Hab Ha Hb.
  assert (a < length spans) as Hal.
  { apply lookup_lt_Some in Hb. rewrite length_app in Hb. simpl in Hb. lia. }
  rewrite lookup_app_l in Ha by done.
  destruct (decide (b < length spans)) as [Hbl|Hbl].
  - rewrite lookup_app_l in Hb by done. by apply (Hsep a b x z).
  - rewrite lookup_app_r in Hb by lia.
    destruct (b - length spans) as [|k] eqn:Hk; [|by destruct k].
    injection Hb as <-. rewrite Forall_forall in Hall. apply Hall.
    by eapply list_elem_of_lookup_2.
Qed.

Lemma scan_inv_step (code : list N) (i : nat) (st : scan_state)
    (spans : list (nat * nat * span_kind)) (i' : nat) (st' : scan_state)
    (sp : option (nat * nat * span_kind)) :
  i < length code -> scan_step code i st = (i', st', sp) ->
  scan_inv code i spans -> scan_inv code i' (spans ++ option_list sp).
Proof.
  intros Hi E (Hok & Hend & Hsep).
  apply scan_step_spec in E as [Hlt Hsp]; [|done].
  assert (Forall (fun x => span_end x <= i') spans) as Hend'.
  { eapply Forall_impl; [exact Hend|]. simpl. intros; lia. }
  destruct sp as [x|]; simpl; [|by rewrite app_nil_r].
  destruct (Hsp x eq_refl) as (_ & Hs & He & Hx).
  split; [|split].
  - apply Forall_app. split; [done|]. by constructor.
  - apply Forall_app. split; [done|]. by constructor.
  - apply separated_snoc; [done|].
    eapply Forall_impl; [exact Hend|]. simpl. intros; lia.
Qed.

Lemma scan_run_inv (code : list N) (i : nat) (st : scan_state)
    (spans r : list (nat * nat * span_kind)) :
  scan_run code i st spans r -> scan_inv code i spans ->
  exists i', scan_inv code i' r.
Proof.
  induction 1 as [i st spans Hi|i st spans i' st' sp r Hi E H1 IH]; intros Hinv.
  - by exists i.
  - apply IH. by eapply scan_inv_step.
Qed.

(** Whatever is appended from index [i] on starts at [i + 2] or later. *)
Lemma scan_run_suffix (code : list N) (i : nat) (st : scan_state)
    (spans r : list (nat * nat * span_kind)) :
  scan_run code i st spans r ->
  exists new, r = spans ++ new /\ Forall (fun x => i + 2 <= span_start x) new.
Proof.
  induction 1 as [i st spans Hi|i st spans i' st' sp r Hi E H1 (new & -> & Hnew)].
  - exists []. by rewrite app_nil_r.
  - apply scan_step_spec in E as [Hlt Hsp]; [|done].
    exists (option_list sp ++ new). split; [by rewrite app_assoc|].
    apply Forall_app. split.
    + destruct sp as [x|]; [|constructor]. repeat constructor.
      destruct (Hsp x eq_refl) as (_ & Hs & _). lia.
    + eapply Forall_impl; [exact Hnew|]. simpl. intros; lia.
Qed.

(** The run from the start goes through every reachable configuration, with
    spans that all end at or before its index. *)
Lemma reach_run (code : list N) (a : nat) (st : scan_state)
    (r : list (nat * nat * span_kind)) :
  reach code a st -> scan_run code 0 normal [] r ->
  exists spans, scan_run code a st spans r /\ scan_inv code a spans.
Proof.
  intros Hreach Hr.
  induction Hreach as [|i st i' st' sp Hreach (spans & Hrun & Hinv) Hi E].
  - exists []. split; [done|]. by repeat split; try constructor; intros ? ? ? ? ?.
  - exists (spans ++ option_list sp). split; [|by eapply scan_inv_step].
    inversion Hrun; subst; [lia|]. congruence.
Qed.

(** *** Quoted literals *)

Lemma scan_step_in_quote (code : list N) (i : nat) (q ch : N) :
  q = 34%N \/ q = 39%N -> code !! i = Some ch ->
  scan_step code i (quote_state q)
  = if char_eqb ch 92 && (i + 1 <? length code) then (i + 2, quote_state q, None)
    else if char_eqb ch q then (i + 1, normal, None)
    else (i + 1, quote_state q, None).
Proof. intros [-> | ->] Hc; unfold scan_step; by rewrite Hc. Qed.

Lemma scan_step_open_quote (code : list N) (i : nat) (q : N) :
  q = 34%N \/ q = 39%N -> code !! i = Some q ->
  scan_step code i normal = (i + 1, quote_state q, None).
Proof.
  intros Hq Hc. unfold scan_step. rewrite Hc.
  assert (exists rest, slice i (i + 2) code = q :: rest) as [rest ->].
  { unfold slice. replace (i + 2 - i) with 2 by lia.
    apply list_elem_of_split_length in Hc as (l1 & l2 & -> & ->).
    rewrite drop_app_length. by eexists. }
  destruct Hq as [-> | ->]; simpl; by rewrite !andb_false_r.
Qed.

Lemma lookup_middle_char (pre rest : list N) (c : N) :
  (pre ++ c :: rest) !! length pre = Some c.
Proof. by rewrite list_lookup_middle. Qed.

(** Entered in the quote state at the start of the body, the loop leaves the
    literal in the normal state just after the closing quote, with no span
    added. *)
Lemma literal_traverse (code : list N) (q : N) (body : list N) :
  q = 34%N \/ q = 39%N -> lit_body q body ->
  forall pre post spans r,
  code = pre ++ body ++ q :: post ->
  scan_run code (length pre) (quote_state q) spans r ->
  scan_run code (length pre + length body + 1) normal spans r.
Proof.
  intros Hq Hbody.
  induction Hbody as [|c body Hcq Hc92 Hbody IH|c body Hbody IH];
    intros pre post spans r Hcode Hrun.
  - simpl in Hcode.
    assert (length pre < length code) as Hlt
      by (rewrite Hcode, length_app; simpl; lia).
    inversion Hrun as [|? ? ? i' st' sp ? _ E Hrun']; subst; [lia|].
    rewrite (scan_step_in_quote _ _ q q) in E
      by (done || apply lookup_middle_char).
    assert (char_eqb q 92 = false) as H92 by (by destruct Hq as [-> | ->]).
    rewrite H92, char_eqb_refl in E. cbn [andb] in E.
    injection E as <- <- <-. simpl in Hrun'. rewrite app_nil_r in Hrun'.
    simpl. by replace (length pre + 0 + 1) with (length pre + 1) by lia.
  - simpl in Hcode.
    assert (length pre < length code) as Hlt
      by (rewrite Hcode, length_app; simpl; lia).
    inversion Hrun as [|? ? ? i' st' sp ? _ E Hrun']; subst; [lia|].
    rewrite (scan_step_in_quote _ _ q c) in E
      by (done || apply lookup_middle_char).
    assert (char_eqb c 92 = false) as H92
      by (destruct (char_eqb c 92) eqn:X; [by apply char_eqb_eq in X|done]).
    assert (char_eqb c q = false) as Hq'
      by (destruct (char_eqb c q) eqn:X; [by apply char_eqb_eq in X|done]).
    rewrite H92, Hq' in E. cbn [andb] in E.
    injection E as <- <- <-. simpl in Hrun'. rewrite app_nil_r in Hrun'.
    specialize (IH (pre ++ [c]) post spans r).
    rewrite length_app in IH. simpl in IH |- *.
    replace (length pre + S (length body) + 1)
      with (length pre + 1 + length body + 1) by lia.
    apply IH; [by rewrite <- app_assoc|done].
  - simpl in Hcode.
    assert (length pre + 1 < length code) as Hlt
      by (rewrite Hcode, length_app; simpl; rewrite length_app; simpl; lia).
    inversion Hrun as [|? ? ? i' st' sp ? _ E Hrun']; subst; [lia|].
    rewrite (scan_step_in_quote _ _ q 92) in E
      by (done || apply lookup_middle_char).
    rewrite char_eqb_refl in E. cbn [andb] in E.
    destruct (Nat.ltb_spec (length pre + 1)
                (length (pre ++ 92%N :: c :: body ++ q :: post))); [|lia].
    injection E as <- <- <-. simpl in Hrun'. rewrite app_nil_r in Hrun'.
    specialize (IH (pre ++ [92%N; c]) post spans r).
    rewrite length_app in IH. simpl in IH |- *.
    replace (length pre + S (S (length body)) + 1)
      with (length pre + 2 + length body + 1) by lia.
    apply IH; [by rewrite <- app_assoc|done].
Qed.

(** *** Before the first quote *)

Lemma scan_step_plain (code : list N) (i : nat) (c : N) :
  code !! i = Some c -> c <> 34%N -> c <> 39%N -> c <> 47%N ->
  (c = 82%N -> code !! (i + 1) <> Some 34%N) ->
  scan_step code i normal = (i + 1, normal, None).
Proof.
  intros Hc H34 H39 H47 H82. unfold scan_step. rewrite Hc.
  assert (exists rest, slice i (i + 2) code = c :: rest) as [rest ->].
  { unfold slice. replace (i + 2 - i) with 2 by lia.
    apply list_elem_of_split_length in Hc as (l1 & l2 & -> & ->).
    rewrite drop_app_length. by eexists. }
  assert (char_eqb c 34 = false) as E34 by (by apply N.eqb_neq).
  assert (char_eqb c 39 = false) as E39 by (by apply N.eqb_neq).
  assert (char_eqb c 47 = false) as E47 by (by apply N.eqb_neq).
  change (lit "//") with [47; 47]%N. change (lit "/*") with [47; 42]%N.
  cbn [str_eqb]. rewrite E47, E34, E39, !andb_false_r. cbn [andb].
  destruct (char_eqb c 82) eqn:E82; [|done].
  apply char_eqb_eq in E82. specialize (H82 E82).
  destruct (code !! (i + 1)) as [d|]; [|by rewrite andb_false_r].
  destruct (char_eqb d 34) eqn:Ed; [|by rewrite andb_false_r].
  apply char_eqb_eq in Ed as ->. done.
Qed.

(** The loop goes in the normal state through a prefix that has no quote
    and no slash, and no [R] before a double quote. *)
Lemma reach_plain (pre rest : list N) :
  Forall (fun c => c <> 34%N /\ c <> 39%N /\ c <> 47%N) pre ->
  (last pre = Some 82%N -> head rest <> Some 34%N) ->
  reach (pre ++ rest) (length pre) normal.
Proof.
  revert rest. induction pre as [|c pre IH] using rev_ind; intros rest Hpre Hlast.
  - apply reach_init.
  - apply Forall_app in Hpre as [Hpre Hc]. apply Forall_inv in Hc as (H34 & H39 & H47).
    rewrite <- app_assoc. cbn [app]. rewrite length_app. cbn [length].
    apply (reach_step _ (length pre) normal _ _ None).
    + apply IH; [done|]. intros _. cbn [head]. congruence.
    + rewrite length_app. cbn [length]. lia.
    + apply (scan_step_plain _ _ c); try done.
      * apply lookup_middle_char.
      * intros ->. rewrite last_snoc in Hlast. specialize (Hlast eq_refl).
        replace (pre ++ 82%N :: rest) with ((pre ++ [82%N]) ++ rest)
          by (by rewrite <- app_assoc).
        rewrite lookup_app_r by (rewrite length_app; cbn [length]; lia).
        rewrite length_app. cbn [length].
        replace (length pre + 1 - (length pre + 1)) with 0 by lia.
        by destruct rest.
Qed.

(** C6 (as amended): [find_comment_spans] ends, on every code text.  Each
    span it returns lies after its opening delimiter and before its closing
    one ([span_ok]), and each span ends before the opening delimiter of the
    next ([separated]).  Where the loop is in its normal state at a quote
    that opens a literal [q body q], no span starts inside the literal,
    whatever its contents: every span ends at or before the opening quote,
    or starts after the closing one.  The loop is in its normal state there
    when no quote and no slash precedes the literal and no [R] stands just
    before it. *)
Theorem find_comment_spans_spec (code : list N) :
  scan_loop (length code) code 0 normal [] = Some (find_comment_spans code)
  /\ Forall (span_ok code) (find_comment_spans code)
  /\ separated (find_comment_spans code)
  /\ (forall pre q body post,
       code = pre ++ q :: body ++ q :: post ->
       q = 34%N \/ q = 39%N ->
       lit_body q body ->
       reach code (length pre) normal ->
       Forall (fun sp => span_end sp <= length pre
                         \/ length pre + length body + 2 < span_start sp)
              (find_comment_spans code))
  /\ (forall pre q body post,
       code = pre ++ q :: body ++ q :: post ->
       q = 34%N \/ q = 39%N ->
       lit_body q body ->
       Forall (fun c => c <> 34%N /\ c <> 39%N /\ c <> 47%N) pre ->
       last pre <> Some 82%N ->
       Forall (fun sp => span_end sp <= length pre
                         \/ length pre + length body + 2 < span_start sp)
              (find_comment_spans code)).
Proof.
  pose proof (find_comment_spans_run code) as Hrun.
  split; [apply find_comment_spans_total|].
  assert (scan_inv code 0 []) as Hinit
    by (repeat split; try constructor; by intros ? ? ? ? ?).
  destruct (scan_run_inv _ _ _ _ _ Hrun Hinit) as (i' & Hok & _ & Hsep).
  split; [done|]. split; [done|].
  assert (forall pre q body post,
       code = pre ++ q :: body ++ q :: post ->
       q = 34%N \/ q = 39%N ->
       lit_body q body ->
       reach code (length pre) normal ->
       Forall (fun sp => span_end sp <= length pre
                         \/ length pre + length body + 2 < span_start sp)
              (find_comment_spans code)) as Hlit.
  { intros pre q body post Hcode Hq Hbody Hreach.
    destruct (reach_run _ _ _ _ Hreach Hrun) as (spans & Hrun_a & _ & Hend & _).
    assert (length pre < length code) as Hlt
      by (rewrite Hcode, length_app; simpl; lia).
    inversion Hrun_a as [|? ? ? i1 st1 sp1 ? _ E Hrun1]; subst; [lia|].
    rewrite (scan_step_open_quote _ _ q) in E
      by (done || apply lookup_middle_char).
    injection E as <- <- <-. simpl in Hrun1. rewrite app_nil_r in Hrun1.
    replace (length pre + 1) with (length (pre ++ [q])) in Hrun1
      by (rewrite length_app; simpl; lia).
    apply (literal_traverse _ q body Hq Hbody (pre ++ [q]) post) in Hrun1;
      [|by rewrite <- app_assoc].
    apply scan_run_suffix in Hrun1 as (new & -> & Hnew).
    apply Forall_app. split.
    - eapply Forall_impl; [exact Hend|]. simpl. by left.
    - eapply Forall_impl; [exact Hnew|]. simpl. intros sp Hsp. right.
      rewrite length_app in Hsp. simpl in Hsp. lia. }
  split; [exact Hlit|].
  intros pre q body post Hcode Hq Hbody Hpre Hlast.
  apply (Hlit pre q body post Hcode Hq Hbody).
  rewrite Hcode. by apply reach_plain.
Qed.

Lemma find_comment_spans_spec_witness :
  find_comment_spans literal_example = [(14, 16, line)]
  /\ Forall (fun sp => span_end sp <= 4 \/ 4 + 4 + 2 < span_start sp)
            (find_comment_spans literal_example)
  /\ find_comment_spans second_literal_example = [(23, 26, block)]
  /\ Forall (fun sp => span_end sp <= 13 \/ 13 + 4 + 2 < span_start sp)
            (find_comment_spans second_literal_example).
Proof.
  split; [vm_compute; reflexivity|]. split; [|split; [vm_compute; reflexivity|]].
  - apply (proj2 (proj2 (proj2 (proj2 (find_comment_spans_spec literal_example))))
             (lit "s = ") 34%N (lit "a//b") (lit "; // c")).
    + reflexivity.
    + by left.
    + repeat (apply lit_body_plain; [discriminate|discriminate|]).
      apply lit_body_nil.
    + repeat (constructor; [by vm_compute|]). constructor.
    + by vm_compute.
  - apply (proj1 (proj2 (proj2 (proj2 (find_comment_spans_spec second_literal_example))))
             (lit "c = '/'; s = ") 34%N (lit "a/*b") (lit "; /* c */")).
    + reflexivity.
    + by left.
    + repeat (apply lit_body_plain; [discriminate|discriminate|]).
      apply lit_body_nil.
    + apply (reach_step _ 12 normal 13 normal None); [|vm_compute; lia|reflexivity].
      apply (reach_step _ 11 normal 12 normal None); [|vm_compute; lia|reflexivity].
      apply (reach_step _ 10 normal 11 normal None); [|vm_compute; lia|reflexivity].
      apply (reach_step _ 9 normal 10 normal None); [|vm_compute; lia|reflexivity].
      apply (reach_step _ 8 normal 9 normal None); [|vm_compute; lia|reflexivity].
      apply (reach_step _ 7 normal 8 normal None); [|vm_compute; lia|reflexivity].
      apply (reach_step _ 6 squote 7 normal None); [|vm_compute; lia|reflexivity].
      apply (reach_step _ 5 squote 6 squote None); [|vm_compute; lia|reflexivity].
      apply (reach_step _ 4 normal 5 squote None); [|vm_compute; lia|reflexivity].
      apply (reach_step _ 3 normal 4 normal None); [|vm_compute; lia|reflexivity].
      apply (reach_step _ 2 normal 3 normal None); [|vm_compute; lia|reflexivity].
      apply (reach_step _ 1 normal 2 normal None); [|vm_compute; lia|reflexivity].
      apply (reach_step _ 0 normal 1 normal None); [|vm_compute; lia|reflexivity].
      apply reach_init.
Defined.

(** ** The cache and the backend *)

Lemma parse_from_length (translated : list N) (n i k : nat) (out : list (list N)) :
  parse_from translated n i k = Some out -> length out = k.
Proof.
  revert i out. induction k as [|k IH]; intros i out; cbn [parse_from].
  - by intros [= <-].
  - destruct (find (marker i) translated 0); [|done].
    destruct (find _ translated _); [|done].
    destruct (parse_from translated n (S i) k) eqn:E; [|done].
    intros [= <-]. simpl. f_equal. by eapply IH.
Qed.

Lemma parse_group_length (n : nat) (translated : list N) (out : list (list N)) :
  parse_group n translated = Some out -> length out = n.
Proof.
  unfold parse_group. destruct (negb _); [done|]. apply parse_from_length.
Qed.

Lemma asks_only_refl (allowed : list N -> Prop) (l : list request) :
  asks_only allowed l l.
Proof. exists []. by rewrite app_nil_r. Qed.

Lemma asks_only_trans (allowed : list N -> Prop) (a b c : list request) :
  asks_only allowed a b -> asks_only allowed b c -> asks_only allowed a c.
Proof.
  intros (n1 & -> & H1) (n2 & -> & H2). exists (n1 ++ n2).
  split; [by rewrite app_assoc|]. by apply Forall_app.
Qed.

Section BackendFacts.
Context {World : Type}.
Implicit Types (tr : translator World) (s : io World).

Lemma call_asks (allowed : list N -> Prop) tr (r : request) s s' reply :
  Forall allowed (request_fragments r) ->
  call tr r s = (s', reply) -> asks_only allowed (calls s) (calls s').
Proof.
  intros Hr. unfold call. destruct (tr (world s) (request_text r)) as [w x].
  intros [= <- _]. simpl. exists [r]. by repeat constructor.
Qed.

Lemma group_attempts_spec (allowed : list N -> Prop) (n : nat) tr
    (vals : list (list N)) s s' res :
  Forall allowed vals ->
  group_attempts n tr vals s = (s', res) ->
  asks_only allowed (calls s) (calls s')
  /\ forall out, res = Some out -> length out = length vals.
Proof.
  intros Hvals. revert s. induction n as [|n IH]; intros s; cbn [group_attempts].
  - intros [= <- <-]. split; [apply asks_only_refl|done].
  - unfold translate_group_payload.
    destruct (call tr (Group vals) s) as [s1 reply] eqn:Hcall.
    apply (call_asks allowed) in Hcall; [|done].
    destruct reply as [translated|].
    + destruct (parse_group (length vals) translated) as [out|] eqn:Hp.
      * intros [= <- <-]. split; [done|]. intros ? [= <-].
        by apply parse_group_length in Hp.
      * intros [Ha Hl]%IH. split; [by eapply asks_only_trans|done].
    + intros [Ha Hl]%IH. split; [by eapply asks_only_trans|done].
Qed.

Lemma single_attempts_asks (allowed : list N -> Prop) (n : nat) tr
    (t : list N) s s' res :
  allowed t ->
  single_attempts n tr t s = (s', res) ->
  asks_only allowed (calls s) (calls s').
Proof.
  intros Ht. revert s. induction n as [|n IH]; intros s; cbn [single_attempts].
  - intros [= <- <-]. apply asks_only_refl.
  - destruct (call tr (Single t) s) as [s1 reply] eqn:Hcall.
    apply (call_asks allowed) in Hcall; [|by repeat constructor].
    destruct reply; [by intros [= <- <-]|].
    intros Ha%IH. by eapply asks_only_trans.
Qed.

(** Storing under the keys [texts\[i\]], for indexes [i] that are in range:
    the other keys keep their values and no key is lost. *)
Lemma store_spec (texts : list (list N)) (pairs : list (nat * list N))
    (cache : gmap (list N) (list N)) :
  Forall (fun i => is_Some (texts !! i)) pairs.*1 ->
  exists cache', store texts pairs cache = Some cache'
    /\ (forall k, Forall (fun i => texts !! i <> Some k) pairs.*1 ->
          cache' !! k = cache !! k)
    /\ (forall k, is_Some (cache !! k) -> is_Some (cache' !! k))
    /\ Forall (fun i => forall k, texts !! i = Some k -> is_Some (cache' !! k))
              pairs.*1.
Proof.
  revert cache. induction pairs as [|[i v] pairs IH]; intros cache Hidx.
  - exists cache. by repeat split.
  - simpl in Hidx. apply Forall_cons in Hidx as [[key Hkey] Hidx].
    cbn [store]. rewrite Hkey.
    destruct (IH (<[key := v]> cache) Hidx) as (cache' & -> & Hother & Hkeep & Hset).
    exists cache'. split; [done|]. split; [|split].
    + intros k [Hk Hks]%Forall_cons. rewrite Hother by done.
      apply lookup_insert_ne. simpl in Hk. congruence.
    + intros k Hk. apply Hkeep. destruct (decide (key = k)) as [->|Hne].
      * rewrite lookup_insert_eq. by eexists.
      * by rewrite lookup_insert_ne.
    + simpl. constructor; [|done]. intros k Hk.
      assert (k = key) as -> by congruence.
      apply Hkeep. rewrite lookup_insert_eq. by eexists.
Qed.

Lemma enumerate_from_lookup (i : nat) (texts : list (list N)) (j : nat) (t : list N) :
  (j, t) ∈ enumerate_from i texts <-> i <= j /\ texts !! (j - i) = Some t.
Proof.
  revert i. induction texts as [|u texts IH]; intros i; simpl.
  - rewrite elem_of_nil. split; [done|]. by intros [_ Hl].
  - rewrite elem_of_cons, IH. split.
    + intros [[= -> ->]|[Hle Hl]].
      * rewrite Nat.sub_diag. done.
      * split; [lia|]. by replace (j - i) with (S (j - S i)) by lia.
    + intros [Hle Hl]. destruct (decide (j = i)) as [->|Hne].
      * left. rewrite Nat.sub_diag in Hl. simpl in Hl. congruence.
      * right. split; [lia|].
        by replace (j - i) with (S (j - S i)) in Hl by lia.
Qed.

Lemma missing_items_spec (texts : list (list N)) (cache : gmap (list N) (list N))
    (it : nat * list N) :
  it ∈ missing_items texts cache
  <-> texts !! it.1 = Some it.2 /\ cache !! it.2 = None.
Proof.
  unfold missing_items. rewrite list_elem_of_filter. destruct it as [j t].
  rewrite enumerate_from_lookup, Nat.sub_0_r. simpl.
  split; [by intros [Hc [_ Hl]]|]. intros [Hl Hc]. split; [done|]. split; [lia|done].
Qed.

Lemma missing_items_nil (texts : list (list N)) (cache : gmap (list N) (list N)) :
  (forall t, t ∈ texts -> is_Some (cache !! t)) ->
  missing_items texts cache = [].
Proof.
  intros Hall. destruct (missing_items texts cache) as [|it l] eqn:E; [done|].
  assert (it ∈ missing_items texts cache) as Hit by (rewrite E; by left).
  apply missing_items_spec in Hit as [Hl Hc].
  apply list_elem_of_lookup_2 in Hl. apply Hall in Hl as [v Hv]. congruence.
Qed.

Lemma missing_items_cover (texts : list (list N)) (cache : gmap (list N) (list N))
    (t : list N) :
  t ∈ texts -> is_Some (cache !! t) \/ exists i, (i, t) ∈ missing_items texts cache.
Proof.
  intros [i Hi]%list_elem_of_lookup_1.
  destruct (cache !! t) as [v|] eqn:E; [left; by eexists|].
  right. exists i. by apply missing_items_spec.
Qed.

End BackendFacts.

Lemma store_batch (texts : list (list N)) (cache0 cache : gmap (list N) (list N))
    (batch : list (nat * list N)) (tv : list (list N)) :
  batch_missing texts cache0 batch ->
  length tv = length batch ->
  (forall k, is_Some (cache0 !! k) -> cache !! k = cache0 !! k) ->
  exists cache', store texts (zip (map fst batch) tv) cache = Some cache'
    /\ (forall k, is_Some (cache0 !! k) -> cache' !! k = cache0 !! k)
    /\ (forall k, is_Some (cache !! k) -> is_Some (cache' !! k))
    /\ Forall (fun it => is_Some (cache' !! it.2)) batch.
Proof.
  intros Hb Hlen Hagree.
  assert ((zip (map fst batch) tv).*1 = map fst batch) as Hfst
    by (apply fst_zip; rewrite length_map; lia).
  destruct (store_spec texts (zip (map fst batch) tv) cache)
    as (cache' & Hst & Hother & Hkeep & Hset).
  { rewrite Hfst. apply Forall_fmap. eapply Forall_impl; [exact Hb|].
    intros it [Ht _]. simpl. by eexists. }
  exists cache'. split; [done|]. rewrite Hfst in Hother, Hset.
  split; [|split; [done|]].
  - intros k Hk. rewrite Hother; [by apply Hagree|].
    apply Forall_fmap. eapply Forall_impl; [exact Hb|].
    intros it [Ht Hc]. simpl. intros Hk'.
    assert (it.2 = k) as <- by congruence. destruct Hk as [v Hv]. congruence.
  - apply Forall_fmap in Hset. rewrite Forall_forall in Hset.
    unfold batch_missing in Hb. rewrite Forall_forall in Hb.
    apply Forall_forall. intros it Hit. destruct (Hb it Hit) as [Ht _].
    by apply (Hset it Hit).
Qed.

Section LearncppCache.
Context {World : Type}.
Implicit Types (tr : translator World) (s : io World).

Lemma learncpp_translate_each_spec (allowed : list N -> Prop) tr
    (vals : list (list N)) s s' xs :
  Forall allowed vals ->
  Learncpp.translate_each tr vals s = (s', xs) ->
  asks_only allowed (calls s) (calls s') /\ length xs = length vals.
Proof.
  intros Hvals. revert s s' xs.
  induction Hvals as [|t vals Ht Hvals IH]; intros s s' xs; cbn [Learncpp.translate_each].
  - intros [= <- <-]. split; [apply asks_only_refl|done].
  - destruct (single_attempts 5 tr t s) as [s1 reply] eqn:E1.
    apply (single_attempts_asks allowed) in E1; [|done].
    destruct (Learncpp.translate_each tr vals s1) as [s2 ys] eqn:E2.
    apply IH in E2 as [Ha Hl]. intros [= <- <-].
    split; [by eapply asks_only_trans|]. simpl. by rewrite Hl.
Qed.

Lemma learncpp_translate_batches_spec tr (texts : list (list N))
    (cache0 : gmap (list N) (list N)) (batches : list (list (nat * list N)))
    (cache : gmap (list N) (list N)) s :
  Forall (batch_missing texts cache0) batches ->
  (forall k, is_Some (cache0 !! k) -> cache !! k = cache0 !! k) ->
  exists s' cache',
    Learncpp.translate_batches tr texts batches cache s = (s', Some cache')
    /\ asks_only (fun t => t ∈ texts /\ cache0 !! t = None) (calls s) (calls s')
    /\ (forall k, is_Some (cache0 !! k) -> cache' !! k = cache0 !! k)
    /\ (forall k, is_Some (cache !! k) -> is_Some (cache' !! k))
    /\ Forall (Forall (fun it => is_Some (cache' !! it.2))) batches.
Proof.
  intros Hbs. revert cache s.
  induction Hbs as [|batch batches Hb Hbs IH]; intros cache s Hagree.
  - exists s, cache. split; [done|]. split; [apply asks_only_refl|done].
  - cbn [Learncpp.translate_batches].
    assert (Forall (fun t => t ∈ texts /\ cache0 !! t = None) (map snd batch)) as Hvals.
    { apply Forall_fmap. eapply Forall_impl; [exact Hb|].
      intros it [Ht Hc]. simpl. split; [|done]. by eapply list_elem_of_lookup_2. }
    destruct (group_attempts 5 tr (map snd batch) s) as [s1 res] eqn:E1.
    eapply group_attempts_spec in E1 as [Ha1 Hl1]; [|exact Hvals].
    assert (exists s2 tv,
      (match res with
       | Some out => (s1, out)
       | None => Learncpp.translate_each tr (map snd batch) s1
       end) = (s2, tv)
      /\ asks_only (fun t => t ∈ texts /\ cache0 !! t = None) (calls s1) (calls s2)
      /\ length tv = length batch) as (s2 & tv & -> & Ha2 & Hl2).
    { destruct res as [out|].
      - exists s1, out. split; [done|]. split; [apply asks_only_refl|].
        rewrite (Hl1 out eq_refl). apply length_map.
      - destruct (Learncpp.translate_each tr (map snd batch) s1) as [s2 tv] eqn:E2.
        eapply learncpp_translate_each_spec in E2 as [Ha Hl]; [|exact Hvals].
        exists s2, tv. split; [done|]. split; [done|].
        rewrite Hl. apply length_map. }
    destruct (store_batch texts cache0 cache batch tv Hb Hl2 Hagree)
      as (cache1 & -> & Hagree1 & Hkeep1 & Hset1).
    destruct (IH cache1 s2) as (s' & cache' & -> & Ha3 & Hagree' & Hkeep' & Hset').
    { intros k Hk. by apply Hagree1. }
    exists s', cache'. split; [done|].
    split; [eapply asks_only_trans; [exact Ha1|]; by eapply asks_only_trans|].
    split; [done|]. split; [by auto|].
    constructor; [|done]. eapply Forall_impl; [exact Hset1|].
    intros it Hit. by apply Hkeep'.
Qed.

End LearncppCache.

Section CodeCommentsCache.
Context `{PyTables} {World : Type}.
Implicit Types (tr : translator World) (s : io World).

Lemma translate_one_loop_asks (allowed : list N -> Prop)
    (trs : list (translator World)) (text last : list N) s s' x :
  allowed text ->
  CodeComments.translate_one_loop trs text last s = (s', x) ->
  asks_only allowed (calls s) (calls s').
Proof.
  intros Ht. revert last s.
  induction trs as [|tr trs IH]; intros last s; cbn [CodeComments.translate_one_loop].
  - intros [= <- _]. apply asks_only_refl.
  - destruct (single_attempts 4 tr text s) as [s1 reply] eqn:E1.
    apply (single_attempts_asks allowed) in E1; [|done].
    destruct reply as [reply|].
    + destruct (negb _).
      * by intros [= <- _].
      * intros Ha%IH. by eapply asks_only_trans.
    + intros Ha%IH. by eapply asks_only_trans.
Qed.

Lemma code_comments_translate_each_spec (allowed : list N -> Prop)
    (tr_en tr_auto : translator World) (vals : list (list N)) s s' xs :
  Forall allowed vals ->
  CodeComments.translate_each tr_en tr_auto vals s = (s', xs) ->
  asks_only allowed (calls s) (calls s') /\ length xs = length vals.
Proof.
  intros Hvals. revert s s' xs.
  induction Hvals as [|t vals Ht Hvals IH]; intros s s' xs;
    cbn [CodeComments.translate_each].
  - intros [= <- <-]. split; [apply asks_only_refl|done].
  - destruct (CodeComments.translate_one t tr_en tr_auto s) as [s1 x] eqn:E1.
    apply (translate_one_loop_asks allowed) in E1; [|done].
    destruct (CodeComments.translate_each tr_en tr_auto vals s1) as [s2 ys] eqn:E2.
    apply IH in E2 as [Ha Hl]. intros [= <- <-].
    split; [by eapply asks_only_trans|]. simpl. by rewrite Hl.
Qed.

Lemma fix_vals_spec (allowed : list N -> Prop)
    (tr_en tr_auto : translator World) (pairs : list (list N * list N)) s s' xs :
  Forall allowed pairs.*1 ->
  CodeComments.fix_vals tr_en tr_auto pairs s = (s', xs) ->
  asks_only allowed (calls s) (calls s') /\ length xs = length pairs.
Proof.
  revert s s' xs. induction pairs as [|[src t] pairs IH]; intros s s' xs Hp;
    cbn [CodeComments.fix_vals].
  - intros [= <- <-]. split; [apply asks_only_refl|done].
  - simpl in Hp. apply Forall_cons in Hp as [Hsrc Hp].
    destruct (if CodeComments.is_bad_translation src _ then _ else _)
      as [s1 x] eqn:E1.
    assert (asks_only allowed (calls s) (calls s1)) as Ha1.
    { destruct (CodeComments.is_bad_translation src _).
      - by apply (translate_one_loop_asks allowed) in E1.
      - injection E1 as <- _. apply asks_only_refl. }
    destruct (CodeComments.fix_vals tr_en tr_auto pairs s1) as [s2 ys] eqn:E2.
    apply IH in E2 as [Ha Hl]; [|done]. intros [= <- <-].
    split; [by eapply asks_only_trans|]. simpl. by rewrite Hl.
Qed.

Lemma code_comments_translate_batches_spec (tr_auto tr_en : translator World)
    (texts : list (list N)) (cache0 : gmap (list N) (list N))
    (batches : list (list (nat * list N))) (cache : gmap (list N) (list N)) s :
  Forall (batch_missing texts cache0) batches ->
  (forall k, is_Some (cache0 !! k) -> cache !! k = cache0 !! k) ->
  exists s' cache',
    CodeComments.translate_batches tr_auto tr_en texts batches cache s
      = (s', Some cache')
    /\ asks_only (fun t => t ∈ texts /\ cache0 !! t = None) (calls s) (calls s')
    /\ (forall k, is_Some (cache0 !! k) -> cache' !! k = cache0 !! k)
    /\ (forall k, is_Some (cache !! k) -> is_Some (cache' !! k))
    /\ Forall (Forall (fun it => is_Some (cache' !! it.2))) batches.
Proof.
  intros Hbs. revert cache s.
  induction Hbs as [|batch batches Hb Hbs IH]; intros cache s Hagree.
  - exists s, cache. split; [done|]. split; [apply asks_only_refl|done].
  - cbn [CodeComments.translate_batches].
    assert (Forall (fun t => t ∈ texts /\ cache0 !! t = None) (map snd batch)) as Hvals.
    { apply Forall_fmap. eapply Forall_impl; [exact Hb|].
      intros it [Ht Hc]. simpl. split; [|done]. by eapply list_elem_of_lookup_2. }
    destruct (group_attempts 5 tr_auto (map snd batch) s) as [s1 res] eqn:E1.
    eapply group_attempts_spec in E1 as [Ha1 Hl1]; [|exact Hvals].
    assert (exists s2 tv,
      (match res with
       | None => CodeComments.translate_each tr_en tr_auto (map snd batch) s1
       | Some out =>
         CodeComments.fix_vals tr_en tr_auto (zip (map snd batch) out) s1
       end) = (s2, tv)
      /\ asks_only (fun t => t ∈ texts /\ cache0 !! t = None) (calls s1) (calls s2)
      /\ length tv = length batch) as (s2 & tv & -> & Ha2 & Hl2).
    { destruct res as [out|].
      - specialize (Hl1 out eq_refl).
        destruct (CodeComments.fix_vals tr_en tr_auto _ s1) as [s2 tv] eqn:E2.
        eapply fix_vals_spec in E2 as [Ha Hl].
        + exists s2, tv. split; [done|]. split; [done|].
          rewrite Hl, length_zip, Hl1, length_map. lia.
        + rewrite fst_zip by lia. exact Hvals.
      - destruct (CodeComments.translate_each tr_en tr_auto _ s1) as [s2 tv] eqn:E2.
        eapply code_comments_translate_each_spec in E2 as [Ha Hl]; [|exact Hvals].
        exists s2, tv. split; [done|]. split; [done|].
        rewrite Hl. apply length_map. }
    destruct (store_batch texts cache0 cache batch tv Hb Hl2 Hagree)
      as (cache1 & -> & Hagree1 & Hkeep1 & Hset1).
    destruct (IH cache1 s2) as (s' & cache' & -> & Ha3 & Hagree' & Hkeep' & Hset').
    { intros k Hk. by apply Hagree1. }
    exists s', cache'. split; [done|].
    split; [eapply asks_only_trans; [exact Ha1|]; by eapply asks_only_trans|].
    split; [done|]. split; [by auto|].
    constructor; [|done]. eapply Forall_impl; [exact Hset1|].
    intros it Hit. by apply Hkeep'.
Qed.

End CodeCommentsCache.

Lemma batches_of_missing (texts : list (list N)) (cache : gmap (list N) (list N))
    (batches : list (list (nat * list N))) :
  concat batches = missing_items texts cache ->
  Forall (batch_missing texts cache) batches.
Proof.
  intros Hc. apply Forall_forall. intros batch Hb.
  apply Forall_forall. intros it Hit.
  apply missing_items_spec. rewrite <- Hc.
  apply list_elem_of_In, in_concat. exists batch.
  split; by apply list_elem_of_In.
Qed.

(** After the batches, every text has a key. *)
Lemma all_resolved (texts : list (list N)) (cache cache' : gmap (list N) (list N))
    (batches : list (list (nat * list N))) :
  concat batches = missing_items texts cache ->
  (forall k, is_Some (cache !! k) -> is_Some (cache' !! k)) ->
  Forall (Forall (fun it => is_Some (cache' !! it.2))) batches ->
  forall t, t ∈ texts -> is_Some (cache' !! t).
Proof.
  intros Hc Hkeep Hset t Ht.
  destruct (missing_items_cover texts cache t Ht) as [Hin|[i Hi]]; [by apply Hkeep|].
  rewrite <- Hc in Hi.
  apply list_elem_of_In, in_concat in Hi as (batch & Hb & Hit).
  apply list_elem_of_In in Hb, Hit.
  rewrite Forall_forall in Hset. specialize (Hset batch Hb).
  rewrite Forall_forall in Hset. by apply (Hset (i, t)).
Qed.

Lemma learncpp_translate_missing_ok {World : Type}
    (texts : list (list N)) (cache : gmap (list N) (list N))
    (tr : translator World) (s : io World) :
  respects_cache texts cache s
    (fun cache s => Learncpp.translate_missing texts cache tr s).
Proof.
  unfold respects_cache. unfold Learncpp.translate_missing at 1.
  destruct (missing_items texts cache) as [|it l] eqn:Hm; cbn [is_nil].
  - assert (forall t, t ∈ texts -> is_Some (cache !! t)) as Hall.
    { intros t Ht. destruct (missing_items_cover texts cache t Ht) as [?|[i Hi]];
        [done|]. rewrite Hm in Hi. by apply elem_of_nil in Hi. }
    exists s, cache. split; [done|]. split; [apply asks_only_refl|].
    split; [done|]. split; [done|].
    intros s2. unfold Learncpp.translate_missing. by rewrite Hm.
  - rewrite <- Hm.
    destruct (learncpp_build_batches_ok (missing_items texts cache) MAX_LEN)
      as [Hc _].
    destruct (learncpp_translate_batches_spec tr texts cache
                (Learncpp.build_batches (missing_items texts cache) MAX_LEN)
                cache s (batches_of_missing _ _ _ Hc) (fun k _ => eq_refl))
      as (s' & cache' & -> & Ha & Hagree & Hkeep & Hset).
    exists s', cache'. split; [done|]. split; [done|].
    pose proof (all_resolved _ _ _ _ Hc Hkeep Hset) as Hall.
    split; [|split; [done|]].
    + intros k v Hk. rewrite Hagree by (by eexists). done.
    + intros s2. unfold Learncpp.translate_missing.
      by rewrite missing_items_nil.
Qed.

Lemma code_comments_translate_missing_ok `{PyTables} {World : Type}
    (texts : list (list N)) (cache : gmap (list N) (list N))
    (tr_auto tr_en : translator World) (s : io World) :
  respects_cache texts cache s
    (fun cache s => CodeComments.translate_missing texts cache tr_auto tr_en s).
Proof.
  unfold respects_cache. unfold CodeComments.translate_missing at 1.
  destruct (missing_items texts cache) as [|it l] eqn:Hm; cbn [is_nil].
  - assert (forall t, t ∈ texts -> is_Some (cache !! t)) as Hall.
    { intros t Ht. destruct (missing_items_cover texts cache t Ht) as [?|[i Hi]];
        [done|]. rewrite Hm in Hi. by apply elem_of_nil in Hi. }
    exists s, cache. split; [done|]. split; [apply asks_only_refl|].
    split; [done|]. split; [done|].
    intros s2. unfold CodeComments.translate_missing. by rewrite Hm.
  - rewrite <- Hm.
    destruct (code_comments_build_batches_ok (missing_items texts cache) MAX_LEN)
      as [Hc _].
    destruct (code_comments_translate_batches_spec tr_auto tr_en texts cache
                (CodeComments.build_batches (missing_items texts cache) MAX_LEN)
                cache s (batches_of_missing _ _ _ Hc) (fun k _ => eq_refl))
      as (s' & cache' & -> & Ha & Hagree & Hkeep & Hset).
    exists s', cache'. split; [done|]. split; [done|].
    pose proof (all_resolved _ _ _ _ Hc Hkeep Hset) as Hall.
    split; [|split; [done|]].
    + intros k v Hk. rewrite Hagree by (by eexists). done.
    + intros s2. unfold CodeComments.translate_missing.
      by rewrite missing_items_nil.
Qed.

(** C8: in both drivers [translate_missing] ends without an exception; the
    requests it makes to the backend are for texts of the list that are not
    keys of the cache; every entry of the cache keeps its value; afterwards
    every text of the list is a key, and a second call with the resulting
    cache makes no request and leaves the cache as it is. *)
Theorem translate_missing_respects_cache `{PyTables} {World : Type}
    (texts : list (list N)) (cache : gmap (list N) (list N))
    (tr tr_auto tr_en : translator World) (s : io World) :
  (exists s' cache',
     Learncpp.translate_missing texts cache tr s = (s', Some cache')
     /\ asks_only (fun t => t ∈ texts /\ cache !! t = None) (calls s) (calls s')
     /\ (forall k v, cache !! k = Some v -> cache' !! k = Some v)
     /\ (forall t, t ∈ texts -> is_Some (cache' !! t))
     /\ (forall s2, Learncpp.translate_missing texts cache' tr s2
                    = (s2, Some cache')))
  /\
  (exists s' cache',
     CodeComments.translate_missing texts cache tr_auto tr_en s = (s', Some cache')
     /\ asks_only (fun t => t ∈ texts /\ cache !! t = None) (calls s) (calls s')
     /\ (forall k v, cache !! k = Some v -> cache' !! k = Some v)
     /\ (forall t, t ∈ texts -> is_Some (cache' !! t))
     /\ (forall s2, CodeComments.translate_missing texts cache' tr_auto tr_en s2
                    = (s2, Some cache'))).
Proof.
  split.
  - apply (learncpp_translate_missing_ok texts cache tr s).
  - apply (code_comments_translate_missing_ok texts cache tr_auto tr_en s).
Qed.

(** ** The lexical scanner of [translate_learncpp_pl.py] *)

Lemma enumerate_from_app (i : nat) (a b : list (list N)) :
  enumerate_from i (a ++ b) = enumerate_from i a ++ enumerate_from (i + length a) b.
Proof.
  revert i. induction a as [|t a IH]; intros i; simpl.
  - by rewrite Nat.add_0_r.
  - rewrite IH. by replace (S i + length a) with (i + S (length a)) by lia.
Qed.

Section Scanner.
Context `{PyTables}.

Lemma scan_parts_snoc (parts : list (list N)) (token : list N) :
  Learncpp.scan_parts (parts ++ [token])
  = Learncpp.scan_token (Learncpp.scan_parts parts) (length parts, token).
Proof.
  unfold Learncpp.scan_parts. rewrite enumerate_from_app, fold_left_app. done.
Qed.

Lemma stack_after_snoc (parts : list (list N)) (token : list N) (k : nat) :
  k <= length parts -> stack_after (parts ++ [token]) k = stack_after parts k.
Proof. intros Hk. unfold stack_after. by rewrite take_app_le. Qed.

Lemma stack_after_all (parts : list (list N)) :
  stack_after parts (length parts) = (Learncpp.scan_parts parts).1.1.
Proof. unfold stack_after. by rewrite firstn_all. Qed.

Lemma attr_entries_from_snoc (parts : list (list N)) (token : list N)
    (e : Learncpp.attr_entry) :
  attr_entries_from (parts ++ [token]) e
  <-> attr_entries_from parts e
      \/ (length parts mod 2 = 1
          /\ stack_after (parts ++ [token]) (S (length parts)) = []
          /\ e ∈ Learncpp.scan_attrs (length parts) token).
Proof.
  split.
  - intros (idx & t & Hl & Hodd & Hst & He).
    destruct (decide (idx < length parts)) as [Hlt|Hge].
    + left. exists idx, t. rewrite lookup_app_l in Hl by done.
      rewrite stack_after_snoc in Hst by lia. done.
    + right. pose proof (lookup_lt_Some _ _ _ Hl) as Hb.
      rewrite length_app in Hb. simpl in Hb.
      assert (idx = length parts) as -> by lia.
      rewrite list_lookup_middle in Hl by done. by injection Hl as <-.
  - intros [(idx & t & Hl & Hodd & Hst & He)|(Hodd & Hst & He)].
    + pose proof (lookup_lt_Some _ _ _ Hl) as Hb.
      exists idx, t. rewrite lookup_app_l by done.
      rewrite stack_after_snoc by lia. done.
    + exists (length parts), token. by rewrite list_lookup_middle.
Qed.

Lemma text_entries_from_snoc (parts : list (list N)) (token : list N)
    (e : Learncpp.text_entry) :
  text_entries_from (parts ++ [token]) e
  <-> text_entries_from parts e
      \/ (length parts mod 2 = 0
          /\ stack_after parts (length parts) = []
          /\ e ∈ Learncpp.scan_text (length parts) token).
Proof.
  split.
  - intros (idx & t & Hl & Hodd & Hst & He).
    destruct (decide (idx < length parts)) as [Hlt|Hge].
    + left. exists idx, t. rewrite lookup_app_l in Hl by done.
      rewrite stack_after_snoc in Hst by lia. done.
    + right. pose proof (lookup_lt_Some _ _ _ Hl) as Hb.
      rewrite length_app in Hb. simpl in Hb.
      assert (idx = length parts) as -> by lia.
      rewrite list_lookup_middle in Hl by done. injection Hl as <-.
      rewrite stack_after_snoc in Hst by lia. done.
  - intros [(idx & t & Hl & Hodd & Hst & He)|(Hodd & Hst & He)].
    + pose proof (lookup_lt_Some _ _ _ Hl) as Hb.
      exists idx, t. rewrite lookup_app_l by done.
      rewrite stack_after_snoc by lia. done.
    + exists (length parts), token. rewrite list_lookup_middle by done.
      rewrite stack_after_snoc by lia. done.
Qed.

Lemma scan_parts_entries (parts : list (list N)) :
  (forall e, e ∈ (Learncpp.scan_parts parts).2 <-> attr_entries_from parts e)
  /\ (forall e, e ∈ (Learncpp.scan_parts parts).1.2 <-> text_entries_from parts e).
Proof.
  induction parts as [|token parts [IHa IHt]] using rev_ind.
  - split; intros e; (split; [by intros ?%elem_of_nil|]);
      by intros (idx & t & Hl & _).
  - pose proof (stack_after_all (parts ++ [token])) as Hstack.
    pose proof (stack_after_all parts) as Hstack0.
    rewrite length_app in Hstack. simpl in Hstack.
    replace (length parts + 1) with (S (length parts)) in Hstack by lia.
    rewrite scan_parts_snoc in *.
    destruct (Learncpp.scan_parts parts) as [[stack te] ae].
    unfold Learncpp.scan_token in *. cbn [fst snd] in Hstack0, IHa, IHt.
    destruct (Nat.eqb_spec (length parts mod 2) 1) as [Hodd|Hodd].
    + destruct (Learncpp.update_stack stack token) as [|top rest] eqn:Hup;
        cbn [is_nil negb fst snd] in *; (split; intros e).
      * rewrite attr_entries_from_snoc, elem_of_app, IHa, Hstack. by intuition.
      * rewrite text_entries_from_snoc, IHt. split; [by left|].
        intros [?|(Heven & _)]; [done|lia].
      * rewrite attr_entries_from_snoc, IHa, Hstack. split; [by left|].
        intros [?|(_ & ? & _)]; done.
      * rewrite text_entries_from_snoc, IHt. split; [by left|].
        intros [?|(Heven & _)]; [done|lia].
    + assert (length parts mod 2 = 0) as Heven.
      { pose proof (Nat.mod_upper_bound (length parts) 2). lia. }
      destruct stack as [|top rest]; cbn [is_nil negb fst snd] in *;
        (split; intros e).
      * rewrite attr_entries_from_snoc, IHa. split; [by left|].
        intros [?|(? & _)]; [done|lia].
      * rewrite text_entries_from_snoc, elem_of_app, IHt, Hstack0. by intuition.
      * rewrite attr_entries_from_snoc, IHa. split; [by left|].
        intros [?|(? & _)]; [done|lia].
      * rewrite text_entries_from_snoc, IHt, Hstack0. split; [by left|].
        intros [?|(_ & ? & _)]; done.
Qed.

End Scanner.

(** C1 (as amended): the attribute entries of a document are the allow-listed,
    translatable attributes of the tag tokens after whose own push or pop the
    stack is empty, and no others: attributes of a tag that opens an opaque
    element, or that stands inside one, are not scanned.  The text entries
    are those of the text tokens met with an empty stack. *)
Theorem scan_eligibility `{PyTables} (original : list N) :
  let parts := Learncpp.TAG_SPLIT_RE_split original in
  let '(_, text_entries, attr_entries) := Learncpp.scan_parts parts in
  (forall e, e ∈ attr_entries <->
     exists idx token, parts !! idx = Some token /\ idx mod 2 = 1
       /\ stack_after parts (S idx) = [] /\ e ∈ Learncpp.scan_attrs idx token)
  /\ (forall e, e ∈ text_entries <->
     exists idx token, parts !! idx = Some token /\ idx mod 2 = 0
       /\ stack_after parts idx = [] /\ e ∈ Learncpp.scan_text idx token).
Proof.
  intros parts. pose proof (scan_parts_entries parts) as [Ha Ht].
  by destruct (Learncpp.scan_parts parts) as [[stack te] ae].
Qed.

(** C1, the claim as stated fails: the [title] of a [<pre>] tag is in the
    allow-list and translatable, but the tag pushes [pre] on the stack and
    the attribute scan, which is guarded by [if not skip_stack], is skipped.
    The document is in ASCII, where the tables are Python's, and has no [&]:
    the replacement of character references plays no part. *)
Lemma attribute_of_opaque_tag_skipped :
  Learncpp.TAG_SPLIT_RE_split opaque_tag_example = [[]; opaque_tag_example; []]
  /\ (forall sub,
        @Learncpp.scan_attrs (ascii_tables_with sub) 1 opaque_tag_example
        = [(1, 12, 17, lit "Hello", lit "Hello")])
  /\ (forall sub,
        @Learncpp.scan_parts (ascii_tables_with sub)
          (Learncpp.TAG_SPLIT_RE_split opaque_tag_example)
        = ([lit "pre"], [], [])).
Proof. repeat split; intros; vm_compute; reflexivity. Qed.

(** ** Rewriting a comment body twice *)

Lemma take_while_app_stop (p : N -> bool) (l : list N) (a : N) (r : list N) :
  forallb p l = true -> p a = false -> take_while p (l ++ a :: r) = l.
Proof.
  intros Hl Ha. induction l as [|c l IH]; simpl in *; [by rewrite Ha|].
  apply andb_true_iff in Hl as [-> Hl]. by rewrite IH.
Qed.

(** [split_ws] finds the parts a text was built from. *)
Lemma split_ws_unique (l m t : list N) (a b : N) :
  forallb isspace l = true -> forallb isspace t = true ->
  head m = Some a -> last m = Some b ->
  isspace a = false -> isspace b = false ->
  split_ws (l ++ m ++ t) = (l, m, t).
Proof.
  intros Hl Ht Hhead Hlast Ha Hb.
  destruct m as [|a' m']; [done|]. injection Hhead as ->.
  assert (forallb isspace (l ++ (a :: m') ++ t) = false) as Hnb.
  { rewrite !forallb_app. simpl. rewrite Ha. simpl. by rewrite andb_false_r. }
  destruct (split_ws_nonblank _ Hnb) as (a1 & b1 & mid & Hsplit & Heq & _).
  rewrite Hsplit.
  assert (take_while isspace (l ++ (a :: m') ++ t) = l) as Hlead.
  { cbn [app]. by apply take_while_app_stop. }
  destruct (TRAIL_WS_RE_search_spec (l ++ (a :: m') ++ t))
    as (pre & Hpre & Hws & Hpl).
  assert (TRAIL_WS_RE_search (l ++ (a :: m') ++ t) = t) as Htrail.
  { set (trail := TRAIL_WS_RE_search _) in *.
    assert ((l ++ a :: m') ++ t = pre ++ trail) as Heq2
      by (rewrite <- app_assoc; exact Hpre).
    assert (last (l ++ a :: m') = Some b) as Hlb
      by (rewrite last_app, Hlast; done).
    apply app_eq_inv in Heq2 as [(k & Hk1 & Hk2)|(k & Hk1 & Hk2)].
    - destruct k as [|x k]; [by rewrite Hk2|].
      (* [trail] would reach into [m] *)
      exfalso. rewrite Hk1 in Hlb. rewrite Hk2 in Hws.
      rewrite last_app in Hlb.
      destruct (last (x :: k)) as [y|] eqn:Hy; [|by apply last_None in Hy].
      injection Hlb as ->. apply last_Some in Hy as [k' Hk'].
      rewrite Hk' in Hws. rewrite !forallb_app in Hws. simpl in Hws.
      rewrite Hb in Hws. by rewrite andb_false_r in Hws.
    - destruct k as [|x k]; [by rewrite Hk2|].
      (* [pre] would end inside [t] *)
      exfalso. rewrite Hk2 in Ht.
      destruct (last (x :: k)) as [y|] eqn:Hy; [|by apply last_None in Hy].
      assert (last pre = Some y) as Hz by (by rewrite Hk1, last_app, Hy).
      specialize (Hpl y Hz). apply last_Some in Hy as [k' Hk'].
      rewrite Hk' in Ht. rewrite !forallb_app in Ht. simpl in Ht.
      rewrite Hpl in Ht. by rewrite andb_false_r in Ht. }
  rewrite Hlead, Htrail in *.
  apply app_inv_head in Heq. apply app_inv_tail in Heq. by rewrite Heq.
Qed.

Lemma split_ws_ends_blank (text : list N) :
  forallb isspace (split_ws text).1.1 = true
  /\ forallb isspace (split_ws text).2 = true.
Proof.
  unfold split_ws. cbn [fst snd]. split.
  - apply take_while_all.
  - by destruct (TRAIL_WS_RE_search_spec text) as (pre & _ & Hws & _).
Qed.

(** ** Running [process_file] again *)



Example find_comment_spans_ex1 :
  find_comment_spans (lit "x = 1; // one" ++ [10%N] ++ lit "/* two */ y")
  = [(9, 13, line); (16, 21, block)].
Proof. vm_compute. reflexivity. Qed.

Example find_comment_spans_ex2 :
  find_comment_spans (lit "s = " ++ [34%N] ++ lit "a//b" ++ [34%N] ++ lit "; // c")
  = [(14, 16, line)].
Proof. vm_compute. reflexivity. Qed.

(** The scenario of a comment translated into Polish: the first run rewrites
    it, the second finds nothing to do, for the translation has Polish
    letters in it. *)
Example polish_comment_settles :
  @CodeComments.process_file ascii_tables posix hello_page polish_cache
  = Some (lit "<p>Hello there</p><code>// " ++ zwroc_wartosc ++ lit "</code>", true)
  /\ @CodeComments.process_file ascii_tables posix
       (lit "<p>Hello there</p><code>// " ++ zwroc_wartosc ++ lit "</code>")
       polish_cache
     = Some (lit "<p>Hello there</p><code>// " ++ zwroc_wartosc ++ lit "</code>",
             false).
Proof. split; vm_compute; reflexivity. Qed.


(** * Further properties

    Properties of the code beyond the specification's: the functions the
    drivers are built from, how they compose, and what they do at the
    edges. *)

(** ** [split_ws], [strip] and the keys of the cache *)
Lemma rstrip_app_blank (u w : list N) :
  forallb isspace w = true -> rstrip (u ++ w) = rstrip u.
Proof.
  intros Hw. unfold rstrip. rewrite rev_app_distr. f_equal.
  assert (forallb isspace (rev w) = true) as Hr.
  { rewrite forallb_forall in *. intros x Hx. apply Hw. by apply in_rev. }
  clear Hw. induction (rev w) as [|c r IH]; [done|].
  simpl in *. apply andb_prop in Hr as [-> Hr]. by apply IH.
Qed.

Lemma split_ws_parts (text : list N) :
  split_ws text
  = (take_while isspace text, strip text,
     if forallb isspace text then text else drop (length (rstrip text)) text).
Proof.
  destruct (forallb isspace text) eqn:Hb.
  - rewrite split_ws_blank, strip_blank by done. by rewrite take_while_id.
  - destruct (split_ws_nonblank text Hb)
      as (a & b & mid & Hsplit & Htext & Hh & Hl & Ha & Hlb).
    destruct (TRAIL_WS_RE_search_spec text) as (pre & _ & Hws & _).
    set (lead := take_while isspace text) in *.
    set (trail := TRAIL_WS_RE_search text) in *.
    assert (forallb isspace lead = true) as Hlead by apply take_while_all.
    pose proof (split_ws_unique lead mid trail a b Hlead Hws Hh Hl Ha Hlb) as Hu.
    rewrite Htext in Hu.
    assert (rstrip text = lead ++ mid) as Hr.
    { rewrite <- Htext at 1. rewrite (app_assoc lead mid trail).
      rewrite rstrip_app_blank by done. apply rstrip_fix.
      intros c Hc. rewrite last_app, Hl in Hc. by injection Hc as <-. }
    assert (strip text = mid) as Hs.
    { unfold strip, lstrip.
      assert (drop_while isspace text = mid ++ trail) as ->.
      { apply (app_inv_head lead). fold lead. unfold lead at 1.
        by rewrite take_drop_while. }
      rewrite rstrip_app_blank by done. apply rstrip_fix.
      intros c Hc. rewrite Hl in Hc. by injection Hc as <-. }
    rewrite Hsplit, Hs, Hr. f_equal.
    transitivity (drop (length (lead ++ mid)) ((lead ++ mid) ++ trail)).
    { by rewrite drop_app_length. }
    f_equal. by rewrite <- app_assoc.
Qed.

Lemma split_ws_core (text : list N) : (split_ws text).1.2 = strip text.
Proof. by rewrite split_ws_parts. Qed.

(** X1: [split_ws] in terms of the string methods: lead is the leading
    whitespace, core is [text.strip()], and trail is what follows
    [text.rstrip()], except for a whitespace-only text, where lead and trail
    are both the whole text. *)
Theorem split_ws_by_strip (text : list N) :
  split_ws text
  = (take_while isspace text, strip text,
     if forallb isspace text then text else drop (length (rstrip text)) text).
Proof. apply split_ws_parts. Qed.

Lemma should_translate_strip (s : list N) :
  Learncpp.should_translate (strip s) = Learncpp.should_translate s.
Proof. unfold Learncpp.should_translate. by rewrite strip_idem. Qed.

(** X2: The second test of a text token in [process_file], on [core], never
    rejects what the first, on the decoded token, accepted: an accepted token
    gives the entry whose core is the stripped decoded token. *)
Theorem scan_text_entry `{PyTables} (idx : nat) (token : list N) :
  Learncpp.scan_text idx token
  = if Learncpp.should_translate (html_unescape token)
    then [(idx, (split_ws (html_unescape token)).1.1,
           strip (html_unescape token), (split_ws (html_unescape token)).2)]
    else [].
Proof.
  unfold Learncpp.scan_text.
  pose proof (split_ws_core (html_unescape token)) as Hcore.
  destruct (Learncpp.should_translate (html_unescape token)) eqn:Hs; [|done].
  destruct (split_ws (html_unescape token)) as [[lead core] trail].
  cbn [fst snd negb] in *. subst core.
  by rewrite should_translate_strip, Hs.
Qed.

(** [translate_body] looks up the stripped body: a body that
    [should_translate_comment] accepts becomes its leading whitespace, the
    cache's value for the stripped body (the stripped body itself when it is
    no key) and its trailing whitespace; any other body is returned as it
    is. *)
Theorem translate_body_key `{PyTables} (cache : gmap (list N) (list N)) (body : list N) :
  CodeComments.translate_body cache body
  = if CodeComments.should_translate_comment body
    then (split_ws body).1.1 ++ CodeComments.cache_get cache (strip body)
           ++ (split_ws body).2
    else body.
Proof.
  unfold CodeComments.translate_body.
  pose proof (split_ws_core body) as Hcore.
  destruct (split_ws body) as [[lead core] trail]. cbn [fst snd] in *. subst core.
  rewrite should_translate_comment_strip.
  by destruct (CodeComments.should_translate_comment body).
Qed.

(** ** [html.escape] *)

Lemma html_escape_cons (c : N) (s : list N) (quote : bool) :
  html_escape (c :: s) quote = html_escape_char quote c ++ html_escape s quote.
Proof. done. Qed.


Lemma html_escape_char_safe (quote : bool) (c : N) :
  Forall (fun x => is_markup quote x = false) (html_escape_char quote c).
Proof.
  unfold html_escape_char, is_markup.
  destruct (char_eqb c 38) eqn:E38; [destruct quote; by vm_compute; repeat constructor|].
  destruct (char_eqb c 60) eqn:E60; [destruct quote; by vm_compute; repeat constructor|].
  destruct (char_eqb c 62) eqn:E62; [destruct quote; by vm_compute; repeat constructor|].
  destruct quote; cbn [andb].
  - destruct (char_eqb c 34) eqn:E34; [by vm_compute; repeat constructor|].
    destruct (char_eqb c 39) eqn:E39; [by vm_compute; repeat constructor|].
    constructor; [|done]. by rewrite E60, E62, E34, E39.
  - constructor; [|done]. by rewrite E60, E62.
Qed.

Lemma html_escape_safe (quote : bool) (s : list N) :
  Forall (fun x => is_markup quote x = false) (html_escape s quote).
Proof.
  induction s as [|c s IH]; [done|].
  rewrite html_escape_cons. apply Forall_app. split; [|done].
  apply html_escape_char_safe.
Qed.

Lemma html_escape_plain (quote : bool) (s : list N) :
  Forall (fun x => char_eqb x 38 = false /\ is_markup quote x = false) s ->
  html_escape s quote = s.
Proof.
  induction 1 as [|c s [H38 Hm] _ IH]; [done|].
  rewrite html_escape_cons, IH. unfold html_escape_char, is_markup in *.
  rewrite H38.
  destruct (char_eqb c 60); [done|]. destruct (char_eqb c 62); [done|].
  destruct quote; cbn [andb orb] in *; [|done].
  destruct (char_eqb c 34); [done|]. by destruct (char_eqb c 39).
Qed.

(** X3: What [html.escape] returns has no markup character left in it: no [<]
    and no [>], and with [quote=True] no quote of either kind.  A text with
    none of them and no [&] is returned as it is. *)
Theorem html_escape_no_markup (text : list N) :
  Forall (fun c => c <> 60%N /\ c <> 62%N) (Learncpp.escape_html_text text)
  /\ Forall (fun c => c <> 60%N /\ c <> 62%N /\ c <> 34%N /\ c <> 39%N)
       (Learncpp.escape_attr_value text)
  /\ (Forall (fun c => c <> 38%N /\ c <> 60%N /\ c <> 62%N) text ->
      Learncpp.escape_html_text text = text)
  /\ (Forall (fun c => c <> 38%N /\ c <> 60%N /\ c <> 62%N /\ c <> 34%N /\ c <> 39%N)
        text ->
      Learncpp.escape_attr_value text = text).
Proof.
  unfold Learncpp.escape_html_text, Learncpp.escape_attr_value.
  split; [|split; [|split]].
  - eapply Forall_impl; [apply (html_escape_safe false)|].
    intros c Hc. unfold is_markup in Hc. cbn [andb orb] in Hc.
    rewrite orb_false_r in Hc.
    apply orb_false_elim in Hc as [H60 H62].
    split; intros ->; by rewrite char_eqb_refl in *.
  - eapply Forall_impl; [apply (html_escape_safe true)|].
    intros c Hc. unfold is_markup in Hc. cbn [andb orb] in Hc.
    apply orb_false_elim in Hc as [Hc H']. apply orb_false_elim in Hc as [H60 H62].
    apply orb_false_elim in H' as [H34 H39].
    repeat split; intros ->; by rewrite char_eqb_refl in *.
  - intros Hp. apply html_escape_plain. eapply Forall_impl; [exact Hp|].
    intros c (H38 & H60 & H62). unfold is_markup. cbn [andb orb].
    rewrite orb_false_r. split; [by apply N.eqb_neq|].
    apply orb_false_intro; by apply N.eqb_neq.
  - intros Hp. apply html_escape_plain. eapply Forall_impl; [exact Hp|].
    intros c (H38 & H60 & H62 & H34 & H39). unfold is_markup. cbn [andb orb].
    split; [by apply N.eqb_neq|].
    repeat apply orb_false_intro; by apply N.eqb_neq.
Qed.

(** ** [TAG_SPLIT_RE.split] *)

Lemma tag_match_spec (rest body : list N) :
  Learncpp.tag_match rest = Some body ->
  body <> [] /\ forallb (fun c => negb (char_eqb c 62)) body = true
  /\ exists rest', rest = body ++ 62%N :: rest'.
Proof.
  unfold Learncpp.tag_match.
  set (p := fun c => negb (char_eqb c 62)).
  pose proof (take_drop_while p rest) as Htd.
  pose proof (take_while_all p rest) as Hall.
  pose proof (drop_while_head p rest) as Hhead.
  assert (drop (length (take_while p rest)) rest = drop_while p rest) as ->.
  { rewrite <- Htd at 2. by rewrite drop_app_length. }
  destruct (take_while p rest) as [|b body'] eqn:Eb; [done|]. cbn [is_nil].
  destruct (drop_while p rest) as [|d rest'] eqn:Ed; [done|].
  intros [= <-]. split; [done|]. split; [done|].
  exists rest'. rewrite <- Htd. f_equal. f_equal.
  specialize (Hhead d rest' eq_refl). unfold p in Hhead.
  apply negb_false_iff, char_eqb_eq in Hhead. done.
Qed.

Lemma TAG_SPLIT_RE_split_go_concat (s : list N) (skip : nat) (cur : list N) :
  concat (Learncpp.TAG_SPLIT_RE_split_go s skip cur) = rev cur ++ drop skip s.
Proof.
  revert skip cur. induction s as [|c s IH]; intros skip cur.
  - simpl. by rewrite drop_nil, !app_nil_r.
  - destruct skip as [|k]; [|by apply IH].
    cbn [Learncpp.TAG_SPLIT_RE_split_go drop].
    destruct (char_eqb c 60) eqn:Ec.
    + destruct (Learncpp.tag_match s) as [body|] eqn:Em.
      * destruct (tag_match_spec _ _ Em) as (_ & _ & rest' & ->).
        apply char_eqb_eq in Ec as ->.
        cbn [concat]. rewrite IH. cbn [rev app].
        replace (length body + 1) with (length (body ++ [62%N]))
          by (rewrite length_app; simpl; lia).
        rewrite (cons_middle 62%N body rest'), (app_assoc body [62%N] rest').
        rewrite drop_app_length. by rewrite <- !app_assoc.
      * rewrite IH. cbn [rev drop]. by rewrite <- app_assoc.
    + rewrite IH. cbn [rev drop]. by rewrite <- app_assoc.
Qed.

Lemma TAG_SPLIT_RE_split_go_odd (s : list N) (skip : nat) (cur : list N) :
  length (Learncpp.TAG_SPLIT_RE_split_go s skip cur) mod 2 = 1.
Proof.
  revert skip cur. induction s as [|c s IH]; intros skip cur; [done|].
  destruct skip as [|k]; [|by apply IH].
  cbn [Learncpp.TAG_SPLIT_RE_split_go].
  destruct (char_eqb c 60); [|by apply IH].
  destruct (Learncpp.tag_match s); [|by apply IH].
  cbn [length]. specialize (IH (length l + 1) []).
  change (S (S ?n)) with (2 + n).
  rewrite <- Nat.Div0.add_mod_idemp_l. by simpl.
Qed.

Lemma TAG_SPLIT_RE_split_go_tags (s : list N) (skip : nat) (cur : list N)
    (idx : nat) (token : list N) :
  Learncpp.TAG_SPLIT_RE_split_go s skip cur !! idx = Some token ->
  idx mod 2 = 1 ->
  exists body, token = 60%N :: body ++ [62%N] /\ body <> []
    /\ forallb (fun c => negb (char_eqb c 62)) body = true.
Proof.
  revert skip cur idx. induction s as [|c s IH]; intros skip cur idx.
  - destruct idx as [|idx]; [done|]. by destruct idx.
  - destruct skip as [|k]; [|by apply IH].
    cbn [Learncpp.TAG_SPLIT_RE_split_go].
    destruct (char_eqb c 60); [|by apply IH].
    destruct (Learncpp.tag_match s) as [body|] eqn:Em; [|by apply IH].
    destruct (tag_match_spec _ _ Em) as (Hne & Hall & _).
    destruct idx as [|[|idx]]; [done| |].
    + intros [= <-] _. by exists body.
    + intros Hl Hodd. apply (IH _ _ idx Hl).
      change (S (S idx)) with (2 + idx) in Hodd.
      rewrite <- Nat.Div0.add_mod_idemp_l in Hodd. by simpl in Hodd.
Qed.

(** X4: [TAG_SPLIT_RE.split] loses nothing: the tokens joined are the document.
    Their number is odd, and every token at an odd index is a tag: a [<], one
    character or more none of which is [>], and a [>]. *)
Theorem TAG_SPLIT_RE_split_tokens (original : list N) :
  concat (Learncpp.TAG_SPLIT_RE_split original) = original
  /\ length (Learncpp.TAG_SPLIT_RE_split original) mod 2 = 1
  /\ (forall idx token,
        Learncpp.TAG_SPLIT_RE_split original !! idx = Some token ->
        idx mod 2 = 1 ->
        exists body, token = 60%N :: body ++ [62%N] /\ body <> []
          /\ forallb (fun c => negb (char_eqb c 62)) body = true).
Proof.
  unfold Learncpp.TAG_SPLIT_RE_split. split; [|split].
  - by rewrite TAG_SPLIT_RE_split_go_concat.
  - apply TAG_SPLIT_RE_split_go_odd.
  - apply TAG_SPLIT_RE_split_go_tags.
Qed.

(** ** [build_batches]: one batch when everything fits, greedy packing *)

Lemma encoded_length_app_le (a b : list (nat * list N)) :
  encoded_length a <= encoded_length (a ++ b).
Proof.
  induction b as [|it b IH] using rev_ind; [by rewrite app_nil_r|].
  rewrite app_assoc, encoded_length_snoc. lia.
Qed.

Lemma learncpp_fold_no_flush (max_len : nat) (items pre : list (nat * list N)) :
  encoded_length (pre ++ items) <= max_len ->
  fold_left (Learncpp.build_batches_step max_len) items
    ([], pre, encoded_length pre)
  = ([], pre ++ items, encoded_length (pre ++ items)).
Proof.
  revert pre. induction items as [|[idx txt] items IH]; intros pre Hfit.
  - by rewrite app_nil_r.
  - cbn [fold_left Learncpp.build_batches_step].
    pose proof (encoded_length_snoc pre (idx, txt)) as Hs. cbn [snd] in Hs.
    pose proof (encoded_length_app_le (pre ++ [(idx, txt)]) items) as Hle.
    rewrite <- app_assoc in Hle. cbn [app] in Hle.
    assert ((max_len <? encoded_length pre
               + (length (marker (length pre)) + length txt)) = false) as ->.
    { apply Nat.ltb_ge. lia. }
    rewrite andb_false_r.
    replace (encoded_length pre + (length (marker (length pre)) + length txt))
      with (encoded_length (pre ++ [(idx, txt)])) by lia.
    rewrite IH; rewrite <- app_assoc; done.
Qed.

Lemma code_comments_fold_no_flush (max_len : nat) (items pre : list (nat * list N)) :
  encoded_length (pre ++ items) <= max_len ->
  fold_left (CodeComments.build_batches_step max_len) items
    ([], pre, encoded_length pre)
  = ([], pre ++ items, encoded_length (pre ++ items)).
Proof.
  revert pre. induction items as [|[idx txt] items IH]; intros pre Hfit.
  - by rewrite app_nil_r.
  - cbn [fold_left CodeComments.build_batches_step].
    pose proof (encoded_length_snoc pre (idx, txt)) as Hs. cbn [snd] in Hs.
    pose proof (encoded_length_app_le (pre ++ [(idx, txt)]) items) as Hle.
    rewrite <- app_assoc in Hle. cbn [app] in Hle.
    assert ((max_len <? encoded_length pre
               + (length (marker (length pre)) + length txt)) = false) as ->.
    { apply Nat.ltb_ge. lia. }
    rewrite andb_false_r.
    replace (encoded_length pre + (length (marker (length pre)) + length txt))
      with (encoded_length (pre ++ [(idx, txt)])) by lia.
    rewrite IH; rewrite <- app_assoc; done.
Qed.

(** X5: Fragments that fit in one payload go in one batch: when the payload of
    the whole list is within the budget, [build_batches] of either driver
    returns the list as its only batch.  The empty list gives no batch. *)
Theorem build_batches_one_batch (items : list (nat * list N)) (max_len : nat) :
  items <> [] -> encoded_length items <= max_len ->
  Learncpp.build_batches items max_len = [items]
  /\ CodeComments.build_batches items max_len = [items].
Proof.
  intros Hne Hfit.
  unfold Learncpp.build_batches, CodeComments.build_batches.
  change (length MEND) with (encoded_length []).
  rewrite learncpp_fold_no_flush, code_comments_fold_no_flush by done.
  cbn [app]. by destruct items.
Qed.

Lemma build_batches_one_batch_witness :
  Learncpp.build_batches [(0, lit "Hello"); (1, lit "there")] MAX_LEN
    = [[(0, lit "Hello"); (1, lit "there")]]
  /\ CodeComments.build_batches [(0, lit "Hello"); (1, lit "there")] MAX_LEN
    = [[(0, lit "Hello"); (1, lit "there")]].
Proof.
  apply (build_batches_one_batch [(0, lit "Hello"); (1, lit "there")] MAX_LEN).
  - done.
  - vm_compute. lia.
Defined.

Lemma tight_snoc (max_len : nat) (l : list (list (nat * list N)))
    (b1 b2 : list (nat * list N)) :
  tight max_len (l ++ [b1]) ->
  (exists it rest, b2 = it :: rest /\ max_len < encoded_length (b1 ++ [it])) ->
  tight max_len (l ++ [b1; b2]).
Proof.
  intros Ht Hb. induction l as [|a l IH].
  - simpl. done.
  - destruct l as [|a' l].
    + simpl in *. destruct Ht as [Ht _]. done.
    + cbn [app tight] in *. destruct Ht as [Ha Ht]. split; [done|]. by apply IH.
Qed.

Lemma tight_grow (max_len : nat) (l : list (list (nat * list N)))
    (b : list (nat * list N)) (it : nat * list N) :
  b <> [] -> tight max_len (l ++ [b]) -> tight max_len (l ++ [b ++ [it]]).
Proof.
  intros Hb Ht. induction l as [|a l IH]; [done|].
  destruct l as [|a' l].
  - simpl in *. destruct Ht as [(x & rest & -> & Hx) _]. split; [|done].
    exists x, (rest ++ [it]). done.
  - cbn [app tight] in *. destruct Ht as [Ha Ht]. split; [done|]. by apply IH.
Qed.

Lemma tight_lookup (max_len : nat) (l : list (list (nat * list N)))
    (i : nat) (b1 b2 : list (nat * list N)) :
  tight max_len l -> l !! i = Some b1 -> l !! S i = Some b2 ->
  exists it rest, b2 = it :: rest /\ max_len < encoded_length (b1 ++ [it]).
Proof.
  revert i. induction l as [|a l IH]; intros i Ht H1 H2; [done|].
  destruct l as [|a' l]; [done|].
  destruct Ht as [Ha Ht]. destruct i as [|i].
  - simpl in *. by simplify_eq.
  - by apply (IH i).
Qed.

Lemma learncpp_step_tight (max_len : nat)
    (st : list (list (nat * list N)) * list (nat * list N) * nat)
    (it : nat * list N) :
  greedy_inv max_len st ->
  greedy_inv max_len (Learncpp.build_batches_step max_len st it).
Proof.
  destruct st as [[batches current] current_len]. destruct it as [idx txt].
  intros (Hlen & Hempty & Ht). subst current_len.
  cbn [Learncpp.build_batches_step].
  pose proof (encoded_length_snoc current (idx, txt)) as Hs. cbn [snd] in Hs.
  destruct current as [|c current].
  - cbn [is_nil negb andb]. rewrite (Hempty eq_refl).
    split; [lia|]. split; [done|]. done.
  - cbn [is_nil negb andb].
    destruct (max_len <? _) eqn:Hflush.
    + apply Nat.ltb_lt in Hflush.
      split; [rewrite encoded_length_single, MEND_length, marker_0_length; simpl; lia|].
      split; [done|].
      rewrite <- app_assoc. apply tight_snoc; [done|].
      exists (idx, txt), []. split; [done|]. lia.
    + split; [lia|]. split; [done|]. by apply tight_grow.
Qed.

Lemma learncpp_fold_tight (max_len : nat) (items : list (nat * list N))
    (st : list (list (nat * list N)) * list (nat * list N) * nat) :
  greedy_inv max_len st ->
  greedy_inv max_len (fold_left (Learncpp.build_batches_step max_len) items st).
Proof.
  revert st. induction items as [|it items IH]; intros st Hst; [done|].
  apply IH. by apply learncpp_step_tight.
Qed.

(** X6: [build_batches] of [translate_learncpp_pl.py] packs greedily: a batch is
    closed only when the next fragment would take it over the budget, so the
    batch that follows starts with a fragment the one before had no room
    for. *)
Theorem learncpp_build_batches_greedy (items : list (nat * list N))
    (max_len i : nat) (b1 b2 : list (nat * list N)) :
  Learncpp.build_batches items max_len !! i = Some b1 ->
  Learncpp.build_batches items max_len !! S i = Some b2 ->
  exists it rest, b2 = it :: rest /\ max_len < encoded_length (b1 ++ [it]).
Proof.
  unfold Learncpp.build_batches.
  pose proof (learncpp_fold_tight max_len items ([], [], length MEND)) as Hinv.
  destruct (fold_left _ items _) as [[batches current] current_len].
  destruct Hinv as (_ & Hempty & Ht).
  { split; [by rewrite encoded_length_nil, MEND_length|]. done. }
  destruct current as [|c current]; cbn [is_nil negb].
  - rewrite (Hempty eq_refl). done.
  - by apply tight_lookup.
Qed.

Lemma learncpp_build_batches_greedy_witness :
  exists it rest, [(1, lit "c")] = it :: rest
    /\ 28 < encoded_length ([(0, lit "ab")] ++ [it]).
Proof.
  apply (learncpp_build_batches_greedy [(0, lit "ab"); (1, lit "c")] 28 0);
    vm_compute; reflexivity.
Defined.

(** ** The requests made, and a backend that is down *)

Section Requests.
Context {World : Type}.
Implicit Types (tr : translator World) (s : io World).

Lemma call_count tr r s s' reply :
  call tr r s = (s', reply) -> length (calls s') = S (length (calls s)).
Proof.
  unfold call. destruct (tr (world s) (request_text r)) as [w rep].
  intros [= <- _]. simpl. rewrite length_app. simpl. lia.
Qed.

Lemma call_raises tr r s :
  always_raises tr -> exists s', call tr r s = (s', None).
Proof.
  intros Hdown. unfold call. specialize (Hdown (world s) (request_text r)).
  destruct (tr (world s) (request_text r)) as [w rep]. simpl in Hdown. subst rep.
  by eexists.
Qed.

Lemma translate_group_payload_count tr texts s s' res :
  translate_group_payload tr texts s = (s', res) ->
  length (calls s') = S (length (calls s)).
Proof.
  unfold translate_group_payload.
  destruct (call tr (Group texts) s) as [s1 [translated|]] eqn:Hc;
    intros [= <- _]; by apply call_count in Hc.
Qed.

Lemma group_attempts_count n tr vals s s' res :
  group_attempts n tr vals s = (s', res) ->
  length (calls s') <= length (calls s) + n
  /\ (res = None -> length (calls s') = length (calls s) + n).
Proof.
  revert s. induction n as [|n IH]; intros s; simpl.
  - intros [= <- <-]. lia.
  - destruct (translate_group_payload tr vals s) as [s1 r] eqn:Hg.
    apply translate_group_payload_count in Hg.
    destruct r as [| |out].
    + intros Hr. apply IH in Hr as [Hr1 Hr2].
      split; [lia|]. intros E. specialize (Hr2 E). lia.
    + intros Hr. apply IH in Hr as [Hr1 Hr2].
      split; [lia|]. intros E. specialize (Hr2 E). lia.
    + intros [= <- <-]. split; [lia|done].
Qed.

Lemma single_attempts_count n tr t s s' res :
  single_attempts n tr t s = (s', res) ->
  length (calls s') <= length (calls s) + n
  /\ (res = None -> length (calls s') = length (calls s) + n).
Proof.
  revert s. induction n as [|n IH]; intros s; simpl.
  - intros [= <- <-]. lia.
  - destruct (call tr (Single t) s) as [s1 [reply|]] eqn:Hc;
      apply call_count in Hc.
    + intros [= <- <-]. split; [lia|done].
    + intros Hr. apply IH in Hr as [Hr1 Hr2].
      split; [lia|]. intros E. specialize (Hr2 E). lia.
Qed.

Lemma group_attempts_down n tr vals s :
  always_raises tr -> exists s', group_attempts n tr vals s = (s', None).
Proof.
  intros Hdown. revert s. induction n as [|n IH]; intros s; simpl; [by eexists|].
  unfold translate_group_payload.
  destruct (call_raises tr (Group vals) s Hdown) as (s1 & ->). apply IH.
Qed.

Lemma single_attempts_down n tr t s :
  always_raises tr -> exists s', single_attempts n tr t s = (s', None).
Proof.
  intros Hdown. revert s. induction n as [|n IH]; intros s; simpl; [by eexists|].
  destruct (call_raises tr (Single t) s Hdown) as (s1 & ->). apply IH.
Qed.

Lemma learncpp_translate_each_count tr vals s s' xs :
  Learncpp.translate_each tr vals s = (s', xs) ->
  length (calls s') <= length (calls s) + 5 * length vals.
Proof.
  revert s s' xs. induction vals as [|t vals IH]; intros s s' xs;
    cbn [Learncpp.translate_each].
  - intros [= <- _]. lia.
  - destruct (single_attempts 5 tr t s) as [s1 reply] eqn:H1.
    destruct (Learncpp.translate_each tr vals s1) as [s2 ys] eqn:H2.
    intros [= <- _]. apply single_attempts_count in H1 as [H1 _].
    apply IH in H2. cbn [length]. lia.
Qed.

Lemma learncpp_translate_each_down tr vals s :
  always_raises tr ->
  exists s', Learncpp.translate_each tr vals s = (s', vals)
    /\ length (calls s') = length (calls s) + 5 * length vals.
Proof.
  intros Hdown. revert s. induction vals as [|t vals IH]; intros s;
    cbn [Learncpp.translate_each].
  - eexists. split; [done|simpl; lia].
  - destruct (single_attempts_down 5 tr t s Hdown) as (s1 & H1). rewrite H1.
    apply single_attempts_count in H1 as [_ H1]. specialize (H1 eq_refl).
    destruct (IH s1) as (s2 & -> & H2). eexists. split; [done|].
    cbn [length]. lia.
Qed.

Lemma learncpp_translate_batches_count tr texts batches cache s s' res :
  Learncpp.translate_batches tr texts batches cache s = (s', res) ->
  length (calls s')
  <= length (calls s) + 5 * length batches + 5 * length (concat batches).
Proof.
  revert cache s. induction batches as [|batch batches IH]; intros cache s.
  - simpl. intros [= <- _]. lia.
  - cbn [Learncpp.translate_batches].
    destruct (group_attempts 5 tr (map snd batch) s) as [s1 tv] eqn:Hg.
    apply group_attempts_count in Hg as [Hg _].
    assert (exists s2 tv2,
      match tv with
      | Some out => (s1, out)
      | None => Learncpp.translate_each tr (map snd batch) s1
      end = (s2, tv2)
      /\ length (calls s2) <= length (calls s1) + 5 * length batch)
      as (s2 & tv2 & -> & H2).
    { destruct tv as [out|].
      - exists s1, out. split; [done|lia].
      - destruct (Learncpp.translate_each tr (map snd batch) s1) as [s2 tv2] eqn:He.
        exists s2, tv2. split; [done|].
        apply learncpp_translate_each_count in He. by rewrite length_map in He. }
    cbn [concat length]. rewrite length_app.
    destruct (store texts _ cache) as [cache'|].
    + intros Hr. apply IH in Hr. lia.
    + intros [= <- _]. lia.
Qed.

Lemma store_fill (f : list N -> list N) (texts : list (list N))
    (batch : list (nat * list N)) (cache : gmap (list N) (list N)) :
  Forall (fun it => texts !! it.1 = Some it.2) batch ->
  store texts (zip (map fst batch) (map f (map snd batch))) cache
  = Some (fold_left (fun c it => <[it.2 := f it.2]> c) batch cache).
Proof.
  intros Hb. revert cache. induction Hb as [|[i t] batch Hi _ IH]; intros cache.
  - done.
  - cbn [map zip zip_with store fst snd fold_left] in *. rewrite Hi. apply IH.
Qed.

Lemma fill_lookup (f : list N -> list N) (l : list (nat * list N))
    (cache : gmap (list N) (list N)) (k : list N) :
  fold_left (fun c it => <[it.2 := f it.2]> c) l cache !! k
  = if bool_decide (k ∈ l.*2) then Some (f k) else cache !! k.
Proof.
  revert cache. induction l as [|[i t] l IH]; intros cache.
  - cbn [fold_left]. case_bool_decide as Hin; [|done]. by apply elem_of_nil in Hin.
  - cbn [fold_left snd]. rewrite IH, fmap_cons. cbn [snd].
    destruct (decide (k = t)) as [->|Hne].
    + rewrite lookup_insert_eq.
      rewrite (bool_decide_eq_true_2 (t ∈ t :: l.*2)) by apply list_elem_of_here.
      by case_bool_decide.
    + rewrite lookup_insert_ne by done.
      case_bool_decide as Hin.
      * rewrite bool_decide_eq_true_2; [done|]. by apply list_elem_of_further.
      * rewrite bool_decide_eq_false_2; [done|].
        intros [?|?]%elem_of_cons; done.
Qed.

Lemma fill_app (f : list N -> list N) (a b : list (nat * list N))
    (cache : gmap (list N) (list N)) :
  fold_left (fun c it => <[it.2 := f it.2]> c) (a ++ b) cache
  = fold_left (fun c it => <[it.2 := f it.2]> c) b
      (fold_left (fun c it => <[it.2 := f it.2]> c) a cache).
Proof. apply fold_left_app. Qed.

Lemma missing_items_texts (texts : list (list N))
    (cache : gmap (list N) (list N)) (k : list N) :
  k ∈ (missing_items texts cache).*2 <-> k ∈ texts /\ cache !! k = None.
Proof.
  rewrite list_elem_of_fmap. split.
  - intros ([i t] & -> & Hin). apply missing_items_spec in Hin as [Hl Hc].
    split; [|done]. by eapply list_elem_of_lookup_2.
  - intros [Hin Hc]. destruct (missing_items_cover texts cache k Hin) as [Hs|[i Hi]].
    + rewrite Hc in Hs. by destruct Hs.
    + by exists (i, k).
Qed.

Lemma filled_with_missing (f : list N -> list N) (texts : list (list N))
    (cache : gmap (list N) (list N)) :
  filled_with f texts cache
    (fold_left (fun c it => <[it.2 := f it.2]> c) (missing_items texts cache) cache).
Proof.
  intros k. rewrite fill_lookup.
  pose proof (missing_items_texts texts cache k) as Hm.
  destruct (cache !! k) as [v|] eqn:Hk.
  - rewrite bool_decide_eq_false_2; [done|]. intros Hin. apply Hm in Hin as [_ ?]. done.
  - case_bool_decide as Hin.
    + apply Hm in Hin as [Hin _]. by rewrite bool_decide_eq_true_2.
    + rewrite bool_decide_eq_false_2; [done|]. intros Hin'. apply Hin, Hm. done.
Qed.

Lemma learncpp_translate_batches_down tr texts batches cache s :
  always_raises tr ->
  Forall (Forall (fun it => texts !! it.1 = Some it.2)) batches ->
  exists s',
    Learncpp.translate_batches tr texts batches cache s
    = (s', Some (fold_left (fun c it => <[it.2 := it.2]> c) (concat batches) cache))
    /\ length (calls s')
       = length (calls s) + 5 * length batches + 5 * length (concat batches).
Proof.
  intros Hdown Hb. revert cache s.
  induction Hb as [|batch batches Hbatch _ IH]; intros cache s.
  - eexists. split; [done|simpl; lia].
  - cbn [Learncpp.translate_batches].
    destruct (group_attempts_down 5 tr (map snd batch) s Hdown) as (s1 & Hg).
    rewrite Hg. apply group_attempts_count in Hg as [_ Hg]. specialize (Hg eq_refl).
    destruct (learncpp_translate_each_down tr (map snd batch) s1 Hdown)
      as (s2 & -> & H2). rewrite length_map in H2.
    pose proof (store_fill (fun t => t) texts batch cache Hbatch) as Hs.
    rewrite map_id in Hs. rewrite Hs.
    destruct (IH (fold_left (fun c it => <[it.2 := it.2]> c) batch cache) s2)
      as (s3 & -> & H3).
    exists s3. cbn [concat]. rewrite fold_left_app, length_app. split; [done|].
    cbn [length]. lia.
Qed.

End Requests.

Lemma batches_texts (texts : list (list N)) (cache : gmap (list N) (list N))
    (batches : list (list (nat * list N))) :
  concat batches = missing_items texts cache ->
  Forall (Forall (fun it => texts !! it.1 = Some it.2)) batches.
Proof.
  intros Hc. apply batches_of_missing in Hc.
  eapply Forall_impl; [exact Hc|]. intros b Hb.
  eapply Forall_impl; [exact Hb|]. by intros it [? _].
Qed.

Lemma batches_count (max_len : nat) (batches : list (list (nat * list N))) :
  Forall (batch_ok max_len) batches -> length batches <= length (concat batches).
Proof.
  induction 1 as [|b batches [Hne _] _ IH]; [done|].
  cbn [concat length]. rewrite length_app. destruct b; [done|]. simpl. lia.
Qed.

(** X7: When every call of the backend raises, [translate_missing] of
    [translate_learncpp_pl.py] still ends normally: each batch costs five
    group requests and five more for each of its fragments, and every text
    that was missing from the cache is stored as its own translation. *)
Theorem learncpp_backend_down_fallback {World : Type} (texts : list (list N))
    (cache : gmap (list N) (list N)) (tr : translator World) (s : io World) :
  always_raises tr ->
  exists s' cache',
    Learncpp.translate_missing texts cache tr s = (s', Some cache')
    /\ filled_with (fun t => t) texts cache cache'
    /\ length (calls s')
       = length (calls s)
         + 5 * length (Learncpp.build_batches (missing_items texts cache) MAX_LEN)
         + 5 * length (missing_items texts cache).
Proof.
  intros Hdown. unfold Learncpp.translate_missing.
  pose proof (filled_with_missing (fun t => t) texts cache) as Hfill.
  destruct (learncpp_build_batches_ok (missing_items texts cache) MAX_LEN)
    as [Hconcat _].
  destruct (missing_items texts cache) as [|it missing] eqn:Hm.
  - exists s, cache. split; [done|]. split; [done|].
    assert (Learncpp.build_batches [] MAX_LEN = []) as -> by done. simpl. lia.
  - cbn [is_nil]. rewrite <- Hm in *.
    destruct (learncpp_translate_batches_down tr texts
                (Learncpp.build_batches (missing_items texts cache) MAX_LEN)
                cache s Hdown) as (s' & -> & Hcount).
    { by apply (batches_texts texts cache). }
    rewrite Hconcat in *. eexists s', _. split; [done|]. by split.
Qed.

Lemma learncpp_backend_down_fallback_witness :
  exists s' cache',
    Learncpp.translate_missing [lit "Hello"; lit "there"] ∅ backend_down no_calls
      = (s', Some cache')
    /\ filled_with (fun t => t) [lit "Hello"; lit "there"] ∅ cache'
    /\ length (calls s')
       = length (calls no_calls)
         + 5 * length (Learncpp.build_batches
                         (missing_items [lit "Hello"; lit "there"] ∅) MAX_LEN)
         + 5 * length (missing_items [lit "Hello"; lit "there"] ∅).
Proof.
  apply (learncpp_backend_down_fallback [lit "Hello"; lit "there"] ∅
           backend_down no_calls).
  intros w t. reflexivity.
Defined.

(** X8: [translate_missing] of [translate_learncpp_pl.py] makes at most five
    group requests for each batch and five single requests for each missing
    text, whatever the backend answers: never more than ten requests for
    each text that is missing from the cache. *)
Theorem learncpp_request_bound {World : Type} (texts : list (list N))
    (cache : gmap (list N) (list N)) (tr : translator World) (s : io World) :
  length (calls (Learncpp.translate_missing texts cache tr s).1)
  <= length (calls s)
     + 5 * length (Learncpp.build_batches (missing_items texts cache) MAX_LEN)
     + 5 * length (missing_items texts cache)
  /\ length (calls (Learncpp.translate_missing texts cache tr s).1)
     <= length (calls s) + 10 * length (missing_items texts cache).
Proof.
  assert (length (calls (Learncpp.translate_missing texts cache tr s).1)
          <= length (calls s)
             + 5 * length (Learncpp.build_batches (missing_items texts cache) MAX_LEN)
             + 5 * length (missing_items texts cache)) as Hfine.
  { unfold Learncpp.translate_missing.
    destruct (learncpp_build_batches_ok (missing_items texts cache) MAX_LEN)
      as [Hconcat _].
    destruct (is_nil (missing_items texts cache)); [simpl; lia|].
    destruct (Learncpp.translate_batches tr texts _ cache s) as [s' res] eqn:Hr.
    apply learncpp_translate_batches_count in Hr. rewrite Hconcat in Hr. done. }
  split; [done|].
  destruct (learncpp_build_batches_ok (missing_items texts cache) MAX_LEN)
    as [Hconcat Hok].
  apply batches_count in Hok. rewrite Hconcat in Hok. lia.
Qed.

Section CodeCommentsRequests.
Context `{PyTables} {World : Type}.
Implicit Types (tr : translator World) (s : io World).

Lemma translate_one_loop_count (trs : list (translator World)) text last s s' x :
  CodeComments.translate_one_loop trs text last s = (s', x) ->
  length (calls s') <= length (calls s) + 4 * length trs.
Proof.
  revert last s. induction trs as [|tr trs IH]; intros last s;
    cbn [CodeComments.translate_one_loop].
  - intros [= <- _]. simpl. lia.
  - destruct (single_attempts 4 tr text s) as [s1 reply] eqn:H1.
    apply single_attempts_count in H1 as [H1 _]. cbn [length].
    destruct reply as [reply|].
    + destruct (negb _).
      * intros [= <- _]. lia.
      * intros Hr. apply IH in Hr. lia.
    + intros Hr. apply IH in Hr. lia.
Qed.

Lemma translate_one_loop_down (trs : list (translator World)) text last s :
  Forall always_raises trs ->
  exists s', CodeComments.translate_one_loop trs text last s
             = (s', CodeComments.postprocess_translation last)
    /\ length (calls s') = length (calls s) + 4 * length trs.
Proof.
  intros Hdown. revert s. induction Hdown as [|tr trs Htr _ IH]; intros s;
    cbn [CodeComments.translate_one_loop].
  - eexists. split; [done|simpl; lia].
  - destruct (single_attempts_down 4 tr text s Htr) as (s1 & H1). rewrite H1.
    apply single_attempts_count in H1 as [_ H1]. specialize (H1 eq_refl).
    destruct (IH s1) as (s2 & -> & H2). eexists. split; [done|].
    cbn [length]. lia.
Qed.

Lemma code_comments_translate_each_count tr_en tr_auto vals s s' xs :
  CodeComments.translate_each tr_en tr_auto vals s = (s', xs) ->
  length (calls s') <= length (calls s) + 8 * length vals.
Proof.
  revert s s' xs. induction vals as [|t vals IH]; intros s s' xs;
    cbn [CodeComments.translate_each].
  - intros [= <- _]. simpl. lia.
  - destruct (CodeComments.translate_one t tr_en tr_auto s) as [s1 x] eqn:H1.
    destruct (CodeComments.translate_each tr_en tr_auto vals s1) as [s2 ys] eqn:H2.
    intros [= <- _]. apply translate_one_loop_count in H1. apply IH in H2.
    cbn [length] in *. lia.
Qed.

Lemma code_comments_translate_each_down tr_en tr_auto vals s :
  always_raises tr_en -> always_raises tr_auto ->
  exists s', CodeComments.translate_each tr_en tr_auto vals s
             = (s', map CodeComments.postprocess_translation vals)
    /\ length (calls s') = length (calls s) + 8 * length vals.
Proof.
  intros Hen Hauto. revert s. induction vals as [|t vals IH]; intros s;
    cbn [CodeComments.translate_each].
  - eexists. split; [done|simpl; lia].
  - unfold CodeComments.translate_one.
    destruct (translate_one_loop_down [tr_en; tr_auto] t t s) as (s1 & -> & H1).
    { by repeat constructor. }
    destruct (IH s1) as (s2 & -> & H2). eexists. split; [done|].
    cbn [length] in *. lia.
Qed.

Lemma fix_vals_count tr_en tr_auto pairs s s' xs :
  CodeComments.fix_vals tr_en tr_auto pairs s = (s', xs) ->
  length (calls s') <= length (calls s) + 8 * length pairs.
Proof.
  revert s s' xs. induction pairs as [|[src t] pairs IH]; intros s s' xs;
    cbn [CodeComments.fix_vals].
  - intros [= <- _]. simpl. lia.
  - assert (exists s1 x,
      (if CodeComments.is_bad_translation src (CodeComments.postprocess_translation t)
       then CodeComments.translate_one src tr_en tr_auto s
       else (s, CodeComments.postprocess_translation t)) = (s1, x)
      /\ length (calls s1) <= length (calls s) + 8) as (s1 & x & -> & H1).
    { destruct (CodeComments.is_bad_translation _ _).
      - destruct (CodeComments.translate_one src tr_en tr_auto s) as [s1 x] eqn:H1.
        exists s1, x. split; [done|]. apply translate_one_loop_count in H1.
        simpl in H1. lia.
      - exists s, (CodeComments.postprocess_translation t). split; [done|lia]. }
    destruct (CodeComments.fix_vals tr_en tr_auto pairs s1) as [s2 ys] eqn:H2.
    intros [= <- _]. apply IH in H2. cbn [length]. lia.
Qed.

Lemma code_comments_translate_batches_count tr_auto tr_en texts batches cache s s' res :
  CodeComments.translate_batches tr_auto tr_en texts batches cache s = (s', res) ->
  length (calls s')
  <= length (calls s) + 5 * length batches + 8 * length (concat batches).
Proof.
  revert cache s. induction batches as [|batch batches IH]; intros cache s.
  - simpl. intros [= <- _]. lia.
  - cbn [CodeComments.translate_batches].
    destruct (group_attempts 5 tr_auto (map snd batch) s) as [s1 tv] eqn:Hg.
    apply group_attempts_count in Hg as [Hg _].
    assert (exists s2 tv2,
      match tv with
      | None => CodeComments.translate_each tr_en tr_auto (map snd batch) s1
      | Some out => CodeComments.fix_vals tr_en tr_auto (zip (map snd batch) out) s1
      end = (s2, tv2)
      /\ length (calls s2) <= length (calls s1) + 8 * length batch)
      as (s2 & tv2 & -> & H2).
    { destruct tv as [out|].
      - destruct (CodeComments.fix_vals tr_en tr_auto _ s1) as [s2 tv2] eqn:He.
        exists s2, tv2. split; [done|]. apply fix_vals_count in He.
        pose proof (length_zip_with pair (map snd batch) out) as Hz.
        rewrite Hz, length_map in He. lia.
      - destruct (CodeComments.translate_each tr_en tr_auto _ s1) as [s2 tv2] eqn:He.
        exists s2, tv2. split; [done|].
        apply code_comments_translate_each_count in He. by rewrite length_map in He. }
    cbn [concat length]. rewrite length_app.
    destruct (store texts _ cache) as [cache'|].
    + intros Hr. apply IH in Hr. lia.
    + intros [= <- _]. lia.
Qed.

Lemma code_comments_translate_batches_down tr_auto tr_en texts batches cache s :
  always_raises tr_auto -> always_raises tr_en ->
  Forall (Forall (fun it => texts !! it.1 = Some it.2)) batches ->
  exists s',
    CodeComments.translate_batches tr_auto tr_en texts batches cache s
    = (s', Some (fold_left
                   (fun c it => <[it.2 := CodeComments.postprocess_translation it.2]> c)
                   (concat batches) cache))
    /\ length (calls s')
       = length (calls s) + 5 * length batches + 8 * length (concat batches).
Proof.
  intros Hauto Hen Hb. revert cache s.
  induction Hb as [|batch batches Hbatch _ IH]; intros cache s.
  - eexists. split; [done|simpl; lia].
  - cbn [CodeComments.translate_batches].
    destruct (group_attempts_down 5 tr_auto (map snd batch) s Hauto) as (s1 & Hg).
    rewrite Hg. apply group_attempts_count in Hg as [_ Hg]. specialize (Hg eq_refl).
    destruct (code_comments_translate_each_down tr_en tr_auto (map snd batch) s1
                Hen Hauto) as (s2 & -> & H2). rewrite length_map in H2.
    rewrite (store_fill CodeComments.postprocess_translation) by done.
    destruct (IH (fold_left
                   (fun c it => <[it.2 := CodeComments.postprocess_translation it.2]> c)
                   batch cache) s2) as (s3 & -> & H3).
    exists s3. cbn [concat]. rewrite fold_left_app, length_app. split; [done|].
    cbn [length]. lia.
Qed.

End CodeCommentsRequests.

(** X9: When every call of both backends raises, [translate_missing] of
    [translate_code_comments_pl.py] ends normally: each batch costs five
    group requests and eight more for each of its fragments (four to each
    backend), and every text that was missing from the cache is stored with
    [postprocess_translation] of the text itself as its translation. *)
Theorem code_comments_backend_down_fallback `{PyTables} {World : Type}
    (texts : list (list N)) (cache : gmap (list N) (list N))
    (tr_auto tr_en : translator World) (s : io World) :
  always_raises tr_auto -> always_raises tr_en ->
  exists s' cache',
    CodeComments.translate_missing texts cache tr_auto tr_en s = (s', Some cache')
    /\ filled_with CodeComments.postprocess_translation texts cache cache'
    /\ length (calls s')
       = length (calls s)
         + 5 * length (CodeComments.build_batches (missing_items texts cache) MAX_LEN)
         + 8 * length (missing_items texts cache).
Proof.
  intros Hauto Hen. unfold CodeComments.translate_missing.
  pose proof (filled_with_missing CodeComments.postprocess_translation texts cache)
    as Hfill.
  destruct (code_comments_build_batches_ok (missing_items texts cache) MAX_LEN)
    as [Hconcat _].
  destruct (missing_items texts cache) as [|it missing] eqn:Hm.
  - exists s, cache. split; [done|]. split; [done|].
    assert (CodeComments.build_batches [] MAX_LEN = []) as -> by done. simpl. lia.
  - cbn [is_nil]. rewrite <- Hm in *.
    destruct (code_comments_translate_batches_down tr_auto tr_en texts
                (CodeComments.build_batches (missing_items texts cache) MAX_LEN)
                cache s Hauto Hen) as (s' & -> & Hcount).
    { by apply (batches_texts texts cache). }
    rewrite Hconcat in *. eexists s', _. split; [done|]. by split.
Qed.

Lemma code_comments_backend_down_fallback_witness :
  exists s' cache',
    @CodeComments.translate_missing ascii_tables unit
      [lit "return  value "] ∅ backend_down backend_down no_calls
      = (s', Some cache')
    /\ filled_with (@CodeComments.postprocess_translation ascii_tables)
         [lit "return  value "] ∅ cache'
    /\ length (calls s')
       = length (calls no_calls)
         + 5 * length (CodeComments.build_batches
                         (missing_items [lit "return  value "] ∅) MAX_LEN)
         + 8 * length (missing_items [lit "return  value "] ∅).
Proof.
  apply (@code_comments_backend_down_fallback ascii_tables unit
           [lit "return  value "] ∅ backend_down backend_down no_calls);
    intros w t; reflexivity.
Defined.

(** X10: [translate_missing] of [translate_code_comments_pl.py] makes at most five
    group requests for each batch and eight single requests for each missing
    text (four to each backend), whatever the backends answer: never more
    than thirteen requests for each text that is missing from the cache. *)
Theorem code_comments_request_bound `{PyTables} {World : Type}
    (texts : list (list N)) (cache : gmap (list N) (list N))
    (tr_auto tr_en : translator World) (s : io World) :
  length (calls (CodeComments.translate_missing texts cache tr_auto tr_en s).1)
  <= length (calls s)
     + 5 * length (CodeComments.build_batches (missing_items texts cache) MAX_LEN)
     + 8 * length (missing_items texts cache)
  /\ length (calls (CodeComments.translate_missing texts cache tr_auto tr_en s).1)
     <= length (calls s) + 13 * length (missing_items texts cache).
Proof.
  assert (length (calls (CodeComments.translate_missing texts cache tr_auto tr_en s).1)
          <= length (calls s)
             + 5 * length (CodeComments.build_batches (missing_items texts cache) MAX_LEN)
             + 8 * length (missing_items texts cache)) as Hfine.
  { unfold CodeComments.translate_missing.
    destruct (code_comments_build_batches_ok (missing_items texts cache) MAX_LEN)
      as [Hconcat _].
    destruct (is_nil (missing_items texts cache)); [simpl; lia|].
    destruct (CodeComments.translate_batches tr_auto tr_en texts _ cache s)
      as [s' res] eqn:Hr.
    apply code_comments_translate_batches_count in Hr. rewrite Hconcat in Hr. done. }
  split; [done|].
  destruct (code_comments_build_batches_ok (missing_items texts cache) MAX_LEN)
    as [Hconcat Hok].
  apply batches_count in Hok. rewrite Hconcat in Hok. lia.
Qed.


(** ** A backend that keeps the markers *)

Lemma parse_group_payload (texts : list (list N)) :
  Forall (fun t => contains OPENER t = false) texts ->
  parse_group (length texts) (build_payload texts) = Some texts.
Proof.
  intros Hclean. unfold parse_group. rewrite MEND_in_payload by done.
  cbn [negb]. apply (parse_from_payload [] texts Hclean).
Qed.

Section MarkersKept.
Context {World : Type}.
Implicit Types (tr : translator World) (s : io World).

Lemma group_attempts_answered (g : list N -> list N) tr vals s n :
  (forall w, (tr w (build_payload vals)).2 = Some (build_payload (map g vals))) ->
  (forall t, contains OPENER (g t) = false) ->
  exists s', group_attempts (S n) tr vals s = (s', Some (map g vals))
    /\ calls s' = calls s ++ [Group vals].
Proof.
  intros Htr Hclean. cbn [group_attempts]. unfold translate_group_payload, call.
  cbn [request_text]. specialize (Htr (world s)).
  destruct (tr (world s) (build_payload vals)) as [w reply]. simpl in Htr. subst reply.
  rewrite <- (length_map g vals), parse_group_payload.
  - by eexists.
  - apply Forall_forall. intros t [x [-> _]]%list_elem_of_fmap. apply Hclean.
Qed.

Lemma learncpp_translate_batches_answered (g : list N -> list N) tr texts batches
    cache s :
  answers_batches g tr batches ->
  (forall t, contains OPENER (g t) = false) ->
  Forall (Forall (fun it => texts !! it.1 = Some it.2)) batches ->
  exists s',
    Learncpp.translate_batches tr texts batches cache s
    = (s', Some (fold_left (fun c it => <[it.2 := g it.2]> c) (concat batches) cache))
    /\ calls s' = calls s ++ map (fun b => Group (map snd b)) batches.
Proof.
  intros Hans Hclean Hb. revert cache s.
  induction Hb as [|batch batches Hbatch _ IH]; intros cache s.
  - eexists. split; [done|]. by rewrite app_nil_r.
  - apply Forall_cons in Hans as [Hans1 Hans].
    cbn [Learncpp.translate_batches].
    destruct (group_attempts_answered g tr (map snd batch) s 4 Hans1 Hclean)
      as (s1 & -> & H1).
    rewrite (store_fill g) by done.
    destruct (IH Hans (fold_left (fun c it => <[it.2 := g it.2]> c) batch cache) s1)
      as (s2 & -> & H2).
    exists s2. cbn [concat map]. rewrite fold_left_app. split; [done|].
    rewrite H2, H1, <- app_assoc. done.
Qed.

End MarkersKept.

(** X11: The protocol at work in [translate_learncpp_pl.py]: when the backend
    answers the payload of every batch with the payload of the translations,
    markers kept and no marker text inside a translation, [translate_missing]
    makes exactly one request for each batch, in order, and stores its own
    translation for every text that was missing from the cache. *)
Theorem learncpp_markers_kept {World : Type} (g : list N -> list N)
    (texts : list (list N)) (cache : gmap (list N) (list N))
    (tr : translator World) (s : io World) :
  answers_batches g tr (Learncpp.build_batches (missing_items texts cache) MAX_LEN) ->
  (forall t, contains (lit "<<<M") (g t) = false) ->
  exists s' cache',
    Learncpp.translate_missing texts cache tr s = (s', Some cache')
    /\ filled_with g texts cache cache'
    /\ calls s'
       = calls s ++ map (fun b => Group (map snd b))
                        (Learncpp.build_batches (missing_items texts cache) MAX_LEN).
Proof.
  intros Hans Hclean. unfold Learncpp.translate_missing.
  pose proof (filled_with_missing g texts cache) as Hfill.
  destruct (learncpp_build_batches_ok (missing_items texts cache) MAX_LEN)
    as [Hconcat _].
  destruct (missing_items texts cache) as [|it missing] eqn:Hm.
  - exists s, cache. split; [done|]. split; [done|].
    assert (Learncpp.build_batches [] MAX_LEN = []) as -> by done.
    by rewrite app_nil_r.
  - cbn [is_nil]. rewrite <- Hm in *.
    destruct (learncpp_translate_batches_answered g tr texts
                (Learncpp.build_batches (missing_items texts cache) MAX_LEN)
                cache s Hans Hclean) as (s' & -> & Hcalls).
    { by apply (batches_texts texts cache). }
    rewrite Hconcat in *. eexists s', _. split; [done|]. by split.
Qed.

Lemma learncpp_markers_kept_witness :
  exists s' cache',
    Learncpp.translate_missing [lit "return value"] ∅ backend_one_phrase no_calls
      = (s', Some cache')
    /\ filled_with (fun _ => zwroc_wartosc) [lit "return value"] ∅ cache'
    /\ calls s'
       = calls no_calls
         ++ map (fun b => Group (map snd b))
                (Learncpp.build_batches (missing_items [lit "return value"] ∅) MAX_LEN).
Proof.
  apply (learncpp_markers_kept (fun _ => zwroc_wartosc) [lit "return value"] ∅
           backend_one_phrase no_calls).
  - repeat constructor.
  - intros t. vm_compute. reflexivity.
Defined.

Section CodeCommentsMarkersKept.
Context `{PyTables} {World : Type}.
Implicit Types (tr : translator World) (s : io World).

Lemma fix_vals_accepted (g : list N -> list N) tr_en tr_auto vals s :
  Forall (fun src => CodeComments.is_bad_translation src
                       (CodeComments.postprocess_translation (g src)) = false) vals ->
  CodeComments.fix_vals tr_en tr_auto (zip vals (map g vals)) s
  = (s, map (fun t => CodeComments.postprocess_translation (g t)) vals).
Proof.
  induction 1 as [|src vals Hsrc _ IH]; [done|].
  cbn [map zip zip_with CodeComments.fix_vals]. rewrite Hsrc.
  fold (zip vals (map g vals)). by rewrite IH.
Qed.

Lemma code_comments_translate_batches_answered (g : list N -> list N)
    tr_auto tr_en texts batches cache s :
  answers_batches g tr_auto batches ->
  (forall t, contains OPENER (g t) = false) ->
  Forall (Forall (fun it =>
            texts !! it.1 = Some it.2
            /\ CodeComments.is_bad_translation it.2
                 (CodeComments.postprocess_translation (g it.2)) = false)) batches ->
  exists s',
    CodeComments.translate_batches tr_auto tr_en texts batches cache s
    = (s', Some (fold_left
                   (fun c it => <[it.2 := CodeComments.postprocess_translation (g it.2)]> c)
                   (concat batches) cache))
    /\ calls s' = calls s ++ map (fun b => Group (map snd b)) batches.
Proof.
  intros Hans Hclean Hb. revert cache s.
  induction Hb as [|batch batches Hbatch _ IH]; intros cache s.
  - eexists. split; [done|]. by rewrite app_nil_r.
  - apply Forall_cons in Hans as [Hans1 Hans].
    cbn [CodeComments.translate_batches].
    destruct (group_attempts_answered g tr_auto (map snd batch) s 4 Hans1 Hclean)
      as (s1 & -> & H1).
    rewrite fix_vals_accepted.
    2:{ apply Forall_forall. intros t [it [-> Hin]]%list_elem_of_fmap.
        rewrite Forall_forall in Hbatch. by apply Hbatch. }
    rewrite (store_fill (fun t => CodeComments.postprocess_translation (g t))).
    2:{ eapply Forall_impl; [exact Hbatch|]. by intros it [? _]. }
    destruct (IH Hans
                (fold_left
                   (fun c it => <[it.2 := CodeComments.postprocess_translation (g it.2)]> c)
                   batch cache) s1) as (s2 & -> & H2).
    exists s2. cbn [concat map]. rewrite fold_left_app. split; [done|].
    rewrite H2, H1, <- app_assoc. done.
Qed.

End CodeCommentsMarkersKept.

(** X12: The protocol at work in [translate_code_comments_pl.py]: when the first
    backend answers the payload of every batch with the payload of the
    translations, markers kept and no marker text inside a translation, and
    [is_bad_translation] rejects none of them once post-processed,
    [translate_missing] makes exactly one request for each batch, in order,
    and stores the post-processed translation for every text that was
    missing from the cache. *)
Theorem code_comments_markers_kept `{PyTables} {World : Type} (g : list N -> list N)
    (texts : list (list N)) (cache : gmap (list N) (list N))
    (tr_auto tr_en : translator World) (s : io World) :
  answers_batches g tr_auto
    (CodeComments.build_batches (missing_items texts cache) MAX_LEN) ->
  (forall t, contains (lit "<<<M") (g t) = false) ->
  (forall t, t ∈ texts -> cache !! t = None ->
     CodeComments.is_bad_translation t
       (CodeComments.postprocess_translation (g t)) = false) ->
  exists s' cache',
    CodeComments.translate_missing texts cache tr_auto tr_en s = (s', Some cache')
    /\ filled_with (fun t => CodeComments.postprocess_translation (g t))
         texts cache cache'
    /\ calls s'
       = calls s ++ map (fun b => Group (map snd b))
                        (CodeComments.build_batches (missing_items texts cache) MAX_LEN).
Proof.
  intros Hans Hclean Hgood. unfold CodeComments.translate_missing.
  pose proof (filled_with_missing
                (fun t => CodeComments.postprocess_translation (g t)) texts cache)
    as Hfill.
  destruct (code_comments_build_batches_ok (missing_items texts cache) MAX_LEN)
    as [Hconcat _].
  destruct (missing_items texts cache) as [|it missing] eqn:Hm.
  - exists s, cache. split; [done|]. split; [done|].
    assert (CodeComments.build_batches [] MAX_LEN = []) as -> by done.
    by rewrite app_nil_r.
  - cbn [is_nil]. rewrite <- Hm in *.
    destruct (code_comments_translate_batches_answered g tr_auto tr_en texts
                (CodeComments.build_batches (missing_items texts cache) MAX_LEN)
                cache s Hans Hclean) as (s' & -> & Hcalls).
    { pose proof (batches_of_missing texts cache _ Hconcat) as Hbm.
      eapply Forall_impl; [exact Hbm|]. intros b Hb.
      eapply Forall_impl; [exact Hb|]. intros x [Hx Hc]. split; [done|].
      apply Hgood; [|done]. by eapply list_elem_of_lookup_2. }
    rewrite Hconcat in *. eexists s', _. split; [done|]. by split.
Qed.

Lemma code_comments_markers_kept_witness :
  exists s' cache',
    @CodeComments.translate_missing ascii_tables unit [lit "return value"] ∅
      backend_one_phrase backend_down no_calls = (s', Some cache')
    /\ filled_with
         (fun t => @CodeComments.postprocess_translation ascii_tables zwroc_wartosc)
         [lit "return value"] ∅ cache'
    /\ calls s'
       = calls no_calls
         ++ map (fun b => Group (map snd b))
                (CodeComments.build_batches
                   (missing_items [lit "return value"] ∅) MAX_LEN).
Proof.
  apply (@code_comments_markers_kept ascii_tables unit (fun _ => zwroc_wartosc)
           [lit "return value"] ∅ backend_one_phrase backend_down no_calls).
  - repeat constructor.
  - intros t. vm_compute. reflexivity.
  - intros t Hin _. apply list_elem_of_singleton in Hin as ->.
    vm_compute. reflexivity.
Defined.

(** ** [postprocess_translation] and the values stored in the cache *)

Lemma double_space_cons (a : N) (s : list N) :
  (forall b, head s = Some b -> isspace a && isspace b = false) ->
  double_space (a :: s) = double_space s.
Proof. destruct s as [|b s]; [done|]. intros Hb. simpl. by rewrite (Hb b). Qed.

Lemma double_space_app (a b : list N) :
  double_space (a ++ b) = false -> double_space a = false /\ double_space b = false.
Proof.
  induction a as [|x a IH]; [done|].
  destruct a as [|y a].
  - simpl. destruct b as [|z b]; [done|]. intros [_ Hb]%orb_false_elim. done.
  - cbn [app double_space] in *. intros [Hxy Hr]%orb_false_elim.
    destruct (IH Hr) as [Ha Hb]. split; [|done]. by rewrite Hxy, Ha.
Qed.

Lemma double_space_strip (s : list N) :
  double_space s = false -> double_space (strip s) = false.
Proof.
  destruct (strip_decomp s) as (l & w & Hs & _ & _). intros Hd.
  rewrite Hs in Hd. apply double_space_app in Hd as [_ Hd].
  by apply double_space_app in Hd as [Hd _].
Qed.

Section Tidy.
Context `{PyTables}.

Lemma re_sub_go_skip (match_at : option N -> list N -> option nat) (repl : list N)
    (prev : option N) (k : nat) (s : list N) :
  exists prev', CodeComments.re_sub_go match_at repl prev k s
                = CodeComments.re_sub_go match_at repl prev' 0 (drop k s).
Proof.
  revert prev s. induction k as [|k IH]; intros prev s; [by exists prev|].
  destruct s as [|c s]; [by exists prev|]. apply IH.
Qed.

Lemma spaces_go_nonspace (prev : option N) (d : N) (s : list N) :
  isspace d = false ->
  CodeComments.re_sub_go CodeComments.spaces_match (lit " ") prev 0 (d :: s)
  = d :: CodeComments.re_sub_go CodeComments.spaces_match (lit " ") (Some d) 0 s.
Proof.
  intros Hd. cbn [CodeComments.re_sub_go].
  change (CodeComments.spaces_match prev (d :: s))
    with (if 2 <=? length (take_while isspace (d :: s))
          then Some (length (take_while isspace (d :: s))) else None).
  cbn [take_while]. by rewrite Hd.
Qed.

Lemma spaces_go_head (prev : option N) (s : list N) (b : N) :
  (forall d, head s = Some d -> isspace d = false) ->
  head (CodeComments.re_sub_go CodeComments.spaces_match (lit " ") prev 0 s) = Some b ->
  isspace b = false.
Proof.
  destruct s as [|d s]; [done|]. intros Hd. rewrite spaces_go_nonspace by by apply Hd.
  intros [= <-]. by apply Hd.
Qed.

Lemma spaces_go_tidy (n : nat) (prev : option N) (s : list N) :
  length s <= n ->
  double_space (CodeComments.re_sub_go CodeComments.spaces_match (lit " ") prev 0 s)
  = false.
Proof.
  revert prev s. induction n as [|n IH]; intros prev s Hn.
  - destruct s; [done|simpl in Hn; lia].
  - destruct s as [|c s]; [done|].
    set (ws := take_while isspace (c :: s)).
    pose proof (take_drop_while isspace (c :: s)) as Htd. fold ws in Htd.
    pose proof (drop_while_head isspace (c :: s)) as Hhead.
    assert (drop (length ws) (c :: s) = drop_while isspace (c :: s)) as Hdrop.
    { rewrite <- Htd at 1. by rewrite drop_app_length. }
    cbn [CodeComments.re_sub_go].
    change (CodeComments.spaces_match prev (c :: s))
      with (if 2 <=? length ws then Some (length ws) else None).
    destruct (Nat.leb_spec 2 (length ws)) as [H2|H2].
    + destruct (length ws) as [|len] eqn:El; [lia|].
      destruct (re_sub_go_skip CodeComments.spaces_match (lit " ") (Some c) len s)
        as (prev' & ->).
      change (drop len s) with (drop (S len) (c :: s)). rewrite Hdrop.
      change (lit " " ++ ?x) with (32%N :: x).
      rewrite double_space_cons.
      * apply IH. rewrite <- Hdrop. rewrite length_drop. simpl in *. lia.
      * intros b Hb. apply spaces_go_head in Hb; [by rewrite Hb, andb_false_r|].
        intros d Hd. destruct (drop_while isspace (c :: s)) as [|d' r] eqn:Ed; [done|].
        injection Hd as <-. by apply (Hhead d' r).
    + rewrite double_space_cons.
      * apply IH. simpl in Hn. lia.
      * intros b Hb. destruct (isspace c) eqn:Hc; [|done]. cbn [andb].
        apply spaces_go_head in Hb; [done|].
        intros d Hd. destruct s as [|d' s']; [done|]. injection Hd as <-.
        destruct (isspace d') eqn:Hd'; [|done].
        unfold ws in H2. cbn [take_while] in H2. rewrite Hc in H2.
        cbn [take_while] in H2. rewrite Hd' in H2. simpl in H2. lia.
Qed.

Lemma postprocess_translation_tidy (text : list N) :
  tidy (CodeComments.postprocess_translation text).
Proof.
  unfold CodeComments.postprocess_translation, tidy.
  destruct (strip text) as [|a r] eqn:Es; [done|]. cbn [is_nil].
  split; [apply strip_idem|].
  apply double_space_strip. unfold CodeComments.re_sub.
  by apply (spaces_go_tidy _ None _ (Nat.le_refl _)).
Qed.

End Tidy.

(** X13: What [postprocess_translation] returns is trimmed and has no two
    whitespace characters in a row, whatever the text it is given. *)
Theorem postprocess_translation_is_tidy `{PyTables} (text : list N) :
  strip (CodeComments.postprocess_translation text)
  = CodeComments.postprocess_translation text
  /\ double_space (CodeComments.postprocess_translation text) = false.
Proof. apply postprocess_translation_tidy. Qed.

Lemma store_values (P : list N -> Prop) (texts : list (list N))
    (pairs : list (nat * list N)) (cache cache' : gmap (list N) (list N)) :
  store texts pairs cache = Some cache' ->
  Forall P pairs.*2 ->
  forall k v, cache' !! k = Some v -> cache !! k = Some v \/ P v.
Proof.
  revert cache. induction pairs as [|[i t] pairs IH]; intros cache.
  - intros [= <-] _ k v Hk. by left.
  - cbn [store]. destruct (texts !! i) as [key|]; [|done].
    intros Hs [Ht Hp]%Forall_cons k v Hk.
    destruct (IH _ Hs Hp k v Hk) as [Hin|Hv]; [|by right].
    destruct (decide (key = k)) as [->|Hne].
    + rewrite lookup_insert_eq in Hin. injection Hin as <-. by right.
    + rewrite lookup_insert_ne in Hin by done. by left.
Qed.

Section TidyCache.
Context `{PyTables} {World : Type}.
Implicit Types (tr : translator World) (s : io World).

Lemma translate_one_loop_tidy (trs : list (translator World)) text last s s' x :
  CodeComments.translate_one_loop trs text last s = (s', x) -> tidy x.
Proof.
  revert last s. induction trs as [|tr trs IH]; intros last s;
    cbn [CodeComments.translate_one_loop].
  - intros [= _ <-]. apply postprocess_translation_tidy.
  - destruct (single_attempts 4 tr text s) as [s1 [reply|]].
    + destruct (negb _).
      * intros [= _ <-]. apply postprocess_translation_tidy.
      * apply IH.
    + apply IH.
Qed.

Lemma code_comments_translate_each_tidy tr_en tr_auto vals s s' xs :
  CodeComments.translate_each tr_en tr_auto vals s = (s', xs) -> Forall tidy xs.
Proof.
  revert s s' xs. induction vals as [|t vals IH]; intros s s' xs;
    cbn [CodeComments.translate_each].
  - by intros [= _ <-].
  - destruct (CodeComments.translate_one t tr_en tr_auto s) as [s1 x] eqn:H1.
    destruct (CodeComments.translate_each tr_en tr_auto vals s1) as [s2 ys] eqn:H2.
    intros [= _ <-]. constructor; [by eapply translate_one_loop_tidy|by eapply IH].
Qed.

Lemma fix_vals_tidy tr_en tr_auto pairs s s' xs :
  CodeComments.fix_vals tr_en tr_auto pairs s = (s', xs) -> Forall tidy xs.
Proof.
  revert s s' xs. induction pairs as [|[src t] pairs IH]; intros s s' xs;
    cbn [CodeComments.fix_vals].
  - by intros [= _ <-].
  - assert (exists s1 x,
      (if CodeComments.is_bad_translation src (CodeComments.postprocess_translation t)
       then CodeComments.translate_one src tr_en tr_auto s
       else (s, CodeComments.postprocess_translation t)) = (s1, x)
      /\ tidy x) as (s1 & x & -> & Hx).
    { destruct (CodeComments.is_bad_translation _ _).
      - destruct (CodeComments.translate_one src tr_en tr_auto s) as [s1 x] eqn:H1.
        exists s1, x. split; [done|]. by eapply translate_one_loop_tidy.
      - eexists s, _. split; [done|]. apply postprocess_translation_tidy. }
    destruct (CodeComments.fix_vals tr_en tr_auto pairs s1) as [s2 ys] eqn:H2.
    intros [= _ <-]. constructor; [done|by eapply IH].
Qed.

Lemma code_comments_translate_batches_tidy tr_auto tr_en texts batches cache s s' cache' :
  CodeComments.translate_batches tr_auto tr_en texts batches cache s = (s', Some cache') ->
  forall k v, cache' !! k = Some v -> cache !! k = Some v \/ tidy v.
Proof.
  revert cache s. induction batches as [|batch batches IH]; intros cache s.
  - intros [= _ <-] k v Hk. by left.
  - cbn [CodeComments.translate_batches].
    destruct (group_attempts 5 tr_auto (map snd batch) s) as [s1 tv].
    assert (exists s2 tv2,
      match tv with
      | None => CodeComments.translate_each tr_en tr_auto (map snd batch) s1
      | Some out => CodeComments.fix_vals tr_en tr_auto (zip (map snd batch) out) s1
      end = (s2, tv2) /\ Forall tidy tv2) as (s2 & tv2 & -> & H2).
    { destruct tv as [out|].
      - destruct (CodeComments.fix_vals tr_en tr_auto _ s1) as [s2 tv2] eqn:He.
        exists s2, tv2. split; [done|]. by eapply fix_vals_tidy.
      - destruct (CodeComments.translate_each tr_en tr_auto _ s1) as [s2 tv2] eqn:He.
        exists s2, tv2. split; [done|]. by eapply code_comments_translate_each_tidy. }
    destruct (store texts _ cache) as [cache1|] eqn:Hs; [|done].
    intros Hr k v Hk. destruct (IH _ _ Hr k v Hk) as [Hin|Hv]; [|by right].
    eapply (store_values tidy); [exact Hs| |exact Hin].
    apply Forall_forall. intros x [[i y] [-> Hin']]%list_elem_of_fmap.
    apply elem_of_zip_r in Hin'. rewrite Forall_forall in H2. by apply H2.
Qed.

End TidyCache.

(** X14: Every translation that [translate_missing] of
    [translate_code_comments_pl.py] adds to the cache went through
    [postprocess_translation] last: an entry of the cache after the call is
    an entry of the cache before it, or its value is trimmed and has no two
    whitespace characters in a row. *)
Theorem code_comments_cache_values_tidy `{PyTables} {World : Type}
    (texts : list (list N)) (cache cache' : gmap (list N) (list N))
    (tr_auto tr_en : translator World) (s s' : io World) (k v : list N) :
  CodeComments.translate_missing texts cache tr_auto tr_en s = (s', Some cache') ->
  cache' !! k = Some v ->
  cache !! k = Some v
  \/ (strip v = v /\ double_space v = false).
Proof.
  unfold CodeComments.translate_missing.
  destruct (is_nil (missing_items texts cache)).
  - intros [= _ <-] Hk. by left.
  - intros Hr Hk. by eapply code_comments_translate_batches_tidy.
Qed.

Lemma code_comments_cache_values_tidy_witness :
  (∅ : gmap (list N) (list N)) !! lit "return  value " = Some (lit "return value")
  \/ (strip (lit "return value") = lit "return value"
      /\ double_space (lit "return value") = false).
Proof.
  apply (@code_comments_cache_values_tidy ascii_tables unit
           [lit "return  value "] ∅ {[ lit "return  value " := lit "return value" ]}
           backend_down backend_down no_calls
           {| world := tt; calls := replicate 5 (Group [lit "return  value "])
                                    ++ replicate 8 (Single (lit "return  value ")) |}
           (lit "return  value ") (lit "return value")).
  - vm_compute. reflexivity.
  - vm_compute. reflexivity.
Defined.

(** ** The classifier of comments *)

Lemma looks_english_eq `{PyTables} (text : list N) :
  CodeComments.looks_english text
  = (negb (is_nil (strip text)) && negb (PL_CHARS_RE_search (strip text))
     && ((2 <=? (CodeComments.english_score (strip text)).1)
         || ((6 <=? (CodeComments.english_score (strip text)).2)
             && (1 <=? (CodeComments.english_score (strip text)).1))))%bool.
Proof.
  unfold CodeComments.looks_english.
  destruct (is_nil (strip text)); [done|].
  destruct (PL_CHARS_RE_search (strip text)); [done|]. cbn [orb negb andb].
  destruct (CodeComments.english_score (strip text)) as [hits total]. cbn [fst snd].
  destruct (Nat.leb_spec 2 hits); [done|]. cbn [orb].
  destruct (Nat.leb_spec 6 total); cbn [andb].
  - destruct (Nat.leb_spec 1 hits); [done|]. by rewrite andb_false_r.
  - destruct (Nat.leb_spec 8 total); [lia|]. done.
Qed.

(** X15: [looks_english] is decided by the words alone: a text looks English
    exactly when, trimmed, it is not empty, has no Polish letter, and has two
    hint words, or one among six words or more.  The last test of the
    function, on the share of letters, never changes the answer. *)
Theorem looks_english_by_words `{PyTables} (text : list N) :
  CodeComments.looks_english text
  = (negb (is_nil (strip text)) && negb (PL_CHARS_RE_search (strip text))
     && ((2 <=? (CodeComments.english_score (strip text)).1)
         || ((6 <=? (CodeComments.english_score (strip text)).2)
             && (1 <=? (CodeComments.english_score (strip text)).1))))%bool.
Proof. apply looks_english_eq. Qed.

Lemma english_score_total (s : list N) :
  (CodeComments.english_score s).2 = length (WORD_RE_findall s).
Proof.
  unfold CodeComments.english_score. by destruct (WORD_RE_findall s).
Qed.

(** X16: A text that [looks_english] is one that [should_translate_comment]
    accepts, unless it is longer than 500 characters or has a URL marker in
    it: the two tests agree on what is still to be translated. *)
Theorem looks_english_is_translatable `{PyTables} (text : list N) :
  CodeComments.looks_english text = true ->
  length (strip text) <= 500 ->
  CodeComments.URL_RE_search (strip text) = false ->
  CodeComments.should_translate_comment text = true.
Proof.
  rewrite looks_english_eq. intros Hle Hlen Hurl.
  apply andb_prop in Hle as [Hle Hwords]. apply andb_prop in Hle as [Hne Hpl].
  apply negb_true_iff in Hpl.
  destruct (english_score_bounds (strip text)) as [Hw Hl].
  pose proof (english_score_total (strip text)) as Ht.
  unfold CodeComments.should_translate_comment. rewrite Hurl, Hpl.
  destruct (CodeComments.english_score (strip text)) as [hits total] eqn:Hs.
  cbn [fst snd] in *.
  assert (1 <= hits /\ 2 <= length (WORD_RE_findall (strip text))) as [Hh Hn].
  { apply orb_prop in Hwords as [H2|H6].
    - apply Nat.leb_le in H2. lia.
    - apply andb_prop in H6 as [H6 H1]. apply Nat.leb_le in H6, H1. lia. }
  destruct (strip text) as [|a r] eqn:E; [done|]. cbn [is_nil].
  destruct (Nat.ltb_spec (length (a :: r)) 3); [lia|].
  destruct (Nat.ltb_spec 500 (length (a :: r))); [lia|]. cbn [orb].
  destruct (WORD_RE_findall (a :: r)) as [|w ws]; [simpl in Hn; lia|]. cbn [is_nil].
  destruct (Nat.eqb_spec hits 0); [lia|].
  rewrite andb_false_r. cbn [andb].
  by destruct (Nat.leb_spec 1 hits); [|lia].
Qed.

Lemma looks_english_is_translatable_witness :
  @CodeComments.should_translate_comment ascii_tables (lit " create the object ")
  = true.
Proof.
  apply (@looks_english_is_translatable ascii_tables (lit " create the object "));
    vm_compute; [reflexivity|lia|reflexivity].
Defined.

Lemma str_eqb_neq (a b : list N) : a <> b -> str_eqb a b = false.
Proof.
  intros Hne. destruct (str_eqb a b) eqn:E; [|done]. by apply str_eqb_eq in E.
Qed.

(** X17: A translation with a Polish letter in it is accepted by
    [is_bad_translation], unless it has mojibake in it or is, trimmed, the
    trimmed source. *)
Theorem polish_translation_accepted `{PyTables} (source translated : list N) :
  PL_CHARS_RE_search (strip translated) = true ->
  CodeComments.MOJIBAKE_RE_search (strip translated) = false ->
  strip source <> strip translated ->
  CodeComments.is_bad_translation source translated = false.
Proof.
  intros Hpl Hmoji Hne. unfold CodeComments.is_bad_translation.
  pose proof (strip_idem translated) as Hidem.
  destruct (strip translated) as [|a r] eqn:Et; [done|]. cbn [is_nil].
  rewrite Hmoji, (str_eqb_neq _ _ Hne). cbn [andb].
  assert (CodeComments.looks_english (a :: r) = false) as ->.
  { rewrite looks_english_eq, Hidem, Hpl. cbn [negb andb]. by rewrite andb_false_r. }
  by rewrite andb_false_r.
Qed.

Lemma polish_translation_accepted_witness :
  @CodeComments.is_bad_translation ascii_tables (lit "return value") zwroc_wartosc
  = false.
Proof.
  apply (@polish_translation_accepted ascii_tables (lit "return value") zwroc_wartosc);
    vm_compute; [reflexivity|reflexivity|discriminate].
Defined.

(** ** Rewriting the comments of a code block *)

Lemma find_comment_spans_inv (code : list N) :
  Forall (span_ok code) (find_comment_spans code)
  /\ separated (find_comment_spans code).
Proof.
  pose proof (find_comment_spans_run code) as Hrun.
  assert (scan_inv code 0 []) as Hinit
    by (repeat split; try constructor; by intros ? ? ? ? ?).
  by destruct (scan_run_inv _ _ _ _ _ Hrun Hinit) as (i' & Hok & _ & Hsep).
Qed.

Lemma span_ok_bounds (code : list N) (sp : nat * nat * span_kind) :
  span_ok code sp -> span_start sp <= span_end sp /\ span_end sp <= length code.
Proof. destruct sp as [[s e] k]. intros (_ & Hse & Hel & _). done. Qed.

Lemma separated_cons (sp : nat * nat * span_kind)
    (spans : list (nat * nat * span_kind)) :
  separated (sp :: spans) ->
  separated spans /\ Forall (fun y => span_end sp + 2 <= span_start y) spans.
Proof.
  intros Hsep. split.
  - intros a b x y Hab Ha Hb. apply (Hsep (S a) (S b) x y); [lia|done|done].
  - apply Forall_forall. intros y [j Hj]%list_elem_of_lookup_1.
    apply (Hsep 0 (S j) sp y); [lia|done|done].
Qed.

Lemma spans_in_order (code : list N) (pos : nat)
    (spans : list (nat * nat * span_kind)) :
  pos <= length code ->
  Forall (span_ok code) spans -> separated spans ->
  Forall (fun y => pos <= span_start y) spans ->
  in_order pos (length code) spans.
Proof.
  revert pos. induction spans as [|sp spans IH]; intros pos Hpos Hok Hsep Hge.
  - done.
  - apply Forall_cons in Hok as [Hsp Hok]. apply Forall_cons in Hge as [Hs _].
    apply separated_cons in Hsep as [Hsep Hnext].
    destruct (span_ok_bounds _ _ Hsp) as [Hse Hel].
    cbn [in_order]. split; [done|]. split; [done|].
    apply IH; try done. eapply Forall_impl; [exact Hnext|]. simpl. lia.
Qed.

Lemma find_comment_spans_in_order (code : list N) :
  in_order 0 (length code) (find_comment_spans code).
Proof.
  destruct (find_comment_spans_inv code) as [Hok Hsep].
  apply spans_in_order; try done; [lia|].
  apply Forall_forall. intros; lia.
Qed.

Lemma in_order_le (pos len : nat) (spans : list (nat * nat * span_kind)) :
  in_order pos len spans -> pos <= len.
Proof.
  revert pos. induction spans as [|sp spans IH]; intros pos; [done|].
  intros (Hs & He & Hr). apply IH in Hr. lia.
Qed.

Lemma take_slice (a b : nat) (s : list N) :
  a <= b -> take a s ++ slice a b s = take b s.
Proof.
  intros Hab. unfold slice. rewrite take_take_drop. f_equal. lia.
Qed.

Lemma slice_take_app (a b : nat) (s x : list N) :
  a <= b -> b <= length s -> slice a b (take b s ++ x) = slice a b s.
Proof.
  intros Hab Hb. unfold slice.
  rewrite drop_app_le by (rewrite length_take; lia).
  rewrite take_app_le by (rewrite length_drop, length_take; lia).
  rewrite take_ge by (rewrite length_drop, length_take; lia).
  rewrite take_drop_commute. f_equal. f_equal. lia.
Qed.

Section Rewrite.
Context `{PyTables}.

Lemma rewrite_fold (code : list N) (cache : gmap (list N) (list N)) (pos : nat)
    (spans : list (nat * nat * span_kind)) :
  in_order pos (length code) spans ->
  fold_left (CodeComments.rewrite_span cache) (rev spans) (code, false)
  = (take pos code ++ splice code pos (map (comment_edit code cache) spans),
     existsb (comment_differs code cache) spans).
Proof.
  revert pos. induction spans as [|[[s e] k] spans IH]; intros pos.
  - intros _. simpl. by rewrite take_drop.
  - cbn [in_order span_start span_end fst snd]. intros (Hs & He & Hr).
    pose proof (in_order_le _ _ _ Hr) as Hel.
    cbn [rev]. rewrite fold_left_app, (IH e Hr).
    cbn [fold_left CodeComments.rewrite_span map splice existsb].
    unfold comment_differs, comment_edit.
    cbn [span_start span_end span_kind_of fst snd].
    rewrite slice_take_app by done.
    set (old := slice s e code).
    set (new := CodeComments.translate_comment_content old k cache).
    destruct (str_eqb new old) eqn:Heq; cbn [negb orb].
    + apply str_eqb_eq in Heq. rewrite Heq. f_equal.
      rewrite !app_assoc. f_equal.
      rewrite take_slice by done. unfold old. by rewrite take_slice.
    + f_equal.
      rewrite take_app_le by (rewrite length_take; lia).
      rewrite take_take, Nat.min_l by done.
      rewrite drop_app_length' by (rewrite length_take; lia).
      rewrite !app_assoc. f_equal. f_equal. by rewrite take_slice.
Qed.

Lemma rewrite_code_comments_eq (code : list N) (cache : gmap (list N) (list N)) :
  CodeComments.rewrite_code_comments code cache
  = (splice code 0 (map (comment_edit code cache) (find_comment_spans code)),
     existsb (comment_differs code cache) (find_comment_spans code)).
Proof.
  unfold CodeComments.rewrite_code_comments.
  pose proof (rewrite_fold code cache 0 _ (find_comment_spans_in_order code)) as Hf.
  destruct (find_comment_spans code) as [|sp spans]; [done|].
  cbn [is_nil]. rewrite Hf. done.
Qed.

End Rewrite.

(** X18: [rewrite_code_comments] replaces the comments where they stand: working
    from the last span to the first, it ends with the code in which the
    content of every comment span is replaced by what
    [translate_comment_content] makes of it, and everything outside the spans
    is kept; [changed] tells whether one of the replacements differs from
    the content it replaces. *)
Theorem rewrite_code_comments_in_place `{PyTables} (code : list N)
    (cache : gmap (list N) (list N)) :
  CodeComments.rewrite_code_comments code cache
  = (splice code 0 (map (comment_edit code cache) (find_comment_spans code)),
     existsb (comment_differs code cache) (find_comment_spans code)).
Proof. apply rewrite_code_comments_eq. Qed.

Lemma endswith_inv (p s : list N) :
  endswith p s = true -> exists r, s = r ++ p.
Proof.
  unfold endswith. intros [r Hr]%startswith_inv. exists (rev r).
  apply rev_inj. by rewrite rev_app_distr, rev_involutive.
Qed.

Lemma endswith_take (p s : list N) :
  endswith p s = true -> take (length s - length p) s ++ p = s.
Proof.
  intros [r ->]%endswith_inv. rewrite length_app.
  replace (length r + length p - length p) with (length r) by lia.
  by rewrite take_app_length.
Qed.

Lemma splitlines_keepends_concat (s cur : list N) :
  concat (CodeComments.splitlines_keepends s cur) = rev cur ++ s.
Proof.
  remember (length s) as n eqn:Hn. revert s cur Hn.
  induction n as [n IH] using lt_wf_ind. intros s cur Hn.
  destruct s as [|c s]; cbn [CodeComments.splitlines_keepends].
  - destruct cur; simpl; by rewrite ?app_nil_r.
  - destruct (char_eqb c 13) eqn:E13.
    + destruct s as [|d s].
      * simpl. by rewrite app_nil_r.
      * destruct (char_eqb d 10).
        -- cbn [concat]. rewrite (IH (length s)); [|simpl in Hn; lia|done].
           cbn [rev]. by rewrite <- !app_assoc.
        -- cbn [concat]. rewrite (IH (length (d :: s))); [|simpl in *; lia|done].
           cbn [rev]. by rewrite <- !app_assoc.
    + destruct (CodeComments.is_linebreak c).
      * cbn [concat]. rewrite (IH (length s)); [|simpl in Hn; lia|done].
        cbn [rev]. by rewrite <- !app_assoc.
      * rewrite (IH (length s)); [|simpl in Hn; lia|done].
        cbn [rev]. by rewrite <- !app_assoc.
Qed.

Lemma split_line_end_app (line : list N) :
  (CodeComments.split_line_end line).1 ++ (CodeComments.split_line_end line).2 = line.
Proof.
  unfold CodeComments.split_line_end.
  destruct (endswith [13; 10]%N line) eqn:E1; [by apply (endswith_take [13; 10]%N)|].
  destruct (endswith [10%N] line) eqn:E2; [by apply (endswith_take [10%N])|].
  destruct (endswith [13%N] line) eqn:E3; [by apply (endswith_take [13%N])|].
  apply app_nil_r.
Qed.

Lemma drop_take_while (p : N -> bool) (s : list N) :
  drop (length (take_while p s)) s = drop_while p s.
Proof.
  pose proof (take_drop_while p s) as E.
  assert (forall a b : list N, a ++ b = s -> drop (length a) s = b) as Hd.
  { intros a b <-. by rewrite drop_app_length. }
  by apply Hd.
Qed.

Lemma BLOCK_DECOR_RE_match_app (raw prefix body : list N) :
  CodeComments.BLOCK_DECOR_RE_match raw = Some (prefix, body) ->
  prefix ++ body = raw.
Proof.
  unfold CodeComments.BLOCK_DECOR_RE_match.
  set (ws := take_while isspace raw).
  set (r1 := drop (length ws) raw).
  set (stars := take_while (fun c => char_eqb c 42) r1).
  assert (ws ++ r1 = raw) as Hraw.
  { unfold r1, ws. rewrite drop_take_while. apply take_drop_while. }
  assert (stars ++ drop (length stars) r1 = r1) as Hr1.
  { unfold stars. rewrite drop_take_while. apply take_drop_while. }
  destruct (is_nil stars); [done|].
  destruct (drop (length stars) r1) as [|c r3].
  - intros [= <- <-]. rewrite app_nil_r in *. by rewrite Hr1.
  - destruct (isspace c); intros [= <- <-]; rewrite <- Hraw, <- Hr1;
      by rewrite <- !app_assoc.
Qed.

Section IdentityCache.
Context `{PyTables}.


Lemma translate_body_split (cache : gmap (list N) (list N)) (body : list N) :
  CodeComments.translate_body cache body
  = if CodeComments.should_translate_comment body
    then take_while isspace body ++ CodeComments.cache_get cache (strip body)
           ++ drop (length (rstrip body)) body
    else body.
Proof.
  unfold CodeComments.translate_body. rewrite split_ws_parts.
  rewrite should_translate_comment_strip.
  destruct (CodeComments.should_translate_comment body) eqn:Hs; [|done].
  cbn [negb]. destruct (forallb isspace body) eqn:Hb; [|done].
  rewrite <- should_translate_comment_strip, strip_blank in Hs by done. done.
Qed.

Lemma body_rebuilt (body : list N) :
  forallb isspace body = false ->
  take_while isspace body ++ strip body ++ drop (length (rstrip body)) body = body.
Proof.
  intros Hb. destruct (split_ws_nonblank body Hb) as (a & b & mid & Hsplit & Hbody & _).
  rewrite split_ws_parts, Hb in Hsplit. injection Hsplit as Hmid Htrail.
  by rewrite <- Hmid, <- Htrail in Hbody.
Qed.

Lemma translate_body_identity (cache : gmap (list N) (list N)) (body : list N) :
  identity_cache cache -> CodeComments.translate_body cache body = body.
Proof.
  intros Hid. rewrite translate_body_split.
  destruct (CodeComments.should_translate_comment body) eqn:Hs; [|done].
  assert (CodeComments.cache_get cache (strip body) = strip body) as ->.
  { unfold CodeComments.cache_get.
    destruct (cache !! strip body) as [v|] eqn:Hv; [|done]. by apply Hid in Hv. }
  apply body_rebuilt. destruct (forallb isspace body) eqn:Hb; [|done].
  rewrite <- should_translate_comment_strip, strip_blank in Hs by done. done.
Qed.

Lemma translate_line_identity (cache : gmap (list N) (list N)) (line : list N) :
  identity_cache cache -> CodeComments.translate_line cache line = line.
Proof.
  intros Hid. unfold CodeComments.translate_line.
  pose proof (split_line_end_app line) as Hl.
  destruct (CodeComments.split_line_end line) as [raw end_]. cbn [fst snd] in Hl.
  destruct (CodeComments.BLOCK_DECOR_RE_match raw) as [[prefix body]|] eqn:Hm.
  - apply BLOCK_DECOR_RE_match_app in Hm.
    rewrite translate_body_identity by done. by rewrite app_assoc, Hm.
  - by rewrite translate_body_identity.
Qed.

Lemma translate_comment_content_identity (cache : gmap (list N) (list N))
    (content : list N) (kind : span_kind) :
  identity_cache cache ->
  CodeComments.translate_comment_content content kind cache = content.
Proof.
  intros Hid. unfold CodeComments.translate_comment_content.
  destruct kind; [by apply translate_body_identity|].
  destruct (_ || _); [|by apply translate_body_identity].
  rewrite <- (splitlines_keepends_concat content []) at 2. cbn [rev app].
  f_equal. induction (CodeComments.splitlines_keepends content []) as [|l ls IH];
    [done|].
  cbn [map]. by rewrite translate_line_identity, IH.
Qed.

Lemma rewrite_code_comments_identity (code : list N)
    (cache : gmap (list N) (list N)) :
  identity_cache cache ->
  CodeComments.rewrite_code_comments code cache = (code, false).
Proof.
  intros Hid. unfold CodeComments.rewrite_code_comments.
  destruct (is_nil (find_comment_spans code)); [done|].
  induction (rev (find_comment_spans code)) as [|[[s e] k] spans IH]; [done|].
  cbn [fold_left CodeComments.rewrite_span].
  by rewrite translate_comment_content_identity, str_eqb_refl.
Qed.

Lemma process_file_identity (text : list N) (cache : gmap (list N) (list N)) :
  identity_cache cache -> CodeComments.process_text text cache = (text, false).
Proof.
  intros Hid. unfold CodeComments.process_text.
  assert (forall ms out last,
    (fold_left (CodeComments.process_match text cache) ms (out, last, false)).2 = false)
    as Hfold.
  { induction ms as [|[[[[mstart mend] prefix] code_escaped] suffix] ms IH];
      intros out last; [done|].
    cbn [fold_left CodeComments.process_match].
    rewrite rewrite_code_comments_identity by done. cbn [orb]. apply IH. }
  specialize (Hfold (CodeComments.CODE_RE_finditer text) [] 0).
  destruct (fold_left _ _ _) as [[out last] changed]. cbn [snd] in Hfold.
  by subst changed.
Qed.

End IdentityCache.

(** X19: With a cache in which every key is its own translation (the empty cache
    is one), [process_file] of [translate_code_comments_pl.py] leaves the
    file as it is and reports no change: a comment without a translation is
    put back unchanged, line ends and decoration included. *)
Theorem process_file_identity_cache `{PyTables} `{Platform} (text : list N)
    (cache : gmap (list N) (list N)) :
  identity_cache cache -> CodeComments.process_file text cache = Some (text, false).
Proof.
  intros Hid. unfold CodeComments.process_file.
  by rewrite process_file_identity.
Qed.

Lemma process_file_identity_cache_witness :
  @CodeComments.process_file ascii_tables posix hello_page
     {[ lit "return value" := lit "return value" ]}
  = Some (hello_page, false).
Proof.
  apply (@process_file_identity_cache ascii_tables posix hello_page
           {[ lit "return value" := lit "return value" ]}).
  intros k v [<- <-]%lookup_singleton_Some. reflexivity.
Defined.

(** ** The scan for missing translations and the rewrite read the same units *)

Lemma fold_left_union {A} (f : gset (list N) -> A -> gset (list N)) (l : list A)
    (ms : gset (list N)) :
  (forall ms x, f ms x = ms ∪ f ∅ x) ->
  fold_left f l ms = ms ∪ fold_left f l ∅.
Proof.
  intros Hf. revert ms. induction l as [|x l IH]; intros ms.
  - simpl. by rewrite (right_id_L ∅ (∪)).
  - cbn [fold_left]. rewrite IH, (IH (f ∅ x)), (Hf ms x).
    by rewrite (assoc_L (∪)).
Qed.

Lemma fold_left_union_elem {A} (f : gset (list N) -> A -> gset (list N)) (l : list A)
    (k : list N) :
  (forall ms x, f ms x = ms ∪ f ∅ x) ->
  k ∈ fold_left f l ∅ <-> exists x, x ∈ l /\ k ∈ f ∅ x.
Proof.
  intros Hf. induction l as [|x l IH].
  - simpl. split; [intros Hk; by apply elem_of_empty in Hk|].
    intros (x & Hx & _). by apply elem_of_nil in Hx.
  - cbn [fold_left]. rewrite (fold_left_union f l (f ∅ x) Hf).
    rewrite elem_of_union, IH. split.
    + intros [Hk|(y & Hy & Hk)].
      * exists x. split; [apply list_elem_of_here|done].
      * exists y. split; [by apply list_elem_of_further|done].
    + intros (y & [->|Hy]%elem_of_cons & Hk); [by left|]. right. by exists y.
Qed.

Section Collect.
Context `{PyTables}.

Lemma collect_body_eq (cache : gmap (list N) (list N)) (ms : gset (list N))
    (body : list N) :
  CodeComments.collect_body cache ms body
  = if CodeComments.should_translate_comment body
       && bool_decide (cache !! strip body = None)
    then ms ∪ {[ strip body ]} else ms.
Proof.
  unfold CodeComments.collect_body. rewrite split_ws_parts.
  by rewrite should_translate_comment_strip.
Qed.

Lemma collect_body_union cache ms body :
  CodeComments.collect_body cache ms body
  = ms ∪ CodeComments.collect_body cache ∅ body.
Proof.
  rewrite !collect_body_eq. destruct (_ && _).
  - by rewrite (left_id_L ∅ (∪)).
  - by rewrite (right_id_L ∅ (∪)).
Qed.

Lemma collect_body_elem cache body k :
  k ∈ CodeComments.collect_body cache ∅ body
  <-> k = strip body /\ CodeComments.should_translate_comment body = true
      /\ cache !! k = None.
Proof.
  rewrite collect_body_eq.
  destruct (CodeComments.should_translate_comment body); cbn [andb].
  - case_bool_decide as Hc.
    + rewrite elem_of_union, elem_of_singleton. split.
      * intros [Hk| ->]; [by apply elem_of_empty in Hk|done].
      * intros (-> & _ & _). by right.
    + split; [intros Hk; by apply elem_of_empty in Hk|]. intros (-> & _ & Hk). done.
  - split; [intros Hk; by apply elem_of_empty in Hk|]. by intros (_ & ? & _).
Qed.

Lemma collect_line_union cache ms line :
  CodeComments.collect_line cache ms line
  = ms ∪ CodeComments.collect_line cache ∅ line.
Proof. unfold CodeComments.collect_line. apply collect_body_union. Qed.

Lemma collect_span_union code cache ms sp :
  CodeComments.collect_span code cache ms sp
  = ms ∪ CodeComments.collect_span code cache ∅ sp.
Proof.
  destruct sp as [[s e] k]. unfold CodeComments.collect_span.
  destruct k; [apply collect_body_union|].
  destruct (_ || _); [|apply collect_body_union].
  apply fold_left_union. intros. apply collect_line_union.
Qed.

Lemma collect_comment_units_union code ms cache :
  CodeComments.collect_comment_units code ms cache
  = ms ∪ CodeComments.collect_comment_units code ∅ cache.
Proof.
  unfold CodeComments.collect_comment_units.
  apply fold_left_union. intros. apply collect_span_union.
Qed.

Lemma collect_line_elem cache line k :
  k ∈ CodeComments.collect_line cache ∅ line
  <-> k = strip (body_of line)
      /\ CodeComments.should_translate_comment (body_of line) = true
      /\ cache !! k = None.
Proof. unfold CodeComments.collect_line. apply collect_body_elem. Qed.

Lemma collect_span_cache code cache sp k :
  k ∈ CodeComments.collect_span code cache ∅ sp
  <-> k ∈ CodeComments.collect_span code ∅ ∅ sp /\ cache !! k = None.
Proof.
  destruct sp as [[s e] kind]. unfold CodeComments.collect_span.
  assert (forall body,
    k ∈ CodeComments.collect_body cache ∅ body
    <-> k ∈ CodeComments.collect_body ∅ ∅ body /\ cache !! k = None) as Hbody.
  { intros body. rewrite !collect_body_elem. rewrite lookup_empty. tauto. }
  destruct kind; [apply Hbody|].
  destruct (_ || _); [|apply Hbody].
  rewrite !fold_left_union_elem by (intros; apply collect_line_union).
  split.
  - intros (l & Hl & Hk). split.
    + exists l. split; [done|]. apply Hbody in Hk. tauto.
    + apply Hbody in Hk. tauto.
  - intros [(l & Hl & Hk) Hc]. exists l. split; [done|]. apply Hbody. done.
Qed.

Lemma collect_comment_units_cache code cache k :
  k ∈ CodeComments.collect_comment_units code ∅ cache
  <-> k ∈ CodeComments.collect_comment_units code ∅ ∅ /\ cache !! k = None.
Proof.
  unfold CodeComments.collect_comment_units.
  rewrite !fold_left_union_elem by (intros; apply collect_span_union).
  split.
  - intros (sp & Hsp & Hk). apply collect_span_cache in Hk as [Hk Hc].
    split; [by exists sp|done].
  - intros [(sp & Hsp & Hk) Hc]. exists sp. split; [done|].
    by apply collect_span_cache.
Qed.

Lemma collect_span_translatable code sp k :
  k ∈ CodeComments.collect_span code ∅ ∅ sp ->
  CodeComments.should_translate_comment k = true /\ strip k = k.
Proof.
  destruct sp as [[s e] kind]. unfold CodeComments.collect_span.
  assert (forall body, k ∈ CodeComments.collect_body ∅ ∅ body ->
    CodeComments.should_translate_comment k = true /\ strip k = k) as Hbody.
  { intros body (-> & Hs & _)%collect_body_elem.
    by rewrite should_translate_comment_strip, strip_idem. }
  destruct kind; [apply Hbody|].
  destruct (_ || _); [|apply Hbody].
  rewrite fold_left_union_elem by (intros; apply collect_line_union).
  intros (l & _ & Hk). by apply Hbody in Hk.
Qed.

End Collect.


(** *** Lines with and without their ends *)

Lemma linebreak_cases (c : N) :
  CodeComments.is_linebreak c = true ->
  (10 <= c <= 13 \/ 28 <= c <= 30 \/ c = 133 \/ c = 8232 \/ c = 8233)%N.
Proof.
  unfold CodeComments.is_linebreak, in_range, char_eqb.
  rewrite !orb_true_iff, !andb_true_iff, !N.leb_le, !N.eqb_eq. tauto.
Qed.

Lemma linebreak_is_space (c : N) :
  CodeComments.is_linebreak c = true -> isspace c = true /\ char_eqb c 42 = false.
Proof.
  intros Hc. apply linebreak_cases in Hc. split.
  - unfold isspace, in_range, char_eqb.
    rewrite !orb_true_iff, !andb_true_iff, !N.leb_le, !N.eqb_eq. lia.
  - apply N.eqb_neq. lia.
Qed.

Lemma not_linebreak (x : N) :
  CodeComments.is_linebreak x = false ->
  char_eqb 10 x = false /\ char_eqb 13 x = false.
Proof.
  intros Hx. split; apply N.eqb_neq; intros <-; by vm_compute in Hx.
Qed.

Lemma endswith_rev (p cur : list N) :
  endswith p (rev cur) = startswith (rev p) cur.
Proof. unfold endswith. by rewrite rev_involutive. Qed.

Lemma take_rev_cons (c : N) (cur : list N) :
  take (length (rev (c :: cur)) - 1) (rev (c :: cur)) = rev cur.
Proof.
  cbn [rev]. rewrite length_app. cbn [length].
  replace (length (rev cur) + 1 - 1) with (length (rev cur)) by lia.
  by rewrite take_app_length.
Qed.

Lemma split_line_end_rev (c : N) (cur : list N) :
  CodeComments.split_line_end (rev (c :: cur))
  = if char_eqb 10 c && startswith [13%N] cur then (rev (drop 1 cur), [13; 10]%N)
    else if char_eqb 10 c then (rev cur, [10%N])
    else if char_eqb 13 c then (rev cur, [13%N])
    else (rev (c :: cur), []).
Proof.
  unfold CodeComments.split_line_end. rewrite !endswith_rev.
  change (rev [13; 10]%N) with [10; 13]%N.
  change (rev [10%N]) with [10%N]. change (rev [13%N]) with [13%N].
  change (startswith [10; 13]%N (c :: cur))
    with (char_eqb 10 c && startswith [13%N] cur).
  change (startswith [10%N] (c :: cur)) with (char_eqb 10 c && true).
  change (startswith [13%N] (c :: cur)) with (char_eqb 13 c && true).
  rewrite !andb_true_r.
  destruct (char_eqb 10 c && startswith [13%N] cur) eqn:E1.
  - f_equal. apply andb_prop in E1 as [_ E1].
    apply startswith_inv in E1 as [r ->]. cbn [rev app drop].
    rewrite <- !app_assoc, !length_app. cbn [length app].
    replace (length (rev r) + (1 + 1) - 2) with (length (rev r)) by lia.
    by rewrite take_app_length.
  - destruct (char_eqb 10 c); [by rewrite take_rev_cons|].
    destruct (char_eqb 13 c); [by rewrite take_rev_cons|]. done.
Qed.

Lemma no_cr_head (cur : list N) :
  forallb (fun x => negb (CodeComments.is_linebreak x)) cur = true ->
  startswith [13%N] cur = false.
Proof.
  destruct cur as [|x cur]; [done|]. cbn [forallb]. intros [Hx _]%andb_prop.
  apply negb_true_iff, not_linebreak in Hx as [_ Hx].
  cbn [startswith]. by rewrite Hx.
Qed.

Lemma split_line_end_last (cur : list N) (c : N) :
  CodeComments.is_linebreak c = true -> char_eqb c 13 = false ->
  forallb (fun x => negb (CodeComments.is_linebreak x)) cur = true ->
  same_line (rev cur) (rev (c :: cur)).
Proof.
  intros Hc H13 Hcur. unfold same_line. rewrite split_line_end_rev.
  rewrite (no_cr_head cur Hcur), andb_false_r.
  assert (char_eqb 13 c = false) as ->.
  { apply N.eqb_neq. intros <-. by vm_compute in H13. }
  destruct (char_eqb 10 c); [by left|]. right. by exists c.
Qed.

Lemma split_line_end_cr (cur : list N) :
  (CodeComments.split_line_end (rev (13%N :: cur))).1 = rev cur.
Proof. by rewrite split_line_end_rev. Qed.

Lemma split_line_end_crlf (cur : list N) :
  (CodeComments.split_line_end (rev (10%N :: 13%N :: cur))).1 = rev cur.
Proof. by rewrite split_line_end_rev. Qed.

Lemma split_line_end_open (cur : list N) :
  forallb (fun x => negb (CodeComments.is_linebreak x)) cur = true ->
  (CodeComments.split_line_end (rev cur)).1 = rev cur.
Proof.
  intros Hcur. destruct cur as [|x cur]; [done|].
  rewrite split_line_end_rev. cbn [forallb] in Hcur.
  apply andb_prop in Hcur as [Hx _].
  apply negb_true_iff, not_linebreak in Hx as [H10 H13].
  by rewrite H10, H13.
Qed.

Lemma lines_paired (s cur : list N) :
  forallb (fun x => negb (CodeComments.is_linebreak x)) cur = true ->
  Forall2 same_line (CodeComments.splitlines s cur)
          (CodeComments.splitlines_keepends s cur).
Proof.
  remember (length s) as n eqn:Hn. revert s cur Hn.
  induction n as [n IH] using lt_wf_ind. intros s cur Hn Hcur.
  destruct s as [|c s];
    cbn [CodeComments.splitlines CodeComments.splitlines_keepends].
  - destruct cur as [|x cur]; cbn [is_nil]; [constructor|].
    constructor; [|constructor]. left. by apply split_line_end_open.
  - destruct (char_eqb c 13) eqn:E13.
    + apply char_eqb_eq in E13 as ->. destruct s as [|d s].
      * constructor; [|constructor]. left. apply split_line_end_cr.
      * destruct (char_eqb d 10) eqn:E10.
        -- apply char_eqb_eq in E10 as ->. constructor.
           ++ left. apply split_line_end_crlf.
           ++ apply (IH (length s)); [simpl in Hn; lia|done|done].
        -- constructor.
           ++ left. apply split_line_end_cr.
           ++ apply (IH (length (d :: s))); [simpl in *; lia|done|done].
    + destruct (CodeComments.is_linebreak c) eqn:Hlb.
      * constructor.
        -- by apply split_line_end_last.
        -- apply (IH (length s)); [simpl in Hn; lia|done|done].
      * apply (IH (length s)); [simpl in Hn; lia|done|].
        cbn [forallb]. by rewrite Hlb.
Qed.

Lemma lines_paired_elem (content lk : list N) :
  lk ∈ CodeComments.splitlines_keepends content [] ->
  exists l, l ∈ CodeComments.splitlines content [] /\ same_line l lk.
Proof.
  pose proof (lines_paired content [] eq_refl) as Hp.
  induction Hp as [|l lk' ls lks Hl _ IH]; [by intros ?%elem_of_nil|].
  intros [->|Hin]%elem_of_cons.
  - exists l. split; [apply list_elem_of_here|done].
  - destruct (IH Hin) as (l' & Hl' & Hs). exists l'.
    split; [by apply list_elem_of_further|done].
Qed.

(** *** The decoration of a line and a line break after it *)

Lemma strip_app_blank (u w : list N) :
  forallb isspace w = true -> strip (u ++ w) = strip u.
Proof.
  intros Hw. destruct (forallb isspace u) eqn:Hu.
  - rewrite !strip_blank; [done|done|].
    rewrite forallb_app. by rewrite Hu, Hw.
  - destruct (strip_decomp u) as (l0 & w0 & Hu' & Hl0 & Hw0).
    pose proof (strip_nonblank u Hu) as Hne.
    destruct (strip u) as [|a r] eqn:Es; [done|].
    pose proof (strip_head _ _ _ Es) as Ha.
    destruct (last (a :: r)) as [b|] eqn:Elast; [|by apply last_None in Elast].
    assert (isspace b = false) as Hlb.
    { apply (rstrip_last (lstrip u)). fold (strip u). by rewrite Es. }
    rewrite <- split_ws_core. rewrite Hu' at 1.
    rewrite <- !app_assoc.
    rewrite (split_ws_unique l0 (a :: r) (w0 ++ w) a b); try done.
    rewrite forallb_app. by rewrite Hw0, Hw.
Qed.

Lemma take_while_snoc_stop (p : N -> bool) (s : list N) (c : N) :
  p c = false -> take_while p (s ++ [c]) = take_while p s.
Proof.
  intros Hc. induction s as [|x s IH]; simpl; [by rewrite Hc|].
  destruct (p x); [by rewrite IH|done].
Qed.

Lemma take_while_snoc_all (p : N -> bool) (s : list N) (c : N) :
  forallb p s = true -> p c = true -> take_while p (s ++ [c]) = s ++ [c].
Proof.
  intros Hs Hc. apply take_while_id. rewrite forallb_app, Hs. simpl. by rewrite Hc.
Qed.

Lemma take_while_snoc_inside (p : N -> bool) (s : list N) (c : N) :
  forallb p s = false -> take_while p (s ++ [c]) = take_while p s.
Proof.
  induction s as [|x s IH]; [done|]. simpl.
  destruct (p x); [|done]. intros Hs. by rewrite IH.
Qed.

Lemma body_of_linebreak (l : list N) (c : N) :
  CodeComments.is_linebreak c = true ->
  strip (body_of (l ++ [c])) = strip (body_of l).
Proof.
  intros Hlb. apply linebreak_is_space in Hlb as [Hsp Hstar].
  assert (forallb isspace [c] = true) as Hc by (simpl; by rewrite Hsp).
  unfold body_of, CodeComments.BLOCK_DECOR_RE_match.
  destruct (forallb isspace l) eqn:Hl.
  - rewrite (take_while_snoc_all isspace l c Hl Hsp), (take_while_id isspace l Hl).
    rewrite !drop_all. cbn [take_while is_nil]. by apply strip_app_blank.
  - rewrite (take_while_snoc_inside isspace l c Hl).
    set (ws := take_while isspace l).
    assert (length ws <= length l) as Hlen by apply take_while_length.
    rewrite drop_app_le by done.
    set (r1 := drop (length ws) l).
    rewrite (take_while_snoc_stop (fun x => char_eqb x 42) r1 c Hstar).
    set (stars := take_while (fun x => char_eqb x 42) r1).
    destruct (is_nil stars); [by apply strip_app_blank|].
    assert (length stars <= length r1) as Hlen' by apply take_while_length.
    rewrite drop_app_le by done.
    destruct (drop (length stars) r1) as [|x r3]; cbn [app].
    + by rewrite Hsp.
    + destruct (isspace x); [by apply strip_app_blank|].
      by apply (strip_app_blank (x :: r3)).
Qed.

(** *** What the rewrite reads of the cache *)

Section Agreement.
Context `{PyTables}.

Lemma translate_body_agree (c1 c2 : gmap (list N) (list N)) (body : list N) :
  (CodeComments.should_translate_comment body = true ->
   c1 !! strip body = c2 !! strip body) ->
  CodeComments.translate_body c1 body = CodeComments.translate_body c2 body.
Proof.
  intros Hc. rewrite !translate_body_split.
  destruct (CodeComments.should_translate_comment body); [|done].
  unfold CodeComments.cache_get. by rewrite (Hc eq_refl).
Qed.

Lemma translate_line_body (cache : gmap (list N) (list N)) (line : list N) :
  exists prefix end_,
    forall cache, CodeComments.translate_line cache line
      = prefix ++ CodeComments.translate_body cache
                    (body_of (CodeComments.split_line_end line).1) ++ end_.
Proof.
  unfold CodeComments.translate_line, body_of.
  destruct (CodeComments.split_line_end line) as [raw end_]. cbn [fst].
  destruct (CodeComments.BLOCK_DECOR_RE_match raw) as [[prefix body]|].
  - by exists prefix, end_.
  - by exists [], end_.
Qed.

Lemma translate_line_agree (c1 c2 : gmap (list N) (list N)) (l lk : list N) :
  same_line l lk ->
  (forall k, k ∈ CodeComments.collect_line ∅ ∅ l -> c1 !! k = c2 !! k) ->
  CodeComments.translate_line c1 lk = CodeComments.translate_line c2 lk.
Proof.
  intros Hsame Hc.
  destruct (translate_line_body c1 lk) as (prefix & end_ & Hline).
  rewrite !Hline. f_equal. f_equal.
  assert (strip (body_of (CodeComments.split_line_end lk).1) = strip (body_of l))
    as Hstrip.
  { destruct Hsame as [E|(c & E & Hlb)]; rewrite E; [done|].
    by apply body_of_linebreak. }
  apply translate_body_agree. intros Hs. rewrite Hstrip. apply Hc.
  apply collect_line_elem. split; [done|]. split; [|apply lookup_empty].
  by rewrite <- should_translate_comment_strip, <- Hstrip,
    should_translate_comment_strip.
Qed.

Lemma collect_body_self (body : list N) :
  CodeComments.should_translate_comment body = true ->
  strip body ∈ CodeComments.collect_body ∅ ∅ body.
Proof. intros Hs. apply collect_body_elem. by rewrite lookup_empty. Qed.

Lemma comment_edit_agree (code : list N) (c1 c2 : gmap (list N) (list N))
    (sp : nat * nat * span_kind) :
  (forall k, k ∈ CodeComments.collect_span code ∅ ∅ sp -> c1 !! k = c2 !! k) ->
  comment_edit code c1 sp = comment_edit code c2 sp.
Proof.
  destruct sp as [[s e] kind]. unfold comment_edit, CodeComments.collect_span.
  cbn [span_start span_end span_kind_of fst snd].
  set (content := slice s e code).
  intros Hc. f_equal. unfold CodeComments.translate_comment_content.
  assert ((forall k, k ∈ CodeComments.collect_body ∅ ∅ content -> c1 !! k = c2 !! k) ->
          CodeComments.translate_body c1 content
          = CodeComments.translate_body c2 content) as Hbody.
  { intros Hk. apply translate_body_agree. intros Hs. by apply Hk, collect_body_self. }
  destruct kind; [by apply Hbody|].
  destruct (_ || _); [|by apply Hbody].
  f_equal. apply map_ext_in. intros lk Hlk.
  apply list_elem_of_In in Hlk.
  destruct (lines_paired_elem content lk Hlk) as (l & Hl & Hsame).
  apply (translate_line_agree c1 c2 l lk Hsame).
  intros k Hk. apply Hc.
  apply fold_left_union_elem; [intros; apply collect_line_union|]. by exists l.
Qed.

Lemma rewrite_code_comments_agree (code : list N) (c1 c2 : gmap (list N) (list N)) :
  (forall k, k ∈ CodeComments.collect_comment_units code ∅ ∅ -> c1 !! k = c2 !! k) ->
  CodeComments.rewrite_code_comments code c1
  = CodeComments.rewrite_code_comments code c2.
Proof.
  intros Hc. rewrite !rewrite_code_comments_eq.
  assert (forall sp, sp ∈ find_comment_spans code ->
            comment_edit code c1 sp = comment_edit code c2 sp) as Hsp.
  { intros sp Hin. apply comment_edit_agree. intros k Hk. apply Hc.
    unfold CodeComments.collect_comment_units.
    apply fold_left_union_elem; [intros; apply collect_span_union|]. by exists sp. }
  f_equal.
  - f_equal. apply map_ext_in. intros sp Hin. by apply Hsp, list_elem_of_In.
  - induction (find_comment_spans code) as [|sp spans IH]; [done|].
    cbn [existsb]. unfold comment_differs at 1 3.
    rewrite (Hsp sp) by apply list_elem_of_here. f_equal.
    apply IH. intros sp' Hin. by apply Hsp, list_elem_of_further.
Qed.

Lemma collect_missing_from_file_elem (text : list N)
    (cache : gmap (list N) (list N)) (k : list N) :
  k ∈ CodeComments.collect_missing_from_text text cache ∅
  <-> exists m, m ∈ CodeComments.CODE_RE_finditer text
        /\ k ∈ CodeComments.collect_comment_units (html_unescape m.1.2) ∅ cache.
Proof.
  unfold CodeComments.collect_missing_from_text.
  rewrite fold_left_union_elem.
  - split; intros ([[[[ms me] g1] g2] g3] & Hm & Hk); by eexists (_, _, _, _, _).
  - intros ms [[[[ms' me] g1] g2] g3]. apply collect_comment_units_union.
Qed.

Lemma process_file_agree (text : list N) (c1 c2 : gmap (list N) (list N)) :
  (forall k, k ∈ CodeComments.collect_missing_from_text text ∅ ∅ ->
     c1 !! k = c2 !! k) ->
  CodeComments.process_text text c1 = CodeComments.process_text text c2.
Proof.
  intros Hc. unfold CodeComments.process_text.
  assert (forall ms st,
    (forall m, m ∈ ms -> m ∈ CodeComments.CODE_RE_finditer text) ->
    fold_left (CodeComments.process_match text c1) ms st
    = fold_left (CodeComments.process_match text c2) ms st) as Hfold.
  { induction ms as [|m ms IH]; intros st Hms; [done|].
    cbn [fold_left].
    assert (CodeComments.process_match text c1 st m
            = CodeComments.process_match text c2 st m) as ->.
    { destruct st as [[out last] changed].
      destruct m as [[[[mstart mend] prefix] code_escaped] suffix].
      cbn [CodeComments.process_match].
      rewrite (rewrite_code_comments_agree (html_unescape code_escaped) c1 c2); [done|].
      intros k Hk. apply Hc. apply collect_missing_from_file_elem.
      eexists (_, _, _, _, _). split; [apply Hms, list_elem_of_here|done]. }
    apply IH. intros m' Hm'. by apply Hms, list_elem_of_further. }
  by rewrite Hfold.
Qed.

End Agreement.

(** X20: The scan for missing translations finds every unit the rewrite will look
    up: what [process_file] of [translate_code_comments_pl.py] makes of a
    file depends on the cache only through the texts that
    [collect_missing_from_file] collects from the file (with an empty cache):
    two caches that agree on them give the same content and the same
    [changed]. *)
Theorem process_file_reads_collected `{PyTables} `{Platform} (text : list N)
    (c1 c2 : gmap (list N) (list N)) :
  (forall k, k ∈ CodeComments.collect_missing_from_file text ∅ ∅ ->
     c1 !! k = c2 !! k) ->
  CodeComments.process_file text c1 = CodeComments.process_file text c2.
Proof.
  intros Hc. unfold CodeComments.process_file.
  by rewrite (process_file_agree (read_text text) c1 c2).
Qed.

Lemma process_file_reads_collected_witness :
  @CodeComments.process_file ascii_tables posix hello_page polish_cache
  = @CodeComments.process_file ascii_tables posix hello_page
      (<[ lit "Hello there" := lit "Good day" ]> polish_cache).
Proof.
  apply (@process_file_reads_collected ascii_tables posix hello_page polish_cache
           (<[ lit "Hello there" := lit "Good day" ]> polish_cache)).
  intros k Hk.
  assert (@CodeComments.collect_missing_from_file ascii_tables hello_page ∅ ∅
          = {[ lit "return value" ]}) as E by (vm_compute; reflexivity).
  rewrite E in Hk. apply elem_of_singleton in Hk as ->.
  vm_compute. reflexivity.
Defined.

(** X21: What [collect_comment_units] adds to the set: the units of the code (what
    it collects with an empty cache into an empty set) that are no key of
    the cache.  Each unit is trimmed and accepted by
    [should_translate_comment], and what was in the set stays. *)
Theorem collect_comment_units_adds `{PyTables} (code : list N)
    (missing_set : gset (list N)) (cache : gmap (list N) (list N)) (k : list N) :
  (k ∈ CodeComments.collect_comment_units code missing_set cache
   <-> k ∈ missing_set
       \/ (k ∈ CodeComments.collect_comment_units code ∅ ∅ /\ cache !! k = None))
  /\ (k ∈ CodeComments.collect_comment_units code ∅ ∅ ->
      CodeComments.should_translate_comment k = true /\ strip k = k).
Proof.
  split.
  - rewrite collect_comment_units_union, elem_of_union.
    by rewrite collect_comment_units_cache.
  - unfold CodeComments.collect_comment_units.
    rewrite fold_left_union_elem by (intros; apply collect_span_union).
    intros (sp & _ & Hk). by eapply collect_span_translatable.
Qed.

(** ** The two phases of [process_file] of [translate_learncpp_pl.py] *)

Section ProcessFile.
Context `{PyTables}.

Lemma scan_text_elem (idx : nat) (token : list N) (e : Learncpp.text_entry) :
  e ∈ Learncpp.scan_text idx token ->
  e = (idx, (split_ws (html_unescape token)).1.1,
       (split_ws (html_unescape token)).1.2, (split_ws (html_unescape token)).2).
Proof.
  unfold Learncpp.scan_text. destruct (negb _); [by intros ?%elem_of_nil|].
  destruct (split_ws (html_unescape token)) as [[lead core] trail].
  destruct (negb _); [by intros ?%elem_of_nil|].
  by intros ->%list_elem_of_singleton.
Qed.


Lemma text_entries_bound (parts : list (list N)) (e : Learncpp.text_entry) :
  e ∈ (Learncpp.scan_parts parts).1.2 ->
  exists token, parts !! text_entry_idx e = Some token
    /\ text_entry_idx e mod 2 = 0
    /\ e = (text_entry_idx e, (split_ws (html_unescape token)).1.1,
            (split_ws (html_unescape token)).1.2,
            (split_ws (html_unescape token)).2).
Proof.
  intros He. apply (proj2 (scan_parts_entries parts)) in He
    as (idx & token & Hl & Hm & _ & Hin).
  apply scan_text_elem in Hin. subst e. by exists token.
Qed.






End ProcessFile.

(** ** Replacements keep the markup *)

Lemma space_not_markup (c : N) : isspace c = true -> c <> 60%N /\ c <> 62%N.
Proof. intros Hc. split; intros ->; by vm_compute in Hc. Qed.

(** X23: What "Apply text replacements" writes for a text entry has no [<] and
    no [>] in it: a translation cannot open or close a tag. *)
Theorem text_replacement_no_markup `{PyTables} (original : list N)
    (cache : gmap (list N) (list N)) (e : Learncpp.text_entry) :
  e ∈ (Learncpp.scan_parts (Learncpp.TAG_SPLIT_RE_split original)).1.2 ->
  Forall (fun c => c <> 60%N /\ c <> 62%N) (text_replacement cache e).
Proof.
  intros He. apply text_entries_bound in He as (token & _ & _ & ->).
  unfold text_replacement. cbn [fst snd].
  destruct (split_ws_ends_blank (html_unescape token)) as [Hlead Htrail].
  assert (forall w, forallb isspace w = true ->
            Forall (fun c => c <> 60%N /\ c <> 62%N) w) as Hws.
  { intros w Hw. apply Forall_forall. intros c Hc.
    rewrite forallb_forall in Hw. by apply space_not_markup, Hw, list_elem_of_In. }
  repeat apply Forall_app_2; [by apply Hws| |by apply Hws].
  eapply Forall_impl; [apply (html_escape_safe false)|].
  intros c Hc. unfold is_markup in Hc. cbn [andb orb] in Hc.
  rewrite orb_false_r in Hc. apply orb_false_elim in Hc as [H60 H62].
  split; intros ->; by rewrite char_eqb_refl in *.
Qed.

Lemma text_replacement_no_markup_witness :
  Forall (fun c => c <> 60%N /\ c <> 62%N)
    (text_replacement {[ lit "Hello there" := lit "a <b> c" ]}
       (0, [], lit "Hello there", [])).
Proof.
  apply (@text_replacement_no_markup ascii_tables (lit "Hello there")
           {[ lit "Hello there" := lit "a <b> c" ]} (0, [], lit "Hello there", [])).
  vm_compute. apply list_elem_of_here.
Defined.

(** ** The attribute edits of a tag *)

Lemma startswith_ci_length (p s : list N) :
  startswith_ci p s = true -> length p <= length s.
Proof.
  revert s. induction p as [|x p IH]; intros [|y s]; simpl; try done; [lia|].
  intros [_ Hp]%andb_prop. apply IH in Hp. lia.
Qed.

Lemma drop_cons_length {A} (k : nat) (l : list A) (x : A) (l' : list A) :
  drop k l = x :: l' -> length l = k + S (length l').
Proof.
  intros Hd. pose proof (length_drop l k) as Hl. rewrite Hd in Hl. simpl in Hl.
  destruct (Nat.le_gt_cases (length l) k) as [Hle|Hgt]; [|lia].
  rewrite drop_ge in Hd by done. done.
Qed.

Section AttrEdits.
Context `{PyTables}.

Lemma attr_name_match_length (rest : list N) (n : nat) :
  Learncpp.attr_name_match rest = Some n -> 1 <= n <= length rest.
Proof.
  unfold Learncpp.attr_name_match.
  destruct (startswith_ci (lit "title") rest) eqn:E1.
  { intros [= <-]. apply startswith_ci_length in E1. simpl in E1. lia. }
  destruct (startswith_ci (lit "alt") rest) eqn:E2.
  { intros [= <-]. apply startswith_ci_length in E2. simpl in E2. lia. }
  destruct (startswith_ci (lit "placeholder") rest) eqn:E3; [|done].
  intros [= <-]. apply startswith_ci_length in E3. simpl in E3. lia.
Qed.

Lemma ATTR_RE_match_at_spec (prev : option N) (rest prefix value : list N)
    (len : nat) :
  Learncpp.ATTR_RE_match_at prev rest = Some (prefix, value, len) ->
  1 <= length prefix
  /\ len = length prefix + 1 + length value + 1
  /\ len <= length rest
  /\ slice (length prefix + 1) (length prefix + 1 + length value) rest = value.
Proof.
  unfold Learncpp.ATTR_RE_match_at.
  destruct (negb _); [done|].
  destruct (Learncpp.attr_name_match rest) as [n|] eqn:Hn; [|done].
  apply attr_name_match_length in Hn.
  set (r1 := drop n rest).
  set (ws1 := take_while isspace r1).
  destruct (drop (length ws1) r1) as [|c r2] eqn:Hr2; [done|].
  destruct (negb (char_eqb c 61)); [done|].
  set (ws2 := take_while isspace r2).
  destruct (drop (length ws2) r2) as [|q r3] eqn:Hr3; [done|].
  destruct (negb _); [done|].
  set (value' := take_while (fun c => negb (char_eqb c q)) r3).
  destruct (drop (length value') r3) as [|q' r4] eqn:Hr4; [done|].
  intros [= <- <- <-].
  apply drop_cons_length in Hr2 as Hl2. apply drop_cons_length in Hr3 as Hl3.
  apply drop_cons_length in Hr4 as Hl4.
  assert (length r1 = length rest - n) as Hl1 by apply length_drop.
  assert (length (take (n + length ws1 + 1 + length ws2) rest)
          = n + length ws1 + 1 + length ws2) as Hp.
  { rewrite length_take. lia. }
  rewrite Hp. split; [lia|]. split; [done|]. split; [lia|].
  unfold slice.
  replace (n + length ws1 + 1 + length ws2 + 1 + length value'
           - (n + length ws1 + 1 + length ws2 + 1)) with (length value') by lia.
  assert (drop (n + length ws1 + 1 + length ws2 + 1) rest = r3) as ->.
  { replace (n + length ws1 + 1 + length ws2 + 1)
      with (n + (length ws1 + (1 + (length ws2 + 1)))) by lia.
    rewrite <- !drop_drop. fold r1. rewrite Hr2. cbn [drop].
    rewrite drop_0, Hr3. done. }
  unfold value'. clear. induction r3 as [|x r3 IH]; [done|]. simpl.
  destruct (negb (char_eqb x q)); [|done]. simpl. by rewrite IH.
Qed.

Lemma parts_in_order_lo (lo lo' hi : nat) (l : list (nat * nat)) :
  lo' <= lo -> parts_in_order lo hi l -> parts_in_order lo' hi l.
Proof.
  destruct l as [|[s e] l]; [done|]. intros Hlo (Hs & He & Hh & Hr).
  cbn [parts_in_order]. repeat split; try done. lia.
Qed.

Lemma ATTR_RE_finditer_go_order (s : list N) (pos : nat) (prev : option N)
    (skip : nat) :
  parts_in_order (pos + skip) (pos + length s)
    (map (fun m => (m.1.1.2, m.1.2)) (Learncpp.ATTR_RE_finditer_go pos prev skip s))
  /\ Forall (fun m => length m.2 = m.1.2 - m.1.1.2)
       (Learncpp.ATTR_RE_finditer_go pos prev skip s).
Proof.
  revert pos prev skip. induction s as [|c s IH]; intros pos prev skip; [done|].
  cbn [Learncpp.ATTR_RE_finditer_go].
  destruct skip as [|k].
  - destruct (Learncpp.ATTR_RE_match_at prev (c :: s)) as [[[prefix value] len]|] eqn:Hm.
    + apply ATTR_RE_match_at_spec in Hm as (Hp & Hlen & Hle & _).
      destruct (IH (S pos) (Some c) (len - 1)) as [IH1 IH2].
      cbn [map fst snd parts_in_order length] in *. split.
      * split; [lia|]. split; [lia|]. split; [lia|].
        replace (S pos + length s) with (pos + S (length s)) in IH1 by lia.
        eapply parts_in_order_lo; [|exact IH1]. lia.
      * constructor; [cbn [fst snd]; lia|done].
    + destruct (IH (S pos) (Some c) 0) as [IH1 IH2]. split; [|done].
      cbn [length]. replace (pos + S (length s)) with (S pos + length s) by lia.
      eapply parts_in_order_lo; [|exact IH1]. lia.
  - destruct (IH (S pos) (Some c) k) as [IH1 IH2]. split; [|done].
    cbn [length]. replace (pos + S (length s)) with (S pos + length s) by lia.
    eapply parts_in_order_lo; [|exact IH1]. lia.
Qed.

Lemma parts_in_order_drop (lo hi : nat) (x : nat * nat) (l : list (nat * nat)) :
  parts_in_order lo hi (x :: l) -> parts_in_order lo hi l.
Proof.
  destruct x as [s e]. intros (Hs & He & Hh & Hr).
  eapply parts_in_order_lo; [|exact Hr]. lia.
Qed.

Lemma attr_entries_order (cache : gmap (list N) (list N)) (idx lo hi : nat)
    (ms : list (list N * nat * nat * list N)) :
  parts_in_order lo hi (map (fun m => (m.1.1.2, m.1.2)) ms) ->
  parts_in_order lo hi
    (map (fun ed : nat * nat * list N => (ed.1.1, ed.1.2))
       (map (fun e : Learncpp.attr_entry =>
               (e.1.1.1.2, e.1.1.2,
                Learncpp.escape_attr_value (Learncpp.cache_get cache e.2)))
            (flat_map (Learncpp.attr_entry_of idx) ms))).
Proof.
  revert lo. induction ms as [|[[[prefix vstart] vend] raw] ms IH]; intros lo Hord;
    [done|].
  cbn [flat_map]. rewrite !map_app.
  destruct Hord as (Hs & He & Hh & Hr). cbn [fst snd] in *.
  unfold Learncpp.attr_entry_of at 1.
  destruct (negb _).
  { cbn [map app]. apply IH. eapply parts_in_order_lo; [|exact Hr]. lia. }
  destruct (Learncpp.should_translate _).
  - cbn [map app fst snd parts_in_order]. repeat split; try done. by apply IH.
  - cbn [map app]. apply IH. eapply parts_in_order_lo; [|exact Hr]. lia.
Qed.

Lemma attr_edits_order (cache : gmap (list N) (list N)) (idx : nat) (token : list N) :
  parts_in_order 0 (length token)
    (map (fun ed : nat * nat * list N => (ed.1.1, ed.1.2))
         (attr_edits cache idx token)).
Proof.
  unfold attr_edits, Learncpp.scan_attrs, Learncpp.ATTR_RE_finditer.
  apply attr_entries_order.
  by destruct (ATTR_RE_finditer_go_order token 0 None 0) as [Hord _].
Qed.

End AttrEdits.

Lemma sort_desc_fold (edits acc : list (nat * nat * list N)) (lo hi : nat) :
  Forall (fun x : nat * nat * list N => x.1.1 <= lo) acc ->
  parts_in_order lo hi (map (fun ed : nat * nat * list N => (ed.1.1, ed.1.2)) edits) ->
  fold_left (fun sorted e => Learncpp.insert_desc e sorted) edits acc
  = rev edits ++ acc.
Proof.
  revert lo acc. induction edits as [|[[s e] rep] edits IH]; intros lo acc Hacc Hord;
    [done|].
  destruct Hord as (Hs & He & Hh & Hr). cbn [fst snd] in *.
  cbn [fold_left rev].
  assert (Learncpp.insert_desc (s, e, rep) acc = (s, e, rep) :: acc) as ->.
  { destruct acc as [|x acc]; [done|]. cbn [Learncpp.insert_desc fst].
    apply Forall_cons in Hacc as [Hx _].
    destruct (Nat.leb_spec s x.1.1); [lia|done]. }
  rewrite (IH e); [by rewrite <- app_assoc| |done].
  constructor; [done|]. eapply Forall_impl; [exact Hacc|]. simpl. lia.
Qed.

Lemma sort_desc_rev (edits : list (nat * nat * list N)) (lo hi : nat) :
  parts_in_order lo hi (map (fun ed : nat * nat * list N => (ed.1.1, ed.1.2)) edits) ->
  Learncpp.sort_desc edits = rev edits.
Proof.
  intros Hord. unfold Learncpp.sort_desc.
  rewrite (sort_desc_fold edits [] lo hi); [apply app_nil_r|done|done].
Qed.

Lemma apply_edits_splice (s : list N) (edits : list (nat * nat * list N))
    (pos : nat) :
  pos <= length s ->
  parts_in_order pos (length s)
    (map (fun ed : nat * nat * list N => (ed.1.1, ed.1.2)) edits) ->
  fold_left Learncpp.apply_edit (rev edits) s = take pos s ++ splice s pos edits.
Proof.
  revert pos. induction edits as [|[[st en] rep] edits IH]; intros pos Hpos Hord.
  - simpl. by rewrite take_drop.
  - destruct Hord as (Hs & He & Hh & Hr). cbn [fst snd] in *.
    cbn [rev]. rewrite fold_left_app, (IH en); [|lia|done].
    cbn [fold_left Learncpp.apply_edit splice].
    rewrite take_app_le by (rewrite length_take; lia).
    rewrite take_take, Nat.min_l by done.
    rewrite drop_app_length' by (rewrite length_take; lia).
    rewrite !app_assoc. f_equal. f_equal. rewrite take_slice; [done|lia].
Qed.

(** X24: The edits of a tag token are made in place: sorted by position, last
    first, and applied one after the other, they give the token in which the
    value of every attribute entry is replaced by the escaped translation and
    everything else, the quotes around the values included, is kept. *)
Theorem attr_edits_in_place `{PyTables} (cache : gmap (list N) (list N))
    (idx : nat) (token : list N) :
  fold_left Learncpp.apply_edit (Learncpp.sort_desc (attr_edits cache idx token)) token
  = splice token 0 (attr_edits cache idx token).
Proof.
  pose proof (attr_edits_order cache idx token) as Hord.
  rewrite (sort_desc_rev _ _ _ Hord).
  by rewrite (apply_edits_splice token _ 0 (Nat.le_0_l _) Hord).
Qed.

(** ** [process_file] of [translate_learncpp_pl.py], token by token *)










Section Tokens.
Context `{PyTables}.



End Tokens.


(** ** [process_file] of [translate_code_comments_pl.py] changes the inside
       of [<code>] elements only *)

Lemma find_ci_spec (p s : list N) (i n : nat) :
  CodeComments.find_ci p s i = Some n ->
  i <= n /\ n - i <= length s /\ startswith_ci p (drop (n - i) s) = true.
Proof.
  revert i. induction s as [|c s IH]; intros i; cbn [CodeComments.find_ci].
  - destruct (startswith_ci p []) eqn:E; [|done]. intros [= <-].
    rewrite Nat.sub_diag. cbn [drop length]. split; [lia|]. split; [lia|done].
  - destruct (startswith_ci p (c :: s)) eqn:E.
    + intros [= <-]. rewrite Nat.sub_diag. cbn [drop length].
      split; [lia|]. split; [lia|done].
    + intros Hf. apply IH in Hf as (Hi & Hn & Hs).
      replace (n - i) with (S (n - S i)) by lia. cbn [drop length].
      split; [lia|]. split; [lia|done].
Qed.

Section CodeMatches.
Context `{PyTables}.

Lemma CODE_RE_match_at_spec (rest g1 g2 g3 : list N) :
  CodeComments.CODE_RE_match_at rest = Some (g1, g2, g3) ->
  1 <= length g1
  /\ length g1 + length g2 + length g3 <= length rest
  /\ take (length g1 + length g2 + length g3) rest = g1 ++ g2 ++ g3.
Proof.
  unfold CodeComments.CODE_RE_match_at.
  destruct (negb (startswith_ci (lit "<code") rest)) eqn:Hs; [done|].
  apply negb_false_iff, startswith_ci_length in Hs. simpl in Hs.
  destruct (negb _); [done|].
  set (r1 := drop 5 rest).
  set (attrs := take_while (fun c => negb (char_eqb c 62)) r1).
  destruct (drop (length attrs) r1) as [|gt r2] eqn:Hr2; [done|].
  destruct (CodeComments.find_ci (lit "</code>") r2 0) as [n|] eqn:Hn; [|done].
  intros [= Hg1 Hg2 Hg3].
  apply find_ci_spec in Hn as (_ & Hn & Hend). rewrite Nat.sub_0_r in Hn, Hend.
  apply startswith_ci_length in Hend. rewrite length_drop in Hend. simpl in Hend.
  apply drop_cons_length in Hr2 as Hl2.
  assert (length r1 = length rest - 5) as Hl1 by apply length_drop.
  assert (drop (5 + length attrs + 1) rest = r2) as Hdrop.
  { replace (5 + length attrs + 1) with (5 + (length attrs + 1)) by lia.
    rewrite <- drop_drop. fold r1. rewrite <- drop_drop, Hr2. done. }
  assert (length g1 = 5 + length attrs + 1) as Hl_g1.
  { rewrite <- Hg1, length_take. lia. }
  assert (length g2 = n) as Hl_g2.
  { rewrite <- Hg2, length_take. lia. }
  assert (length g3 = 7) as Hl_g3.
  { rewrite <- Hg3, length_take, length_drop. lia. }
  assert (rest = g1 ++ g2 ++ g3 ++ drop 7 (drop n r2)) as Hrest.
  { rewrite <- Hg3, take_drop, <- Hg2, take_drop, <- Hdrop, <- Hg1.
    by rewrite take_drop. }
  split; [lia|]. split.
  { pose proof (f_equal length Hrest) as Hlr. rewrite !length_app in Hlr. lia. }
  rewrite Hrest. rewrite !app_assoc.
  replace (length g1 + length g2 + length g3) with (length ((g1 ++ g2) ++ g3))
    by (rewrite !length_app; lia).
  by rewrite take_app_length.
Qed.

Lemma code_matches_lo (text : list N) (pos pos' : nat)
    (ms : list (nat * nat * list N * list N * list N)) :
  pos' <= pos -> code_matches_in_order text pos ms ->
  code_matches_in_order text pos' ms.
Proof.
  destruct ms as [|[[[[mstart mend] g1] g2] g3] ms]; cbn [code_matches_in_order].
  - lia.
  - intros Hp (H1 & H2). split; [lia|done].
Qed.

Lemma CODE_RE_finditer_go_order (text s : list N) (pos skip : nat) :
  drop pos text = s ->
  pos <= length text ->
  code_matches_in_order text (pos + skip `min` length s)
    (CodeComments.CODE_RE_finditer_go pos skip s).
Proof.
  revert pos skip. induction s as [|c s IH]; intros pos skip Hs Hpos.
  - cbn [CodeComments.CODE_RE_finditer_go code_matches_in_order length]. lia.
  - assert (drop (S pos) text = s) as Hs'.
    { replace (S pos) with (pos + 1) by lia. by rewrite <- drop_drop, Hs. }
    assert (length text = pos + S (length s)) as Hlen.
    { pose proof (length_drop text pos) as Hl. rewrite Hs in Hl. simpl in Hl. lia. }
    cbn [CodeComments.CODE_RE_finditer_go].
    destruct skip as [|k].
    + destruct (CodeComments.CODE_RE_match_at (c :: s)) as [[[g1 g2] g3]|] eqn:Hm.
      * apply CODE_RE_match_at_spec in Hm as (H1 & Hle & Htake).
        cbn [code_matches_in_order length] in *.
        split; [lia|]. split; [lia|]. split; [lia|]. split.
        -- unfold slice. rewrite Hs.
           replace (pos + (length g1 + length g2 + length g3) - pos)
             with (length g1 + length g2 + length g3) by lia. done.
        -- specialize (IH (S pos) (length g1 + length g2 + length g3 - 1) Hs').
           eapply code_matches_lo; [|apply IH; lia]. lia.
      * specialize (IH (S pos) 0 Hs'). cbn [length].
        eapply code_matches_lo; [|apply IH; lia]. lia.
    + specialize (IH (S pos) k Hs'). cbn [length].
      eapply code_matches_lo; [|apply IH; lia]. lia.
Qed.

Lemma CODE_RE_finditer_order (text : list N) :
  code_matches_in_order text 0 (CodeComments.CODE_RE_finditer text).
Proof.
  unfold CodeComments.CODE_RE_finditer.
  pose proof (CODE_RE_finditer_go_order text text 0 0 eq_refl (Nat.le_0_l _)) as Ho.
  eapply code_matches_lo; [|exact Ho]. lia.
Qed.

Lemma code_matches_le (text : list N) (pos : nat)
    (ms : list (nat * nat * list N * list N * list N)) :
  code_matches_in_order text pos ms -> pos <= length text.
Proof.
  destruct ms as [|[[[[mstart mend] g1] g2] g3] ms]; cbn [code_matches_in_order];
    [done|]. lia.
Qed.

Lemma slice_app (a b c : nat) (s : list N) :
  a <= b -> b <= c -> slice a b s ++ slice b c s = slice a c s.
Proof.
  intros Hab Hbc. unfold slice.
  replace (c - a) with ((b - a) + (c - b)) by lia.
  rewrite <- take_take_drop, drop_drop. f_equal. f_equal. f_equal. lia.
Qed.

Lemma slice_drop (a b : nat) (s : list N) :
  a <= b -> slice a b s ++ drop b s = drop a s.
Proof.
  intros Hab. unfold slice.
  rewrite <- (take_drop (b - a) (drop a s)) at 2. f_equal.
  rewrite drop_drop. f_equal. lia.
Qed.

Lemma slice_parts (s : list N) (a : nat) (x y z : list N) :
  slice a (a + length x + length y + length z) s = x ++ y ++ z ->
  slice a (a + length x) s = x
  /\ slice (a + length x) (a + length x + length y) s = y
  /\ slice (a + length x + length y) (a + length x + length y + length z) s = z.
Proof.
  unfold slice.
  replace (a + length x + length y + length z - a)
    with (length x + length y + length z) by lia.
  replace (a + length x - a) with (length x) by lia.
  replace (a + length x + length y - (a + length x)) with (length y) by lia.
  replace (a + length x + length y + length z - (a + length x + length y))
    with (length z) by lia.
  rewrite <- !drop_drop.
  generalize (drop a s) as d. intros d Ht.
  remember (drop (length x + length y + length z) d) as t eqn:Et.
  assert (d = x ++ y ++ z ++ t) as Hd.
  { rewrite <- (take_drop (length x + length y + length z) d), <- Et, Ht.
    by rewrite <- !app_assoc. }
  clear Et Ht. subst d.
  rewrite take_app_length. split; [done|].
  rewrite !drop_app_length, take_app_length. split; [done|].
  by rewrite take_app_length.
Qed.

Lemma process_file_fold (text : list N) (cache : gmap (list N) (list N))
    (ms : list (nat * nat * list N * list N * list N))
    (out : list (list N)) (last : nat) (changed : bool) :
  code_matches_in_order text last ms ->
  let '(out', last', changed') :=
    fold_left (CodeComments.process_match text cache) ms (out, last, changed) in
  concat out' ++ drop last' text
  = concat out ++ splice text last (map (code_edit cache) ms)
  /\ changed' = changed || existsb (code_differs cache) ms.
Proof.
  revert out last changed.
  induction ms as [|[[[[mstart mend] g1] g2] g3] ms IH]; intros out last changed Hord.
  - cbn [fold_left map splice existsb]. by rewrite orb_false_r.
  - destruct Hord as (Hlast & Hend & Hmend & Hslice & Hrest).
    cbn [fold_left CodeComments.process_match map code_edit existsb].
    unfold code_differs at 1. cbn [fst snd].
    destruct (CodeComments.rewrite_code_comments (html_unescape g2) cache)
      as [code_new code_changed].
    set (code' := if code_changed then html_escape code_new false else g2).
    specialize (IH ((out ++ [slice last mstart text]) ++ [g1 ++ code' ++ g3])
                   mend (changed || code_changed) Hrest).
    destruct (fold_left _ ms _) as [[out' last'] changed'].
    destruct IH as [IH1 IH2]. cbn [snd]. split; [|by rewrite IH2, orb_assoc].
    rewrite IH1. rewrite !concat_app. cbn [concat]. rewrite !app_nil_r.
    rewrite <- !app_assoc. f_equal. cbn [splice].
    assert (slice mstart (mstart + length g1) text = g1
            /\ slice (mend - length g3) mend text = g3) as [Hg1 Hg3].
    { rewrite Hmend in Hslice. apply slice_parts in Hslice as (Hx & _ & Hz).
      split; [done|]. rewrite Hmend.
      replace (mstart + length g1 + length g2 + length g3 - length g3)
        with (mstart + length g1 + length g2) by lia. done. }
    rewrite <- (slice_app last mstart (mstart + length g1)) by lia.
    rewrite Hg1, <- !app_assoc. f_equal. f_equal. f_equal.
    pose proof (code_matches_le _ _ _ Hrest) as Hle.
    destruct ms as [|[[[[ms2 me2] h1] h2] h3] ms]; cbn [map splice].
    + rewrite <- (slice_drop (mend - length g3) mend text) by lia. by rewrite Hg3.
    + destruct Hrest as (Hle2 & _). cbn [code_edit].
      destruct (CodeComments.rewrite_code_comments (html_unescape h2) cache).
      cbn [splice].
      rewrite <- (slice_app (mend - length g3) mend (ms2 + length h1)) by lia.
      by rewrite Hg3, <- app_assoc.
Qed.

Lemma splice_unchanged (text : list N) (pos : nat)
    (ms : list (nat * nat * list N * list N * list N)) (cache : gmap (list N) (list N)) :
  code_matches_in_order text pos ms ->
  existsb (code_differs cache) ms = false ->
  splice text pos (map (code_edit cache) ms) = drop pos text.
Proof.
  revert pos. induction ms as [|[[[[mstart mend] g1] g2] g3] ms IH]; intros pos;
    [done|].
  intros (Hlast & Hend & Hmend & Hslice & Hrest).
  cbn [existsb map code_edit splice]. unfold code_differs at 1. cbn [fst snd].
  destruct (CodeComments.rewrite_code_comments (html_unescape g2) cache)
    as [code_new code_changed]. cbn [snd].
  intros [-> Hex]%orb_false_elim.
  assert (slice (mstart + length g1) (mend - length g3) text = g2) as Hg2.
  { rewrite Hmend in Hslice. apply slice_parts in Hslice as (_ & Hy & _).
    rewrite Hmend.
    replace (mstart + length g1 + length g2 + length g3 - length g3)
      with (mstart + length g1 + length g2) by lia. done. }
  rewrite (IH (mend - length g3)); [|eapply code_matches_lo; [|exact Hrest]; lia|done].
  rewrite <- Hg2 at 1. rewrite slice_drop by lia. apply slice_drop. lia.
Qed.

Lemma process_file_eq (text : list N) (cache : gmap (list N) (list N)) :
  CodeComments.process_text text cache
  = (splice text 0 (map (code_edit cache) (CodeComments.CODE_RE_finditer text)),
     existsb (code_differs cache) (CodeComments.CODE_RE_finditer text)).
Proof.
  unfold CodeComments.process_text.
  pose proof (CODE_RE_finditer_order text) as Hord.
  pose proof (process_file_fold text cache _ [] 0 false Hord) as Hfold.
  destruct (fold_left _ _ _) as [[out last] changed].
  destruct Hfold as [Hout ->]. cbn [orb concat app] in *.
  rewrite concat_app. cbn [concat]. rewrite app_nil_r, Hout.
  destruct (existsb _ _) eqn:Hex; [done|].
  by rewrite splice_unchanged.
Qed.

End CodeMatches.

(** X25: [process_file] of [translate_code_comments_pl.py] changes the inside of
    [<code>] elements only.  The matches of [CODE_RE] follow one another in
    the text it read (with universal newlines), each made of its three
    groups.  When the comments of no match change, the file is not written
    and [changed] is [False].  Otherwise what it hands to [write_text] is the
    text it read in which group 2 of every match, the code between the tags,
    is replaced by the escaped rewritten code when its comments changed and
    kept otherwise, and everything else, the tags included, is as it was
    read; [write_text] raises when that text has a surrogate in it, and
    [changed] is [True] when it does not. *)
Theorem process_file_in_place `{PyTables} `{Platform} (content : list N)
    (cache : gmap (list N) (list N)) :
  code_matches_in_order (read_text content) 0
    (CodeComments.CODE_RE_finditer (read_text content))
  /\ CodeComments.process_file content cache
     = if existsb (code_differs cache)
            (CodeComments.CODE_RE_finditer (read_text content))
       then option_map (fun written => (written, true))
              (write_text
                 (splice (read_text content) 0
                    (map (code_edit cache)
                       (CodeComments.CODE_RE_finditer (read_text content)))))
       else Some (content, false).
Proof.
  split; [apply CODE_RE_finditer_order|].
  unfold CodeComments.process_file. rewrite process_file_eq.
  destruct (existsb _ _); [|done]. by destruct (write_text _).
Qed.

(** ** The values of the attribute entries *)

Section AttrValues.
Context `{PyTables}.

Lemma ATTR_RE_match_at_quotes (prev : option N) (rest prefix value : list N)
    (len : nat) :
  Learncpp.ATTR_RE_match_at prev rest = Some (prefix, value, len) ->
  exists q, (q = 34%N \/ q = 39%N)
    /\ rest !! length prefix = Some q
    /\ rest !! (length prefix + 1 + length value) = Some q
    /\ forallb (fun c => negb (char_eqb c q)) value = true.
Proof.
  unfold Learncpp.ATTR_RE_match_at.
  destruct (negb _); [done|].
  destruct (Learncpp.attr_name_match rest) as [n|] eqn:Hn; [|done].
  apply attr_name_match_length in Hn.
  set (r1 := drop n rest).
  set (ws1 := take_while isspace r1).
  destruct (drop (length ws1) r1) as [|c r2] eqn:Hr2; [done|].
  destruct (negb (char_eqb c 61)); [done|].
  set (ws2 := take_while isspace r2).
  destruct (drop (length ws2) r2) as [|q r3] eqn:Hr3; [done|].
  destruct (negb (char_eqb q 39 || char_eqb q 34)) eqn:Hq; [done|].
  set (value' := take_while (fun c => negb (char_eqb c q)) r3).
  destruct (drop (length value') r3) as [|q' r4] eqn:Hr4; [done|].
  intros [= <- <- <-].
  apply drop_cons_length in Hr2 as Hl2. apply drop_cons_length in Hr3 as Hl3.
  apply drop_cons_length in Hr4 as Hl4.
  assert (length r1 = length rest - n) as Hl1 by apply length_drop.
  rewrite length_take.
  replace ((n + length ws1 + 1 + length ws2) `min` length rest)
    with (n + length ws1 + 1 + length ws2) by lia.
  assert (drop (n + length ws1 + 1 + length ws2) rest = q :: r3) as Hdq.
  { replace (n + length ws1 + 1 + length ws2)
      with (n + (length ws1 + (1 + length ws2))) by lia.
    rewrite <- !drop_drop. fold r1. rewrite Hr2. cbn [drop]. by rewrite drop_0. }
  assert (q' = q) as ->.
  { pose proof (drop_while_head (fun c => negb (char_eqb c q)) r3 q' r4) as Hh.
    rewrite <- drop_take_while in Hh. specialize (Hh Hr4).
    by apply negb_false_iff, char_eqb_eq in Hh. }
  exists q. split.
  { apply negb_false_iff, orb_prop in Hq as [Hq|Hq]; apply char_eqb_eq in Hq; auto. }
  split.
  { rewrite <- (Nat.add_0_r (n + length ws1 + 1 + length ws2)).
    rewrite <- lookup_drop, Hdq. done. }
  split; [|apply take_while_all].
  replace (n + length ws1 + 1 + length ws2 + 1 + length value')
    with (n + length ws1 + 1 + length ws2 + S (length value')) by lia.
  rewrite <- lookup_drop, Hdq. change (r3 !! length value' = Some q).
  rewrite <- (Nat.add_0_r (length value')), <- lookup_drop, Hr4. done.
Qed.

Lemma ATTR_RE_finditer_go_values (token s : list N) (pos : nat) (prev : option N)
    (skip : nat) :
  drop pos token = s ->
  Forall (value_in_quotes token) (Learncpp.ATTR_RE_finditer_go pos prev skip s).
Proof.
  revert pos prev skip. induction s as [|c s IH]; intros pos prev skip Hs; [done|].
  assert (drop (S pos) token = s) as Hs'.
  { replace (S pos) with (pos + 1) by lia. by rewrite <- drop_drop, Hs. }
  cbn [Learncpp.ATTR_RE_finditer_go].
  destruct skip as [|k]; [|by apply IH].
  destruct (Learncpp.ATTR_RE_match_at prev (c :: s)) as [[[prefix value] len]|] eqn:Hm;
    [|by apply IH].
  constructor; [|by apply IH].
  pose proof (ATTR_RE_match_at_spec _ _ _ _ _ Hm) as (Hp & Hlen & Hle & Hv).
  destruct (ATTR_RE_match_at_quotes _ _ _ _ _ Hm) as (q & Hq & Hq1 & Hq2 & Hnq).
  cbn [value_in_quotes]. split; [lia|]. split.
  - unfold slice in *. rewrite <- Hs in Hv. rewrite drop_drop in Hv.
    replace (pos + length prefix + 1 + length value - (pos + length prefix + 1))
      with (length value) by lia.
    replace (length prefix + 1 + length value - (length prefix + 1))
      with (length value) in Hv by lia.
    replace (pos + length prefix + 1) with (pos + (length prefix + 1)) by lia. done.
  - exists q. split; [done|]. rewrite <- Hs in Hq1, Hq2. rewrite lookup_drop in Hq1, Hq2.
    split; [|split; [|done]].
    + replace (pos + length prefix + 1 - 1) with (pos + length prefix) by lia. done.
    + replace (pos + length prefix + 1 + length value)
        with (pos + (length prefix + 1 + length value)) by lia. done.
Qed.

End AttrValues.

(** X26: Every attribute entry [(idx, start, end, raw_val, val)] of a tag token
    records the value where it stands: [token\[start:end\]] is [raw_val], the
    characters just before [start] and at [end] are the same quote, which
    does not occur in [raw_val]; [val] is [html.unescape(raw_val)] and is
    accepted by [should_translate]. *)
Theorem attr_entry_in_quotes `{PyTables} (idx : nat) (token : list N)
    (e : Learncpp.attr_entry) :
  e ∈ Learncpp.scan_attrs idx token ->
  e.1.1.1.1 = idx
  /\ 1 <= e.1.1.1.2
  /\ slice e.1.1.1.2 e.1.1.2 token = e.1.2
  /\ e.2 = html_unescape e.1.2
  /\ Learncpp.should_translate e.2 = true
  /\ exists q, (q = 34%N \/ q = 39%N)
       /\ token !! (e.1.1.1.2 - 1) = Some q /\ token !! e.1.1.2 = Some q
       /\ forallb (fun c => negb (char_eqb c q)) e.1.2 = true.
Proof.
  unfold Learncpp.scan_attrs. rewrite list_elem_of_In, in_flat_map.
  intros ([[[prefix vstart] vend] raw] & Hm & Hin).
  pose proof (ATTR_RE_finditer_go_values token token 0 None 0 eq_refl) as Hall.
  rewrite Forall_forall in Hall.
  specialize (Hall _ (proj2 (list_elem_of_In _ _) Hm)).
  unfold Learncpp.attr_entry_of in Hin. destruct (negb _); [done|].
  destruct (Learncpp.should_translate (html_unescape raw)) eqn:Hs; [|done].
  destruct Hin as [<-|[]]. cbn [fst snd].
  destruct Hall as (H1 & Hslice & Hq). done.
Qed.

Lemma attr_entry_in_quotes_witness :
  (1, 12, 17, lit "Hello", lit "Hello").1.1.1.1 = 1
  /\ 1 <= 12
  /\ slice 12 17 (lit "<img title=" ++ [34%N] ++ lit "Hello" ++ [34%N] ++ lit ">")
     = lit "Hello"
  /\ lit "Hello" = @html_unescape ascii_tables (lit "Hello")
  /\ Learncpp.should_translate (lit "Hello") = true
  /\ exists q, (q = 34%N \/ q = 39%N)
       /\ (lit "<img title=" ++ [34%N] ++ lit "Hello" ++ [34%N] ++ lit ">") !! (12 - 1)
          = Some q
       /\ (lit "<img title=" ++ [34%N] ++ lit "Hello" ++ [34%N] ++ lit ">") !! 17
          = Some q
       /\ forallb (fun c => negb (char_eqb c q)) (lit "Hello") = true.
Proof.
  apply (@attr_entry_in_quotes ascii_tables 1
           (lit "<img title=" ++ [34%N] ++ lit "Hello" ++ [34%N] ++ lit ">")
           (1, 12, 17, lit "Hello", lit "Hello")).
  vm_compute. apply list_elem_of_here.
Defined.

(** ** Raw string literals *)

Lemma scan_step_raw (code : list N) (i open_paren close_idx : nat) :
  code !! i = Some 82%N -> code !! (i + 1) = Some 34%N ->
  find (lit "(") code (i + 2) = Some open_paren ->
  find (lit ")" ++ slice (i + 2) open_paren code ++ [34%N]) code (open_paren + 1)
  = Some close_idx ->
  scan_step code i normal
  = (close_idx + length (lit ")" ++ slice (i + 2) open_paren code ++ [34%N]),
     normal, None).
Proof.
  intros Hc Hd Hopen Hclose. unfold scan_step. rewrite Hc, Hd, Hopen, Hclose.
  assert (slice i (i + 2) code = [82%N; 34%N]) as ->.
  { unfold slice. replace (i + 2 - i) with 2 by lia.
    apply list_elem_of_split_length in Hc as (l1 & l2 & -> & ->).
    rewrite drop_app_length.
    rewrite lookup_app_r in Hd by lia.
    replace (length l1 + 1 - length l1) with 1 in Hd by lia.
    destruct l2 as [|d l2]; [done|]. by injection Hd as ->. }
  assert ((i + 1 <? length code) = true) as ->.
  { apply Nat.ltb_lt. by apply lookup_lt_Some in Hd. }
  by vm_compute.
Qed.

(** X27: Where the scanner meets, in the normal state, an [R] followed by a double
    quote, and finds the opening parenthesis and then the closing
    [)delim] with its quote, it goes on after that closing quote: no span
    starts inside the raw literal, every span ends at or before the [R] or
    starts after the closing quote. *)
Theorem raw_string_skipped (code : list N) (i open_paren close_idx : nat) :
  reach code i normal ->
  code !! i = Some 82%N -> code !! (i + 1) = Some 34%N ->
  find (lit "(") code (i + 2) = Some open_paren ->
  find (lit ")" ++ slice (i + 2) open_paren code ++ [34%N]) code (open_paren + 1)
  = Some close_idx ->
  Forall (fun sp =>
            span_end sp <= i
            \/ close_idx + length (lit ")" ++ slice (i + 2) open_paren code ++ [34%N])
               < span_start sp)
         (find_comment_spans code).
Proof.
  intros Hreach Hc Hd Hopen Hclose.
  pose proof (find_comment_spans_run code) as Hrun.
  destruct (reach_run _ _ _ _ Hreach Hrun) as (spans & Hrun' & _ & Hend & _).
  inversion Hrun' as [? ? ? Hi|? ? ? i' st' sp ? Hi E Hrest]; subst.
  { apply lookup_lt_Some in Hc. lia. }
  rewrite (scan_step_raw _ _ _ _ Hc Hd Hopen Hclose) in E.
  injection E as <- <- <-.
  apply scan_run_suffix in Hrest as (new & -> & Hnew).
  simpl option_list. rewrite app_nil_r. apply Forall_app. split.
  - eapply Forall_impl; [exact Hend|]. simpl. intros; by left.
  - eapply Forall_impl; [exact Hnew|]. simpl. intros; right; lia.
Qed.

Lemma raw_string_skipped_witness :
  Forall (fun sp =>
            span_end sp <= 0
            \/ 6 + length (lit ")" ++ slice (0 + 2) 3 raw_example ++ [34%N])
               < span_start sp)
         (find_comment_spans raw_example).
Proof.
  apply (raw_string_skipped raw_example 0 3 6);
    [apply reach_init|by vm_compute..].
Defined.

(** ** The stack of skipped elements *)

Section SkipStack.
Context `{PyTables}.

Lemma str_in_elem (x : list N) (l : list (list N)) :
  Learncpp.str_in x l = true <-> x ∈ l.
Proof.
  unfold Learncpp.str_in. rewrite existsb_exists. split.
  - intros (y & Hy & Heq). apply str_eqb_eq in Heq as ->. by apply list_elem_of_In.
  - intros Hx. exists x. split; [by apply list_elem_of_In|apply str_eqb_refl].
Qed.

Lemma update_stack_cases (skip_stack : list (list N)) (token : list N) :
  Learncpp.update_stack skip_stack token = skip_stack
  \/ (exists name, name ∈ Learncpp.SKIP_TAGS
        /\ Learncpp.parse_tag_name token = Some (Learncpp.tag_start, name)
        /\ Learncpp.update_stack skip_stack token = skip_stack ++ [name])
  \/ (exists name, Learncpp.parse_tag_name token = Some (Learncpp.tag_end, name)
        /\ last skip_stack = Some name
        /\ Learncpp.update_stack skip_stack token = removelast skip_stack).
Proof.
  unfold Learncpp.update_stack.
  destruct (Learncpp.parse_tag_name token) as [[[] name]|]; [| |by left].
  - destruct (Learncpp.str_in name Learncpp.SKIP_TAGS) eqn:Hin; [|by left].
    destruct (negb _); [|by left].
    right; left. exists name. by rewrite <- str_in_elem.
  - destruct (last skip_stack) as [top|] eqn:Hlast; [|by left].
    destruct (str_eqb name top) eqn:Heq; [|by left].
    apply str_eqb_eq in Heq as ->. right; right. by exists top.
Qed.

Lemma Forall_removelast {A} (P : A -> Prop) (l : list A) :
  Forall P l -> Forall P (removelast l).
Proof.
  induction 1 as [|x l Hx Hl IH]; [constructor|].
  simpl. destruct l; [constructor|]. by constructor.
Qed.

Lemma scan_token_stack (st : list (list N) * list Learncpp.text_entry
                             * list Learncpp.attr_entry)
    (idx : nat) (token : list N) :
  (Learncpp.scan_token st (idx, token)).1.1
  = if idx mod 2 =? 1 then Learncpp.update_stack st.1.1 token else st.1.1.
Proof.
  destruct st as [[skip_stack te] ae]. cbn [Learncpp.scan_token fst].
  destruct (idx mod 2 =? 1).
  - by destruct (is_nil (Learncpp.update_stack skip_stack token)).
  - by destruct (negb (is_nil skip_stack)).
Qed.

Lemma stack_after_S (parts : list (list N)) (k : nat) (token : list N) :
  parts !! k = Some token ->
  stack_after parts (S k)
  = if k mod 2 =? 1 then Learncpp.update_stack (stack_after parts k) token
    else stack_after parts k.
Proof.
  intros Hk. unfold stack_after.
  rewrite (take_S_r _ _ _ Hk), scan_parts_snoc, scan_token_stack.
  rewrite length_take_le; [done|]. apply lookup_lt_Some in Hk. lia.
Qed.

Lemma stack_after_names (parts : list (list N)) (k : nat) :
  Forall (fun name => name ∈ Learncpp.SKIP_TAGS) (stack_after parts k).
Proof.
  induction k as [|k IH]; [by unfold stack_after; rewrite take_0|].
  destruct (parts !! k) as [token|] eqn:Hk.
  - rewrite (stack_after_S _ _ _ Hk). destruct (k mod 2 =? 1); [|done].
    destruct (update_stack_cases (stack_after parts k) token)
      as [->|[(name & Hin & _ & ->)|(name & _ & _ & ->)]]; [done| |].
    + apply Forall_app. split; [done|]. constructor; [done|constructor].
    + by apply Forall_removelast.
  - apply lookup_ge_None in Hk. unfold stack_after in *.
    rewrite take_ge in IH by lia. by rewrite take_ge by lia.
Qed.

End SkipStack.

(** X28: [skip_stack] holds only names of [SKIP_TAGS].  A text token leaves it as
    it is.  A tag token leaves it as it is, or appends the name of its start
    tag, which is in [SKIP_TAGS], or removes the last name, when it is an end
    tag of that name: an end tag of any other name closes nothing. *)
Theorem skip_stack_steps `{PyTables} (parts : list (list N)) (k : nat) :
  Forall (fun name => name ∈ Learncpp.SKIP_TAGS) (stack_after parts k)
  /\ (forall token, parts !! k = Some token -> k mod 2 = 0 ->
        stack_after parts (S k) = stack_after parts k)
  /\ (forall token, parts !! k = Some token -> k mod 2 = 1 ->
        stack_after parts (S k) = stack_after parts k
        \/ (exists name, name ∈ Learncpp.SKIP_TAGS
              /\ Learncpp.parse_tag_name token = Some (Learncpp.tag_start, name)
              /\ stack_after parts (S k) = stack_after parts k ++ [name])
        \/ (exists name,
              Learncpp.parse_tag_name token = Some (Learncpp.tag_end, name)
              /\ last (stack_after parts k) = Some name
              /\ stack_after parts (S k) = removelast (stack_after parts k))).
Proof.
  split; [apply stack_after_names|]. split.
  - intros token Hk Hmod. rewrite (stack_after_S _ _ _ Hk).
    by replace (k mod 2 =? 1) with false by (symmetry; apply Nat.eqb_neq; lia).
  - intros token Hk Hmod. rewrite (stack_after_S _ _ _ Hk).
    replace (k mod 2 =? 1) with true by (symmetry; apply Nat.eqb_eq; lia).
    apply update_stack_cases.
Qed.

(** * Running the drivers twice *)

(** ** Reading and writing a file *)



Lemma read_text_id (text : list N) :
  Forall (fun c => c <> 13%N) text -> read_text text = text.
Proof.
  unfold read_text. induction 1 as [|c text Hc _ IH]; [done|].
  cbn [universal_newlines].
  assert (char_eqb c 13 = false) as ->.
  { destruct (char_eqb c 13) eqn:E; [|done]. by apply char_eqb_eq in E. }
  by rewrite andb_false_r, IH.
Qed.


(** C6, the claim as stated fails: the apostrophe of the digit separator in
    [1'000] puts the scanner in the state of a character literal, which the
    apostrophe of [don't] ends; the double quote before it opened nothing,
    and the [//] inside the string literal, which stands from 15 to 26, is
    taken for a line comment. *)
Lemma span_inside_literal :
  find_comment_spans digit_separator_example = [(24, 28, line)]
  /\ digit_separator_example !! 15 = Some 34%N
  /\ slice 16 26 digit_separator_example = lit "don't // x"
  /\ digit_separator_example !! 26 = Some 34%N
  /\ lit_body 34%N (lit "don't // x")
  /\ 15 < 24 <= 26.
Proof.
  split; [by vm_compute|]. split; [by vm_compute|]. split; [by vm_compute|].
  split; [by vm_compute|]. split; [|lia].
  assert (lit "don't // x" = [100; 111; 110; 39; 116; 32; 47; 47; 32; 120]%N)
    as -> by (by vm_compute).
  repeat (apply lit_body_plain; [discriminate|discriminate|]).
  apply lit_body_nil.
Qed.

(** ** The tokens of a rewritten document *)
















(** ** Matches of [ATTR_RE] *)

Lemma startswith_ci_app (p a x : list N) :
  startswith_ci p a = true -> startswith_ci p (a ++ x) = true.
Proof.
  revert a. induction p as [|y p IH]; intros a; [done|].
  destruct a as [|c a]; [done|]. cbn [app startswith_ci].
  intros [-> Hp]%andb_true_iff. by rewrite IH.
Qed.





Section AttrMatch.
Context `{PyTables}.





End AttrMatch.

(** ** A tag token after its attributes were rewritten *)

Section AttrRun.
Context `{PyTables}.









Lemma count_cons_eq (c0 : N) (a : list N) :
  length (filter (fun c => c = c0) (c0 :: a))
  = S (length (filter (fun c => c = c0) a)).
Proof. by rewrite filter_cons_True. Qed.

Lemma count_cons_le (c0 c : N) (a : list N) :
  length (filter (fun c => c = c0) a) <= length (filter (fun c => c = c0) (c :: a)).
Proof.
  destruct (decide (c = c0)) as [->|Hc].
  - rewrite count_cons_eq. lia.
  - by rewrite filter_cons_False.
Qed.







End AttrRun.




Section AttrRunExists.
Context `{PyTables}.






End AttrRunExists.

(** ** What a tag token keeps when its attributes are rewritten *)





Section TagKept.
Context `{PyTables}.
















End TagKept.

(** ** A second run of [process_file] of [translate_learncpp_pl.py] *)









Section SecondRun.
Context `{PyTables}.



End SecondRun.

Section SecondRunAttrs.
Context `{PyTables}.







End SecondRunAttrs.

Section SecondRunFile.
Context `{PyTables} {World : Type}.




End SecondRunFile.

(** ** A run of [process_file] of [translate_code_comments_pl.py] that
       changes nothing *)






Section Fixed.
Context `{PyTables}.



















End Fixed.


(** ** [process_file] run twice *)



